(** * Rectifier: forward index, covering grid, tile bounds, inverse index
      and nearest-neighbour resampling of xcube_resampling/rectifier.py

    The development is a shallow embedding of the static methods of class
    [Rectifier] and of the parts of its stateful methods that decide the
    properties below.

    - numpy arrays of rank 2 are lists of rows ([arr2]); a dask array is the
      matrix of its blocks;
    - floating point goes through the interface [FloatOps]; its instance
      [b64] is IEEE binary64 as numpy computes it (Stdlib's [SpecFloat],
      round to nearest even, signed zeros, infinities, NaN);
    - integers are in [Z]; the casts to a sized integer type that the
      source writes ([astype(int)], the int32 array of the tile bounds) and
      the wrap-around of int64 differences are written out;
    - Python exceptions are values of [exn] in the error monad [res]. *)

From Stdlib Require Import ZArith QArith Qround Qpower Qabs Lia Lqa Bool.
From Stdlib Require Import Floats.SpecFloat.
From stdpp Require Import base option list strings sorting.

Local Open Scope Z_scope.

(** ** Exceptions and the error monad *)

Inductive exn : Type :=
  | ValueError (msg : string)
  | AttributeError (attr : string)
  | IndexError (msg : string)
  | ZeroDivisionError (msg : string)
  | TypeError (msg : string).

Inductive res (A : Type) : Type :=
  | Ok (a : A)
  | Raise (e : exn).
Arguments Ok {A} a.
Arguments Raise {A} e.

Definition rbind {A B} (m : res A) (k : A → res B) : res B :=
  match m with
  | Ok a => k a
  | Raise e => Raise e
  end.

#[export] Instance res_bind : MBind res := λ A B k m, rbind m k.
#[export] Instance res_ret : MRet res := λ A a, Ok a.

(** ** Machine integers *)

Definition int64_min : Z := - 2 ^ 63.
Definition int64_max : Z := 2 ^ 63 - 1.

Definition in_int64 (z : Z) : bool := (int64_min <=? z) && (z <=? int64_max).

(** Two's complement wrap-around of a store into an int32 array. *)
Definition wrap32 (z : Z) : Z := (z + 2 ^ 31) mod 2 ^ 32 - 2 ^ 31.

(** Two's complement wrap-around of int64 arithmetic: numpy adds and
    subtracts int64 values modulo [2^64]. *)
Definition wrap64 (z : Z) : Z := (z + 2 ^ 63) mod 2 ^ 64 - 2 ^ 63.

(** [ndarray.astype(int)] on a float array: the value when it is an integer
    of the int64 range; for NaN, an infinity or an integer out of range the
    C cast yields the "integer indefinite" value, [INT64_MIN] on x86-64. *)
Definition astype_int (o : option Z) : Z :=
  match o with
  | Some z => if in_int64 z then z else int64_min
  | None => int64_min
  end.

(** ** Rounding a fraction [n / d], [d > 0], to an integer *)

Definition floor_frac (n d : Z) : Z := n / d.
Definition ceil_frac (n d : Z) : Z := - ((- n) / d).

(** [np.around]: to the nearest integer, halves to the even neighbour. *)
Definition around_frac (n d : Z) : Z :=
  let q := n / d in
  let r := n mod d in
  match 2 * r ?= d with
  | Lt => q
  | Gt => q + 1
  | Eq => if Z.even q then q else q + 1
  end.

(** ** Floating-point interface *)

Class FloatOps (F : Type) : Type := {
  fadd : F → F → F;
  fsub : F → F → F;
  fmul : F → F → F;
  fdiv : F → F → F;
  fopp : F → F;
  (** [<=] and [<]: false as soon as one operand is NaN *)
  fle : F → F → bool;
  flt : F → F → bool;
  (** conversion of an integer to float *)
  of_int : Z → F;
  (** [np.floor], [np.ceil], [np.around] as integers; [None] for NaN and
      the infinities *)
  floor_int : F → option Z;
  ceil_int : F → option Z;
  around_int : F → option Z;
  fnan : F;
  fisnan : F → bool;
  (** the cast of a value stored into a float32 array *)
  to_float32 : F → F;
}.

Section Generic.
Context {F : Type} `{FloatOps F}.

Definition fge (a b : F) : bool := fle b a.

(** A decimal literal [n / d], e.g. [0.5] and [0.001]: the nearest float. *)
Definition lit (n d : Z) : F := fdiv (of_int n) (of_int d).

(** [np.min] and [np.max] of two floats: NaN propagates. *)
Definition np_fmin (a b : F) : F :=
  if fisnan a then a else if fisnan b then b else if fle a b then a else b.
Definition np_fmax (a b : F) : F :=
  if fisnan a then a else if fisnan b then b else if fle a b then b else a.
End Generic.

(** ** IEEE binary64 *)

Module B64.
Definition prec : Z := 53.
Definition emax : Z := 1024.

Definition t : Type := spec_float.

Definition of_Z (z : Z) : t := binary_normalize prec emax z 0 false.

(** Numerator and denominator of a finite float. *)
Definition frac_of (x : t) : option (Z * Z) :=
  match x with
  | S754_zero _ => Some (0, 1)
  | S754_finite s m e =>
      let v := if s then Z.neg m else Z.pos m in
      Some (if 0 <=? e then (v * 2 ^ e, 1) else (v, 2 ^ (- e)))
  | S754_infinity _ | S754_nan => None
  end.

Definition to_int (rnd : Z → Z → Z) (x : t) : option Z :=
  match frac_of x with
  | Some (n, d) => Some (rnd n d)
  | None => None
  end.

Definition is_nan (x : t) : bool :=
  match x with S754_nan => true | _ => false end.

(** Rounding to binary32. *)
Definition to_binary32 (x : t) : t :=
  match x with
  | S754_finite s m e => binary_round 24 128 s m e
  | _ => x
  end.
(** The real number that a finite binary64 number denotes. *)
Definition value (x : t) : option Q :=
  match frac_of x with
  | Some (n, d) => Some (Qmake n (Z.to_pos d))
  | None => None
  end.
End B64.

#[export] Instance b64 : FloatOps B64.t := {|
  fadd := SFadd B64.prec B64.emax;
  fsub := SFsub B64.prec B64.emax;
  fmul := SFmul B64.prec B64.emax;
  fdiv := SFdiv B64.prec B64.emax;
  fopp := SFopp;
  fle := SFleb;
  flt := SFltb;
  of_int := B64.of_Z;
  floor_int := B64.to_int floor_frac;
  ceil_int := B64.to_int ceil_frac;
  around_int := B64.to_int around_frac;
  fnan := S754_nan;
  fisnan := B64.is_nan;
  to_float32 := B64.to_binary32;
|}.

(** ** Values and relative errors

    What a rounding can do to a value is said over the rationals: [pow2 e]
    is [2^e], [sgn s] the sign that a sign bit stands for, and [near q v]
    says that [q] is [v] times [1 + δ] for a relative error [δ] of at most
    [2^-52]. *)

Definition pow2 (e : Z) : Q := (2 ^ e)%Q.

Definition sgn (s : bool) : Q := if s then (- (1))%Q else 1%Q.

Definition eps64 : Q := pow2 (- 52).

Definition near (q v : Q) : Prop :=
  ∃ δ : Q, (- eps64 <= δ <= eps64)%Q ∧ (q == v * (1 + δ))%Q.

(** ** Arrays *)

(** A numpy array of rank 2, row by row. *)
Abbreviation arr2 A := (list (list A)) (only parsing).

Definition at2 {A} (a : arr2 A) (r c : nat) : option A :=
  a !! r ≫= λ row, row !! c.

Definition map2 {A B} (f : A → B) (a : arr2 A) : arr2 B := map (map f) a.

Definition zip2 {A B C} (f : A → B → C) (a : arr2 A) (b : arr2 B) : arr2 C :=
  zip_with (zip_with f) a b.

(** ** The destination grid

    Modelled from the spec: class [Grid] of grid.py, the descriptor of the
    destination raster built as
    [Grid(crs, (x_min, y_min), (x_res, y_res), (width, height),
    (tile_width, tile_height))]; of the CRS only [crs.is_geographic] is
    read. *)

Record Grid (F : Type) : Type := mkGrid {
  is_geographic : bool;
  x_min : F;
  y_min : F;
  x_res : F;
  y_res : F;
  width : Z;
  height : Z;
  tile_width : Z;
  tile_height : Z;
}.
Arguments mkGrid {F}.
Arguments is_geographic {F}.
Arguments x_min {F}.
Arguments y_min {F}.
Arguments x_res {F}.
Arguments y_res {F}.
Arguments width {F}.
Arguments height {F}.
Arguments tile_width {F}.
Arguments tile_height {F}.

(** ** Forward index *)

Section Forward.
Context {F : Type} `{FloatOps F}.

(** [pyproj.Transformer.transform] works point by point; the transformer
    is a function on coordinate pairs. *)
Definition Transformer : Type := F → F → F * F.

Definition transform (trafo : Transformer) (lon lat : arr2 F)
  : arr2 F * arr2 F :=
  (zip2 (λ x y, fst (trafo x y)) lon lat,
   zip2 (λ x y, snd (trafo x y)) lon lat).

(** [np.floor((v - origin) / res).astype(dtype=int)] *)
Definition quantize (origin res v : F) : Z :=
  astype_int (floor_int (fdiv (fsub v origin) res)).

Definition block_dst_pixels_of_src_block (src_lon src_lat : arr2 F)
    (trafo : Transformer) (dst_grid : Grid F) : arr2 Z * arr2 Z :=
  let '(dst_x, dst_y) :=
    if is_geographic dst_grid then (src_lon, src_lat)
    else transform trafo src_lon src_lat in
  let dst_i := map2 (quantize (x_min dst_grid) (x_res dst_grid)) dst_x in
  let dst_j := map2 (quantize (y_min dst_grid) (y_res dst_grid)) dst_y in
  (dst_i, dst_j).
End Forward.
Arguments Transformer F : clear implicits.

(** ** Reductions and indexing of numpy *)

(** [np.min], [np.max] (and [np.nanmin], [np.nanmax], the same on integer
    arrays) of the flattened array: ValueError on a zero-size array. *)
Definition np_min (l : list Z) : res Z :=
  match l with
  | [] => Raise (ValueError "zero-size array to reduction operation minimum which has no identity")
  | x :: xs => Ok (foldl Z.min x xs)
  end.

Definition np_max (l : list Z) : res Z :=
  match l with
  | [] => Raise (ValueError "zero-size array to reduction operation maximum which has no identity")
  | x :: xs => Ok (foldl Z.max x xs)
  end.

(** [a[k]] for an integer [k]: negative indices count from the end. *)
Definition np_index {A} (a : list A) (k : Z) : res A :=
  let n := Z.of_nat (length a) in
  let k' := if k <? 0 then k + n else k in
  if (0 <=? k') && (k' <? n) then
    match a !! Z.to_nat k' with
    | Some x => Ok x
    | None => Raise (IndexError "index out of bounds")
    end
  else Raise (IndexError "index out of bounds").

(** [a[start:stop]]: negative bounds count from the end, bounds are clipped
    to the length. *)
Definition py_slice {A} (start stop : Z) (a : list A) : list A :=
  let n := Z.of_nat (length a) in
  let clip k := Z.max 0 (Z.min n (if k <? 0 then k + n else k)) in
  take (Z.to_nat (clip stop - clip start)) (drop (Z.to_nat (clip start)) a).

(** [//] and [%] of numpy integers: floor division; a zero divisor gives 0
    (with a warning). *)
Definition np_floordiv (a b : Z) : Z := if b =? 0 then 0 else a / b.
Definition np_mod (a b : Z) : Z := if b =? 0 then 0 else a mod b.

(** [math.ceil(a / b)] on sizes: exact as long as the sizes are below
    [2^53]. *)
Definition ceil_div (a b : Z) : res Z :=
  if b =? 0 then Raise (ZeroDivisionError "division by zero")
  else Ok (ceil_frac a b).

(** [range(n)] *)
Definition py_range (n : Z) : list Z := map Z.of_nat (seq 0 (Z.to_nat n)).

(** Traversal of a list in the error monad, left to right. *)
Fixpoint traverse {A B} (f : A → res B) (l : list A) : res (list B) :=
  match l with
  | [] => Ok []
  | x :: xs =>
      match f x with
      | Ok y =>
          match traverse f xs with
          | Ok ys => Ok (y :: ys)
          | Raise e => Raise e
          end
      | Raise e => Raise e
      end
  end.

(** The cells of an array with their row and column, row by row: the order
    in which a boolean mask selects. *)
Definition cells {A} (a : arr2 A) : list (nat * nat * A) :=
  concat (imap (λ r row, imap (λ c x, (r, c, x)) row) a).

(** ** Chunked (dask) arrays: the matrix of the blocks *)

Abbreviation chunked A := (list (list (arr2 A))) (only parsing).

(** The blocks of a dask array side by side and on top of each other. *)
Definition hstack {A} (bs : list (arr2 A)) : arr2 A :=
  match bs with
  | [] => []
  | b :: rest => foldl (zip_with app) b rest
  end.

Definition assemble {A} (d : chunked A) : arr2 A := concat (map hstack d).

Definition nrows {A} (a : arr2 A) : nat := length a.
Definition ncols {A} (a : arr2 A) : nat :=
  match a with
  | [] => 0%nat
  | row :: _ => length row
  end.

(** [d.chunksize]: the largest chunk along each axis, rows first. *)
Definition chunksize {A} (d : chunked A) : Z * Z :=
  (Z.of_nat (max_list (map (λ brow, max_list (map nrows brow)) d)),
   Z.of_nat (max_list (map (λ brow, max_list (map ncols brow)) d))).

(** ** The Rectifier object *)

(** An attribute of a Python object: never assigned, [None], or a value. *)
Inductive attr (A : Type) : Type :=
  | Missing
  | PyNone
  | Val (a : A).
Arguments Missing {A}.
Arguments PyNone {A}.
Arguments Val {A} a.

(** [self.a]: AttributeError when the attribute was never assigned. *)
Definition getattr {A} (a : attr A) (nm : string) : res (option A) :=
  match a with
  | Missing => Raise (AttributeError nm)
  | PyNone => Ok None
  | Val v => Ok (Some v)
  end.

Section Rectifier.
Context {F : Type} `{FloatOps F}.

(** Grid objects live in a store and are shared by reference. *)
Definition loc : Type := nat.
Abbreviation store := (list (Grid F)) (only parsing).

(** The lazy array made by [da.map_blocks] in
    [create_forward_pixel_index]: the arguments it captured. *)
Record ForwardGraph : Type := mkForwardGraph {
  fw_lon : chunked F;
  fw_lat : chunked F;
  fw_trafo : Transformer F;
  fw_grid : option loc;
}.

(** A node of the graph made by [create_inverse_pixel_index]: the
    arguments of one call of
    [inverse_index_of_dst_block_with_src_subset]. *)
Record InverseNode : Type := mkInverseNode {
  inv_lon : arr2 F;
  inv_lat : arr2 F;
  inv_offset : F * F;
  inv_grid : option loc;
  inv_trafo : Transformer F;
  inv_block_id : Z * Z;
}.

Record Rectifier : Type := mkRectifier {
  src_lon : chunked F;
  src_lat : chunked F;
  dst_grid : option loc;
  name : string;
  trafo : attr (Transformer F);
  forward_index : attr ForwardGraph;
  inverse_index : attr (arr2 InverseNode);
}.

(** [Rectifier.__init__] *)
Definition init (src_lon src_lat : chunked F) (dst_grid : option loc)
    (name : string) : Rectifier :=
  {| src_lon := src_lon; src_lat := src_lat; dst_grid := dst_grid;
     name := name;
     trafo := Missing; forward_index := Missing;
     inverse_index := Missing |}.

(** [self.dst_grid.<field>] *)
Definition deref (h : store) (g : option loc) (field : string)
  : res (loc * Grid F) :=
  match g with
  | None => Raise (AttributeError field)
  | Some l =>
      match h !! l with
      | Some gr => Ok (l, gr)
      | None => Raise (AttributeError field)
      end
  end.

(** [create_forward_pixel_index]; [from_crs] is the transformer that
    [pyproj.Transformer.from_crs] builds for the grid's CRS. *)
Definition create_forward_pixel_index (from_crs : Transformer F)
    (h : store) (self : Rectifier) : res (Rectifier * ForwardGraph) :=
  _ ← deref h (dst_grid self) "crs";
  let fw := {| fw_lon := src_lon self; fw_lat := src_lat self;
               fw_trafo := from_crs; fw_grid := dst_grid self |} in
  Ok ({| src_lon := src_lon self; src_lat := src_lat self;
         dst_grid := dst_grid self; name := name self;
         trafo := Val from_crs; forward_index := Val fw;
         inverse_index := inverse_index self |}, fw).

(** [forward_index.compute()]: every block is computed with the grid
    object as it is in the store at that moment. *)
Definition compute_forward (h : store) (fw : ForwardGraph)
  : res (chunked Z * chunked Z) :=
  '(_, g) ← deref h (fw_grid fw) "crs";
  let blocks :=
    zip_with (zip_with (λ lon lat,
      block_dst_pixels_of_src_block lon lat (fw_trafo fw) g))
      (fw_lon fw) (fw_lat fw) in
  Ok (map (map fst) blocks, map (map snd) blocks).

(** [dst_bbox_of_src_block] *)
Definition dst_bbox_of_src_block (block_i block_j : arr2 Z)
  : res (Z * Z * Z * Z) :=
  i_min ← np_min (concat block_i);
  j_min ← np_min (concat block_j);
  i_max ← np_max (concat block_i);
  j_max ← np_max (concat block_j);
  Ok (i_min, j_min, i_max, j_max).

(** [determine_covering_dst_grid]: returns the store, the object and the
    reference of the new grid. *)
Definition determine_covering_dst_grid (h : store) (self : Rectifier)
  : res (store * Rectifier * loc) :=
  fwo ← getattr (forward_index self) "forward_index";
  match fwo with
  | None =>
      Raise (ValueError
        "missing forward index. Call create_forward_pixel_index() first.")
  | Some fw =>
      '(fi, fj) ← compute_forward h fw;
      bboxes ← traverse (λ '(bi, bj), dst_bbox_of_src_block bi bj)
                 (zip (concat fi) (concat fj));
      i_min ← np_min (map (λ b, b.1.1.1) bboxes);
      j_min ← np_min (map (λ b, b.1.1.2) bboxes);
      i_max ← np_max (map (λ b, b.1.2) bboxes);
      j_max ← np_max (map (λ b, b.2) bboxes);
      '(l, g) ← deref h (dst_grid self) "x_res";
      (* the grid object is updated in place ... *)
      let g1 :=
        {| is_geographic := is_geographic g;
           x_min := fmul (of_int i_min) (x_res g);
           y_min := fmul (of_int j_min) (y_res g);
           x_res := x_res g; y_res := y_res g;
           width := wrap64 (wrap64 (i_max - i_min) + 1);
           height := wrap64 (wrap64 (j_max - j_min) + 1);
           tile_width := tile_width g; tile_height := tile_height g |} in
      let h1 := <[l := g1]> h in
      (* ... and a new grid object is made from it *)
      let g2 :=
        mkGrid (is_geographic g1)
          (fmul (of_int i_min) (x_res g1)) (fmul (of_int j_min) (y_res g1))
          (x_res g1) (y_res g1)
          (wrap64 (wrap64 (i_max - i_min) + 1))
          (wrap64 (wrap64 (j_max - j_min) + 1))
          (tile_width g1) (tile_height g1) in
      let l2 := length h1 in
      Ok (h1 ++ [g2],
          {| src_lon := src_lon self; src_lat := src_lat self;
             dst_grid := Some l2; name := name self;
             trafo := trafo self; forward_index := forward_index self;
             inverse_index := inverse_index self |},
          l2)
  end.
End Rectifier.
Abbreviation store F := (list (Grid F)) (only parsing).
Arguments ForwardGraph F : clear implicits.
Arguments InverseNode F : clear implicits.
Arguments Rectifier F : clear implicits.

(** ** Tile bounds *)

(** [(col_min, row_min, col_max, row_max)] in source pixel coordinates. *)
Definition box : Type := Z * Z * Z * Z.

(** [a.transpose()] of a rectangular array. *)
Definition transpose {A} (a : arr2 A) : arr2 A :=
  foldr (zip_with cons) (replicate (ncols a) []) a.

(** [a[mask]]: the elements where the mask holds, row by row. *)
Definition select {A} (mask : arr2 bool) (a : arr2 A) : list A :=
  map snd (filter (λ p, Is_true p.1) (concat (zip2 pair mask a))).

(** [np.arange(0, stop, step)] *)
Definition np_arange (stop step : Z) : res (list Z) :=
  if step =? 0 then Raise (ZeroDivisionError "division by zero")
  else Ok (map (λ k, k * step) (py_range (ceil_frac stop step))).

Section TileBounds.
Context {F : Type}.

(** The entry of [result_boxes] for destination block
    [(dst_block_j, dst_block_i)], as the loop body stores it in the int32
    array. *)
Definition bbox_entry (fi fj : arr2 Z) (src_size : Z * Z)
    (src_block_offset_row src_block_offset_col : Z)
    (src_local_rows src_local_cols : arr2 Z)
    (down up left right : Z) : res box :=
  let inside_block_j := map2 (λ j, (down <=? j) && (j <? up)) fj in
  let inside_block_i := map2 (λ i, (left <=? i) && (i <? right)) fi in
  let inside := zip2 andb inside_block_j inside_block_i in
  let src_block_rows :=
    map (λ r, r + src_block_offset_row) (select inside src_local_rows) in
  let src_block_cols :=
    map (λ c, c + src_block_offset_col) (select inside src_local_cols) in
  b0 ← (if (0 <? length src_block_cols)%nat
        then m ← np_min src_block_cols; Ok (Z.max (m - 1) 0)
        else Ok src_size.2);
  b1 ← (if (0 <? length src_block_rows)%nat
        then m ← np_min src_block_rows; Ok (Z.max (m - 1) 0)
        else Ok src_size.1);
  b2 ← (if (0 <? length src_block_cols)%nat
        then m ← np_max src_block_cols; Ok (Z.min (m + 2) src_size.2)
        else Ok (-1));
  b3 ← (if (0 <? length src_block_rows)%nat
        then m ← np_max src_block_rows; Ok (Z.min (m + 2) src_size.1)
        else Ok (-1));
  Ok (wrap32 b0, wrap32 b1, wrap32 b2, wrap32 b3).

(** [dst_bboxes_of_src_block]; the result is indexed by destination block
    row, then column. [src_tile_size], [src_size] and [block_id] are
    (row, column) pairs. *)
Definition dst_bboxes_of_src_block (fi fj : arr2 Z) (dst_grid : Grid F)
    (src_tile_size src_size block_id : Z * Z) : res (arr2 box) :=
  let src_block_offset_col := block_id.2 * src_tile_size.2 in
  let src_block_offset_row := block_id.1 * src_tile_size.1 in
  let num_rows := Z.of_nat (nrows fi) in
  let num_cols := Z.of_nat (ncols fi) in
  let src_local_cols := replicate (nrows fi) (py_range num_cols) in
  let src_local_rows :=
    transpose (replicate (ncols fi) (py_range num_rows)) in
  dst_left ← np_arange (width dst_grid) (tile_width dst_grid);
  let dst_right := tail dst_left ++ [width dst_grid] in
  dst_down ← np_arange (height dst_grid) (tile_height dst_grid);
  let dst_up := tail dst_down ++ [height dst_grid] in
  dst_num_blocks_i ← ceil_div (width dst_grid) (tile_width dst_grid);
  dst_num_blocks_j ← ceil_div (height dst_grid) (tile_height dst_grid);
  traverse (λ dst_block_j,
    down ← np_index dst_down dst_block_j;
    up ← np_index dst_up dst_block_j;
    traverse (λ dst_block_i,
      left ← np_index dst_left dst_block_i;
      right ← np_index dst_right dst_block_i;
      bbox_entry fi fj src_size src_block_offset_row src_block_offset_col
        src_local_rows src_local_cols down up left right)
      (py_range dst_num_blocks_i))
    (py_range dst_num_blocks_j).

(** The merge of [create_inverse_pixel_index]: [np.nanmin] and
    [np.nanmax] over the source blocks (axes 2 and 3), per destination
    block. The boxes are integers, so no value is skipped as NaN. *)
Definition merge_boxes (boxes : list box) : res box :=
  b0 ← np_min (map (λ b : box, b.1.1.1) boxes);
  b1 ← np_min (map (λ b : box, b.1.1.2) boxes);
  b2 ← np_max (map (λ b : box, b.1.2) boxes);
  b3 ← np_max (map (λ b : box, b.2) boxes);
  Ok (b0, b1, b2, b3).

(** The box of destination block [(tj, ti)] in the result of one source
    block. *)
Definition box_at (raw : arr2 box) (tj ti : Z) : res box :=
  row ← np_index raw tj;
  np_index row ti.

(** [bbox_blocks]: [raw] holds the result of [dst_bboxes_of_src_block]
    for every source block. *)
Definition bbox_blocks (raw : chunked box) (num_blocks_j num_blocks_i : Z)
  : res (arr2 box) :=
  traverse (λ tj,
    traverse (λ ti,
      boxes ← traverse (λ rb, box_at rb tj ti) (concat raw);
      merge_boxes boxes)
      (py_range num_blocks_i))
    (py_range num_blocks_j).
End TileBounds.

(** ** Inverse index *)

(** [np.tile(v, (reps, 1))] of a vector: [reps] copies of the row. With a
    negative count numpy fails: repeating by a negative count is refused,
    and an empty vector cannot be reshaped to a negative extent. *)
Definition np_tile (v : list Z) (reps : Z) : res (arr2 Z) :=
  if reps <? 0 then Raise (ValueError "negative dimensions are not allowed")
  else Ok (replicate (Z.to_nat reps) v).

(** [a[j, i] = v] for indices inside the array. *)
Definition set2 {A} (a : arr2 A) (j i : Z) (v : A) : arr2 A :=
  alter (λ row, <[Z.to_nat i := v]> row) (Z.to_nat j) a.

Section Inverse.
Context {F : Type} `{FloatOps F}.

(** The four points P0 .. P3 of a quad along axis 0 of a stack. *)
Definition pt4 : Type := F * F * F * F.
Definition P0 (p : pt4) : F := p.1.1.1.
Definition P1 (p : pt4) : F := p.1.1.2.
Definition P2 (p : pt4) : F := p.1.2.
Definition P3 (p : pt4) : F := p.2.

(** [np.stack((a[:-1,:-1], a[:-1,1:], a[1:,:-1], a[1:,1:]))] *)
Definition stack4 (a : arr2 F) : arr2 pt4 :=
  let top := py_slice 0 (-1) a in
  let bottom := drop 1 a in
  let left := map (py_slice 0 (-1)) in
  let right := map (drop 1) in
  zip2 (λ p01 p23, (p01.1, p01.2, p23.1, p23.2))
    (zip2 pair (left top) (right top))
    (zip2 pair (left bottom) (right bottom)).

(** [triangles_in_dst_pixel_grid]; [block_id] is (row, column). *)
Definition triangles_in_dst_pixel_grid (src_lon src_lat : arr2 F)
    (dst_grid : Grid F) (trafo : Transformer F) (block_id : Z * Z)
  : arr2 pt4 * arr2 pt4 :=
  let '(src_x, src_y) :=
    if is_geographic dst_grid then (src_lon, src_lat)
    else transform trafo src_lon src_lat in
  let subset_i :=
    map2 (λ x, fsub (fdiv (fsub x (x_min dst_grid)) (x_res dst_grid))
                 (of_int (block_id.2 * tile_width dst_grid))) src_x in
  let subset_j :=
    map2 (λ y, fsub (fdiv (fsub y (y_min dst_grid)) (y_res dst_grid))
                 (of_int (block_id.1 * tile_height dst_grid))) src_y in
  (stack4 subset_i, stack4 subset_j).

(** [np.min(p, axis=0)] and [np.max(p, axis=0)] of a stack of four *)
Definition min4 (p : pt4) : F :=
  np_fmin (np_fmin (np_fmin (P0 p) (P1 p)) (P2 p)) (P3 p).
Definition max4 (p : pt4) : F :=
  np_fmax (np_fmax (np_fmax (P0 p) (P1 p)) (P2 p)) (P3 p).

(** [bboxes_of_triangles] *)
Definition bboxes_of_triangles (four_points_i four_points_j : arr2 pt4)
    (dst_grid : Grid F) : arr2 Z * arr2 Z * Z * Z :=
  let is_inside_dst_block :=
    zip2 (λ pi pj,
            fge (P0 pi) (of_int 0) && fge (P0 pj) (of_int 0)
            && fle (P0 pi) (of_int (tile_width dst_grid))
            && fle (P0 pj) (of_int (tile_height dst_grid)))
      four_points_i four_points_j in
  let bboxes_min_i := map2 (λ p, astype_int (floor_int (min4 p))) four_points_i in
  let bboxes_min_j := map2 (λ p, astype_int (floor_int (min4 p))) four_points_j in
  let bboxes_max_i := map2 (λ p, astype_int (ceil_int (max4 p))) four_points_i in
  let bboxes_max_j := map2 (λ p, astype_int (ceil_int (max4 p))) four_points_j in
  let bboxes_width :=
    zip2 (λ a b, wrap64 (a - b)) bboxes_max_i bboxes_min_i in
  let bboxes_height :=
    zip2 (λ a b, wrap64 (a - b)) bboxes_max_j bboxes_min_j in
  let widths := select is_inside_dst_block bboxes_width in
  let heights := select is_inside_dst_block bboxes_height in
  match widths, heights with
  | w :: ws, h :: hs =>
      (bboxes_min_i, bboxes_min_j, foldl Z.max w ws, foldl Z.max h hs)
  | _, _ => (bboxes_min_i, bboxes_min_j, 0, 0)
  end.

(** What the vectorised statements of the painter loop read of one quad:
    its points, the origin of its bounding box and its column and row in
    the source subset. *)
Record QuadData : Type := mkQuadData {
  q_i : pt4;
  q_j : pt4;
  q_min_i : Z;
  q_min_j : Z;
  q_col : Z;
  q_row : Z;
}.

Definition det_a (q : QuadData) : F :=
  fsub (fmul (fsub (P0 (q_i q)) (P1 (q_i q))) (fsub (P0 (q_j q)) (P2 (q_j q))))
       (fmul (fsub (P0 (q_i q)) (P2 (q_i q))) (fsub (P0 (q_j q)) (P1 (q_j q)))).

Definition det_b (q : QuadData) : F :=
  fsub (fmul (fsub (P3 (q_i q)) (P2 (q_i q))) (fsub (P3 (q_j q)) (P1 (q_j q))))
       (fmul (fsub (P3 (q_i q)) (P1 (q_i q))) (fsub (P3 (q_j q)) (P2 (q_j q)))).

(** numerical accuracy parameters *)
Definition uv_delta : F := lit 1 1000.
Definition u_min : F := fopp uv_delta.
Definition v_min : F := fopp uv_delta.
Definition uv_max : F := fadd (of_int 1) (fmul (of_int 2) uv_delta).

Definition half : F := lit 5 10.

Definition ua (q : QuadData) (dst_i dst_j : Z) : F :=
  fdiv (fsub
          (fmul (fsub (fsub (P0 (q_i q)) (of_int dst_i)) half)
                (fsub (P0 (q_j q)) (P2 (q_j q))))
          (fmul (fsub (fsub (P0 (q_j q)) (of_int dst_j)) half)
                (fsub (P0 (q_i q)) (P2 (q_i q)))))
       (det_a q).

Definition va (q : QuadData) (dst_i dst_j : Z) : F :=
  fdiv (fsub
          (fmul (fsub (fsub (P0 (q_j q)) (of_int dst_j)) half)
                (fsub (P0 (q_i q)) (P1 (q_i q))))
          (fmul (fsub (fsub (P0 (q_i q)) (of_int dst_i)) half)
                (fsub (P0 (q_j q)) (P1 (q_j q)))))
       (det_a q).

Definition ub (q : QuadData) (dst_i dst_j : Z) : F :=
  fdiv (fsub
          (fmul (fsub (fsub (P3 (q_i q)) (of_int dst_i)) half)
                (fsub (P3 (q_j q)) (P1 (q_j q))))
          (fmul (fsub (fsub (P3 (q_j q)) (of_int dst_j)) half)
                (fsub (P3 (q_i q)) (P1 (q_i q)))))
       (det_b q).

Definition vb (q : QuadData) (dst_i dst_j : Z) : F :=
  fdiv (fsub
          (fmul (fsub (fsub (P3 (q_j q)) (of_int dst_j)) half)
                (fsub (P3 (q_i q)) (P2 (q_i q))))
          (fmul (fsub (fsub (P3 (q_i q)) (of_int dst_i)) half)
                (fsub (P3 (q_j q)) (P2 (q_j q)))))
       (det_b q).

(** The membership test of both triangles. *)
Definition is_inside_triangle (u v : F) (dst_i dst_j dst_width dst_height : Z)
  : bool :=
  fge u u_min && fge v v_min && fle (fadd u v) uv_max
  && (0 <=? dst_i) && (dst_i <? dst_width)
  && (0 <=? dst_j) && (dst_j <? dst_height).

(** The two result arrays, column index and row index. *)
Definition canvas : Type := arr2 F * arr2 F.

(** One masked assignment of triangle A, for one quad: the quad writes
    when its mask holds. Over the quads of the subset the writes happen
    row by row, a later one replacing an earlier one at the same pixel. *)
Definition paint_a (src_offset : F * F) (dst_width dst_height : Z)
    (i_offset j_offset : Z) (result : canvas) (q : QuadData) : canvas :=
  let dst_j := q_min_j q + j_offset in
  let dst_i := q_min_i q + i_offset in
  let u := ua q dst_i dst_j in
  let v := va q dst_i dst_j in
  if is_inside_triangle u v dst_i dst_j dst_width dst_height then
    (set2 result.1 dst_j dst_i
       (fadd (fadd (of_int (q_col q)) src_offset.1) u),
     set2 result.2 dst_j dst_i
       (fadd (fadd (of_int (q_row q)) src_offset.2) v))
  else result.

Definition paint_b (src_offset : F * F) (dst_width dst_height : Z)
    (i_offset j_offset : Z) (result : canvas) (q : QuadData) : canvas :=
  let dst_j := q_min_j q + j_offset in
  let dst_i := q_min_i q + i_offset in
  let u := ub q dst_i dst_j in
  let v := vb q dst_i dst_j in
  if is_inside_triangle u v dst_i dst_j dst_width dst_height then
    (set2 result.1 dst_j dst_i
       (fsub (fadd (fadd (of_int (q_col q)) src_offset.1) (of_int 1)) u),
     set2 result.2 dst_j dst_i
       (fsub (fadd (fadd (of_int (q_row q)) src_offset.2) (of_int 1)) v))
  else result.

(** The body of the inner loop: triangle A of every quad, then
    triangle B of every quad. *)
Definition paint_offset (quads : list QuadData) (src_offset : F * F)
    (dst_width dst_height : Z) (j_offset : Z) (result : canvas)
    (i_offset : Z) : canvas :=
  let result :=
    foldl (paint_a src_offset dst_width dst_height i_offset j_offset)
      result quads in
  foldl (paint_b src_offset dst_width dst_height i_offset j_offset)
    result quads.

Definition paint (quads : list QuadData) (src_offset : F * F)
    (dst_width dst_height : Z) (bboxes_max_width bboxes_max_height : Z)
    (result : canvas) : canvas :=
  foldl (λ result j_offset,
           foldl (paint_offset quads src_offset dst_width dst_height
                    j_offset)
             result (py_range bboxes_max_width))
    result (py_range bboxes_max_height).

(** [np.empty((rows, cols))] filled with NaN *)
Definition nan_array (rows cols : Z) : res (arr2 F) :=
  if (rows <? 0) || (cols <? 0)
  then Raise (ValueError "negative dimensions are not allowed")
  else Ok (replicate (Z.to_nat rows) (replicate (Z.to_nat cols) fnan)).

(** The quads of the subset, row by row. *)
Definition quads_of (four_points_i four_points_j : arr2 pt4)
    (bboxes_min_i bboxes_min_j src_id_col src_id_row : arr2 Z)
  : list QuadData :=
  concat
    (zip2 (λ (p : pt4 * pt4) (b : Z * Z * (Z * Z)),
             mkQuadData p.1 p.2 b.1.1 b.1.2 b.2.1 b.2.2)
       (zip2 pair four_points_i four_points_j)
       (zip2 pair (zip2 pair bboxes_min_i bboxes_min_j)
                  (zip2 pair src_id_col src_id_row))).

(** The extent of destination block [block_id] along one axis. *)
Definition block_extent (size tile id : Z) : res Z :=
  n ← ceil_div size tile;
  let num_complete_tiles := n - 1 in
  Ok (if id <? num_complete_tiles then tile
      else size - num_complete_tiles * tile).

(** [inverse_index_of_dst_block_with_src_subset] *)
Definition inverse_index_of_dst_block_with_src_subset
    (src_lon src_lat : arr2 F) (src_offset : F * F) (dst_grid : Grid F)
    (trafo : Transformer F) (block_id : Z * Z) : res canvas :=
  let '(four_points_i, four_points_j) :=
    triangles_in_dst_pixel_grid src_lon src_lat dst_grid trafo block_id in
  let '(bboxes_min_i, bboxes_min_j, bboxes_max_width, bboxes_max_height) :=
    bboxes_of_triangles four_points_i four_points_j dst_grid in
  let src_width := Z.of_nat (nrows src_lon) - 1 in
  let src_height := Z.of_nat (ncols src_lon) - 1 in
  src_id_col ← np_tile (py_range src_height) src_width;
  src_id_row_t ← np_tile (py_range src_width) src_height;
  let src_id_row := transpose src_id_row_t in
  dst_width ← block_extent (width dst_grid) (tile_width dst_grid) block_id.2;
  dst_height ← block_extent (height dst_grid) (tile_height dst_grid) block_id.1;
  result_col ← nan_array dst_height dst_width;
  result_row ← nan_array dst_height dst_width;
  let quads :=
    quads_of four_points_i four_points_j bboxes_min_i bboxes_min_j
      src_id_col src_id_row in
  Ok (paint quads src_offset dst_width dst_height
        bboxes_max_width bboxes_max_height (result_col, result_row)).

(** Triangle A (resp. B) of quad [q], shifted by the offsets, contains the
    centre of destination pixel [(r, c)] of a block of the given extent. *)
Definition covers_a (q : QuadData) (dst_width dst_height : Z)
    (i_offset j_offset : Z) (r c : nat) : Prop :=
  let dst_i := q_min_i q + i_offset in
  let dst_j := q_min_j q + j_offset in
  is_inside_triangle (ua q dst_i dst_j) (va q dst_i dst_j)
    dst_i dst_j dst_width dst_height = true
  ∧ Z.to_nat dst_j = r ∧ Z.to_nat dst_i = c.

Definition covers_b (q : QuadData) (dst_width dst_height : Z)
    (i_offset j_offset : Z) (r c : nat) : Prop :=
  let dst_i := q_min_i q + i_offset in
  let dst_j := q_min_j q + j_offset in
  is_inside_triangle (ub q dst_i dst_j) (vb q dst_i dst_j)
    dst_i dst_j dst_width dst_height = true
  ∧ Z.to_nat dst_j = r ∧ Z.to_nat dst_i = c.

(** What triangle A (resp. B) of quad [q] records for a destination pixel,
    as (column, row): the local column and row of the quad plus the offset
    of the subset plus the barycentric coordinates (for B: plus one, minus
    them). *)
Definition recorded_a (q : QuadData) (src_offset : F * F)
    (i_offset j_offset : Z) : F * F :=
  let dst_i := q_min_i q + i_offset in
  let dst_j := q_min_j q + j_offset in
  (fadd (fadd (of_int (q_col q)) src_offset.1) (ua q dst_i dst_j),
   fadd (fadd (of_int (q_row q)) src_offset.2) (va q dst_i dst_j)).

Definition recorded_b (q : QuadData) (src_offset : F * F)
    (i_offset j_offset : Z) : F * F :=
  let dst_i := q_min_i q + i_offset in
  let dst_j := q_min_j q + j_offset in
  (fsub (fadd (fadd (of_int (q_col q)) src_offset.1) (of_int 1))
     (ub q dst_i dst_j),
   fsub (fadd (fadd (of_int (q_row q)) src_offset.2) (of_int 1))
     (vb q dst_i dst_j)).

(** The pixel [(r, c)] of the canvas holds what a triangle recorded that
    contains it, for offsets of the two loops. *)
Definition painted_by (quads : list QuadData) (src_offset : F * F)
    (dst_width dst_height bboxes_max_width bboxes_max_height : Z)
    (r c : nat) (res : canvas) : Prop :=
  ∃ q i_offset j_offset,
    q ∈ quads
    ∧ 0 ≤ i_offset < bboxes_max_width ∧ 0 ≤ j_offset < bboxes_max_height
    ∧ ((covers_a q dst_width dst_height i_offset j_offset r c
        ∧ at2 res.1 r c = Some (recorded_a q src_offset i_offset j_offset).1
        ∧ at2 res.2 r c = Some (recorded_a q src_offset i_offset j_offset).2)
       ∨ (covers_b q dst_width dst_height i_offset j_offset r c
          ∧ at2 res.1 r c
            = Some (recorded_b q src_offset i_offset j_offset).1
          ∧ at2 res.2 r c
            = Some (recorded_b q src_offset i_offset j_offset).2)).

End Inverse.
Arguments pt4 F : clear implicits.
Arguments QuadData F : clear implicits.
Arguments canvas F : clear implicits.

(** ** Resampler *)

(** [a[r, c]] with integer indices. *)
Definition np_index2 {A} (a : arr2 A) (r c : Z) : res A :=
  row ← np_index a r;
  np_index row c.

Section Resampler.
Context {F : Type} `{FloatOps F}.

(** A stack of bands: an array of shape (bands, rows, columns). *)
Abbreviation stack := (list (arr2 F)) (only parsing).

Definition stack_rows (m : stack) : Z := Z.of_nat (nrows (default [] (head m))).
Definition stack_cols (m : stack) : Z := Z.of_nat (ncols (default [] (head m))).

(** The mask of one source tile at one destination pixel with inverse
    index [(bi, bj)]. *)
Definition tile_mask (src_tilesize : Z * Z) (tile_j tile_i : Z)
    (num_src_rows num_src_cols : Z) (bj bi : Z) : bool :=
  let shifted_j := bj - tile_j * src_tilesize.1 in
  let shifted_i := bi - tile_i * src_tilesize.2 in
  (np_floordiv bj src_tilesize.1 =? tile_j)
  && (np_floordiv bi src_tilesize.2 =? tile_i)
  && (0 <=? shifted_j) && (shifted_j <? num_src_rows)
  && (0 <=? shifted_i) && (shifted_i <? num_src_cols).

(** The destination pixels selected by the mask of a tile, row by row:
    the position written in the block and the position
    [(shifted_j, shifted_i)] read in the tile. *)
Definition masked_pixels (block_i block_j : arr2 Z) (src_tilesize : Z * Z)
    (tile_j tile_i num_src_rows num_src_cols : Z)
  : list (nat * nat * (Z * Z)) :=
  map (λ p : nat * nat * (Z * Z),
         (p.1, (p.2.1 - tile_j * src_tilesize.1,
                p.2.2 - tile_i * src_tilesize.2)))
    (filter (λ p : nat * nat * (Z * Z),
               Is_true (tile_mask src_tilesize tile_j tile_i
                          num_src_rows num_src_cols p.2.1 p.2.2))
       (cells (zip2 pair block_j block_i))).

(** [dst_data[:, tile_mask] = m[:, shifted_j[tile_mask], shifted_i[tile_mask]]]
    for one band: first all reads, then the writes into the float32
    array. *)
Definition gather_band (px : list (nat * nat * (Z * Z))) (m_band : arr2 F)
    (dst_band : arr2 F) : res (arr2 F) :=
  values ← traverse (λ p : nat * nat * (Z * Z),
                       np_index2 m_band p.2.1 p.2.2) px;
  Ok (foldl (λ d (pv : (nat * nat * (Z * Z)) * F),
               set2 d (Z.of_nat pv.1.1.1) (Z.of_nat pv.1.1.2)
                 (to_float32 pv.2))
        dst_band (zip px values)).

Fixpoint gather (px : list (nat * nat * (Z * Z))) (m : stack)
    (dst_data : stack) : res stack :=
  match m, dst_data with
  | [], [] => Ok []
  | mb :: m', db :: dst' =>
      b ← gather_band px mb db;
      rest ← gather px m' dst';
      Ok (b :: rest)
  | _, _ => Raise (ValueError "shape mismatch")
  end.

(** The body of the loop over the source tiles. *)
Definition rectify_tile (block_i block_j : arr2 Z) (src_tilesize : Z * Z)
    (num_blocks_i : Z) (dst_data : stack) (tm : Z * stack) : res stack :=
  let '(tile, tile_measurements) := tm in
  let num_src_rows := stack_rows tile_measurements in
  let num_src_cols := stack_cols tile_measurements in
  let tile_j := np_floordiv tile num_blocks_i in
  let tile_i := np_mod tile num_blocks_i in
  gather
    (masked_pixels block_i block_j src_tilesize tile_j tile_i
       num_src_rows num_src_cols)
    tile_measurements dst_data.

Fixpoint rectify_tiles (block_i block_j : arr2 Z) (src_tilesize : Z * Z)
    (num_blocks_i : Z) (dst_data : stack) (tms : list (Z * stack))
  : res stack :=
  match tms with
  | [] => Ok dst_data
  | tm :: rest =>
      d ← rectify_tile block_i block_j src_tilesize num_blocks_i dst_data tm;
      rectify_tiles block_i block_j src_tilesize num_blocks_i d rest
  end.

(** [rectify_tiles_to_block] *)
Definition rectify_tiles_to_block (block_i block_j : arr2 Z) (tx ty : Z)
    (src_tilesize : Z * Z) (num_blocks_i : Z) (tiles : list Z)
    (measurements : list stack) : res stack :=
  match measurements with
  | [] => Raise (IndexError "tuple index out of range")
  | m0 :: _ =>
      let num_measurements := length m0 in
      let dst_data :=
        replicate num_measurements (map2 (λ _ : Z, fnan) block_j) in
      rectify_tiles block_i block_j src_tilesize num_blocks_i dst_data
        (zip tiles measurements)
  end.
End Resampler.
Abbreviation stack F := (list (arr2 F)) (only parsing).

(** ** The pipeline: graph construction and evaluation *)

Section Pipeline.
Context {F : Type} `{FloatOps F}.

(** [d.shape] of a chunked array of rank 2, rows first. *)
Definition shape {A} (d : chunked A) : Z * Z :=
  (Z.of_nat (nrows (assemble d)), Z.of_nat (ncols (assemble d))).

(** [create_inverse_pixel_index] *)
Definition create_inverse_pixel_index (h : store F) (self : Rectifier F)
  : res (Rectifier F * arr2 (InverseNode F)) :=
  fwo ← getattr (forward_index self) "forward_index";
  fw ← match fwo with
       | Some fw => Ok fw
       | None => Raise (TypeError "map_blocks without an array")
       end;
  '(fi, fj) ← compute_forward h fw;
  '(_, g) ← deref h (dst_grid self) "width";
  bbox_blocks_raw ←
    traverse (traverse (λ b : Z * Z * (arr2 Z * arr2 Z),
                dst_bboxes_of_src_block b.2.1 b.2.2 g
                  (chunksize (src_lat self)) (shape (src_lat self))
                  (b.1.1, b.1.2)))
      (imap (λ bj brow,
               imap (λ bi b, (Z.of_nat bj, Z.of_nat bi, b)) brow)
         (zip2 pair fi fj));
  num_blocks_j ← ceil_div (height g) (tile_height g);
  num_blocks_i ← ceil_div (width g) (tile_width g);
  bboxes ← bbox_blocks bbox_blocks_raw num_blocks_j num_blocks_i;
  let lon := assemble (src_lon self) in
  let lat := assemble (src_lat self) in
  layer ←
    traverse (λ tj,
      traverse (λ ti,
        b ← box_at bboxes tj ti;
        let '(b0, b1, b2, b3) := b in
        tr ← getattr (trafo self) "trafo";
        tr ← match tr with
             | Some t => Ok t
             | None => Raise (AttributeError "transform")
             end;
        Ok {| inv_lon := map (py_slice b0 b2) (py_slice b1 b3 lon);
              inv_lat := map (py_slice b0 b2) (py_slice b1 b3 lat);
              inv_offset := (fadd (of_int b0) (lit 5 10),
                             fadd (of_int b1) (lit 5 10));
              inv_grid := dst_grid self;
              inv_trafo := tr;
              inv_block_id := (tj, ti) |})
        (py_range num_blocks_i))
      (py_range num_blocks_j);
  Ok ({| src_lon := src_lon self; src_lat := src_lat self;
         dst_grid := dst_grid self; name := name self;
         trafo := trafo self; forward_index := forward_index self;
         inverse_index := Val layer |}, layer).

(** [inverse_index.compute()] *)
Definition compute_inverse (h : store F) (layer : arr2 (InverseNode F))
  : res (arr2 (canvas F)) :=
  traverse (traverse (λ n,
    '(_, g) ← deref h (inv_grid n) "crs";
    inverse_index_of_dst_block_with_src_subset (inv_lon n) (inv_lat n)
      (inv_offset n) g (inv_trafo n) (inv_block_id n))) layer.

(** [np.around(block).astype(int)] with [-1] where the block is NaN *)
Definition to_index (x : F) : Z :=
  if fisnan x then -1 else astype_int (around_int x).

(** The tile numbers that occur in [block_tile]: the array of [n + 1]
    markers is set at every index of [block_tile], the last marker
    catches [-1]. *)
Definition tile_set_of (block_tile : arr2 Z) (n : Z) : res (list Z) :=
  let all_tile_numbers := py_range (n + 1) in
  let tile_array := replicate (Z.to_nat (n + 1)) (-1) in
  values ← traverse (np_index all_tile_numbers) (concat block_tile);
  let tile_array :=
    foldl (λ a v, <[Z.to_nat v := v]> a) tile_array values in
  last_number ← np_index all_tile_numbers (-1);
  Ok (filter (λ v, v ≠ -1 ∧ v ≠ last_number) tile_array).

(** [tile_measurements_of] *)
Definition tile_measurements_of (tiles : list Z)
    (measurements : list (chunked F)) : res (list (stack F)) :=
  m0 ← match measurements with
       | m0 :: _ => Ok m0
       | [] => Raise (IndexError "tuple index out of range")
       end;
  let num_tiles_i := Z.of_nat (ncols m0) in
  traverse (λ tile,
    let tile_i := np_mod tile num_tiles_i in
    let tile_j := np_floordiv tile num_tiles_i in
    traverse (λ m : chunked F, np_index2 m tile_j tile_i) measurements)
    tiles.

(** A node of the graph made by [rectify_nearest_neighbour]: the
    arguments of one call of [rectify_tiles_to_block]. *)
Record ResampleNode : Type := mkResampleNode {
  rn_block_i : arr2 Z;
  rn_block_j : arr2 Z;
  rn_tx : Z;
  rn_ty : Z;
  rn_tilesize : Z * Z;
  rn_num_blocks_i : Z;
  rn_tiles : list Z;
  rn_measurements : list (stack F);
}.

(** The body of the loop over the destination blocks. *)
Definition resample_node (block : canvas F) (tx ty : Z)
    (measurements : list (chunked F)) (m0 : chunked F)
    (num_tiles_row num_tiles_col : Z) : res ResampleNode :=
  let block_i := map2 to_index block.1 in
  let block_j := map2 to_index block.2 in
  let block_tile :=
    zip2 (λ bj bi,
            if (bj =? -1) || (bi =? -1) then -1
            else np_floordiv bj (chunksize m0).1 * num_tiles_col
                 + np_floordiv bi (chunksize m0).2)
      block_j block_i in
  tile_set ← tile_set_of block_tile (num_tiles_row * num_tiles_col);
  tile_measurements ← tile_measurements_of tile_set measurements;
  Ok {| rn_block_i := block_i; rn_block_j := block_j;
        rn_tx := tx; rn_ty := ty; rn_tilesize := chunksize m0;
        rn_num_blocks_i := num_tiles_col; rn_tiles := tile_set;
        rn_measurements := tile_measurements |}.

(** [rectify_nearest_neighbour]: the graph of the result. Block [(ty, tx)]
    of the computed inverse index is the slice the source cuts out of the
    assembled array. *)
Definition rectify_nearest_neighbour (h : store F) (self : Rectifier F)
    (measurements : list (chunked F)) : res (arr2 ResampleNode) :=
  match dst_grid self with
  | None =>
      Raise (ValueError
        "missing dst grid. Call create_covering_dst_grid() first.")
  | Some _ =>
      invo ← getattr (inverse_index self) "inverse_index";
      match invo with
      | None =>
          Raise (ValueError
            "missing inverse index. Call create_inverse_pixel_index() first.")
      | Some layer =>
          '(_, g) ← deref h (dst_grid self) "width";
          num_blocks_x ← ceil_div (width g) (tile_width g);
          num_blocks_y ← ceil_div (height g) (tile_height g);
          m0 ← match measurements with
               | m0 :: _ => Ok m0
               | [] => Raise (IndexError "tuple index out of range")
               end;
          num_tiles_col ← ceil_div (shape m0).2 (chunksize m0).2;
          num_tiles_row ← ceil_div (shape m0).1 (chunksize m0).1;
          inverse ← compute_inverse h layer;
          traverse (λ ty,
            traverse (λ tx,
              block ← np_index2 inverse ty tx;
              resample_node block tx ty measurements m0
                num_tiles_row num_tiles_col)
              (py_range num_blocks_x))
            (py_range num_blocks_y)
      end
  end.

(** [result.compute()] *)
Definition compute_rectified (graph : arr2 ResampleNode)
  : res (arr2 (stack F)) :=
  traverse (traverse (λ n,
    rectify_tiles_to_block (rn_block_i n) (rn_block_j n) (rn_tx n)
      (rn_ty n) (rn_tilesize n) (rn_num_blocks_i n) (rn_tiles n)
      (rn_measurements n))) graph.
End Pipeline.

(** ** Shapes *)

(** An array of [rows] rows of [cols] elements each. *)
Definition rectangular {A} (rows cols : Z) (a : arr2 A) : Prop :=
  Z.of_nat (length a) = rows ∧ Forall (λ row, Z.of_nat (length row) = cols) a.

(** A stack of [bands] bands that all have the shape the stack reports. *)
Definition well_shaped {F} (bands : nat) (m : stack F) : Prop :=
  length m = bands ∧ Forall (rectangular (stack_rows m) (stack_cols m)) m.

(** ** Extrema over the pixels of a block *)

(** [m] is the least (resp. greatest) value of [f] over the pixels that
    satisfy [P]. *)
Definition is_min_over (P : nat → nat → Prop) (f : nat → nat → Z) (m : Z)
  : Prop :=
  (∃ r c, P r c ∧ f r c = m) ∧ ∀ r c, P r c → m ≤ f r c.

Definition is_max_over (P : nat → nat → Prop) (f : nat → nat → Z) (m : Z)
  : Prop :=
  (∃ r c, P r c ∧ f r c = m) ∧ ∀ r c, P r c → f r c ≤ m.

(** The forward index of pixel [(r, c)] lies in the pixel range
    [[left, right) x [down, up)]. *)
Definition forward_within (fi fj : arr2 Z) (down up left right : Z)
    (r c : nat) : Prop :=
  ∃ i j, at2 fi r c = Some i ∧ at2 fj r c = Some j
         ∧ left ≤ i < right ∧ down ≤ j < up.

(** ** Boxes of the whole image *)

(** The box that stands for "no source pixel maps here". *)
Definition sentinel (src_size : Z * Z) : box :=
  (src_size.2, src_size.1, -1, -1).

(** A box whose bounds are positions of the source image or sentinel
    values. *)
Definition box_in_image (src_size : Z * Z) (b : box) : Prop :=
  b.1.1.1 ≤ src_size.2 ∧ b.1.1.2 ≤ src_size.1 ∧ -1 ≤ b.1.2 ∧ -1 ≤ b.2.

Definition is_least (P : Z → Prop) (m : Z) : Prop := P m ∧ ∀ x, P x → m ≤ x.
Definition is_greatest (P : Z → Prop) (m : Z) : Prop :=
  P m ∧ ∀ x, P x → x ≤ m.

(** A source block, given with its block id (row, column), lies inside the
    source image. *)
Definition block_in_image (src_tile_size src_size : Z * Z)
    (b : Z * Z * (arr2 Z * arr2 Z)) : Prop :=
  rectangular (Z.of_nat (nrows b.2.1)) (Z.of_nat (ncols b.2.1)) b.2.1
  ∧ (0 ≤ b.1.1 * src_tile_size.1
     ∧ b.1.1 * src_tile_size.1 + Z.of_nat (nrows b.2.1) ≤ src_size.1)
  ∧ (0 ≤ b.1.2 * src_tile_size.2
     ∧ b.1.2 * src_tile_size.2 + Z.of_nat (ncols b.2.1) ≤ src_size.2).

(** The global columns (resp. rows) of the pixels of a block whose forward
    index lies in the pixel range. *)
Definition block_cols (src_tile_size : Z * Z) (down up left right : Z)
    (b : Z * Z * (arr2 Z * arr2 Z)) (col : Z) : Prop :=
  ∃ r c, forward_within b.2.1 b.2.2 down up left right r c
         ∧ col = Z.of_nat c + b.1.2 * src_tile_size.2.

Definition block_rows (src_tile_size : Z * Z) (down up left right : Z)
    (b : Z * Z * (arr2 Z * arr2 Z)) (row : Z) : Prop :=
  ∃ r c, forward_within b.2.1 b.2.2 down up left right r c
         ∧ row = Z.of_nat r + b.1.1 * src_tile_size.1.

(** Source pixel [(row, col)], in coordinates of the whole image, belongs
    to one of the blocks and its forward index lies in the pixel range. *)
Definition image_within (blocks : list (Z * Z * (arr2 Z * arr2 Z)))
    (src_tile_size : Z * Z) (down up left right : Z) (row col : Z) : Prop :=
  ∃ b r c, b ∈ blocks
    ∧ forward_within b.2.1 b.2.2 down up left right r c
    ∧ row = Z.of_nat r + b.1.1 * src_tile_size.1
    ∧ col = Z.of_nat c + b.1.2 * src_tile_size.2.

(** An entry of a chunked integer array. *)
Definition entry_of (d : chunked Z) (i : Z) : Prop :=
  ∃ blk, blk ∈ concat d ∧ i ∈ concat blk.

(** ** Fixtures *)

(** The grid of the repository's tests:
    [Grid(pyproj.CRS(4326), (10.0, 54.0), (0.2, -0.125), (3, 3), (2, 2))]. *)
Definition test_grid : Grid B64.t :=
  mkGrid true (of_int 10) (of_int 54) (lit 2 10) (lit (-125) 1000) 3 3 2 2.

Definition identity_trafo {F} : Transformer F := λ x y, (x, y).

(** The source image of the repository's tests, 4 rows of 3 pixels in
    chunks [((3, 1), (2, 1))]; coordinates in hundredths of a degree. *)
Definition deg100 (n : Z) : B64.t := lit n 100.

Definition test_lat : chunked B64.t :=
  map (map (map (map deg100)))
    [[ [[5398; 5394]; [5388; 5384]; [5378; 5374]]; [[5390]; [5380]; [5370]] ];
     [ [[5368; 5364]]; [[5360]] ]].

Definition test_lon : chunked B64.t :=
  map (map (map (map deg100)))
    [[ [[1035; 1050]; [1025; 1040]; [1015; 1030]]; [[1065]; [1055]; [1045]] ];
     [ [[1005; 1020]]; [[1035]] ]].

(** A measurement on the tiling of the test image: the pixels numbered
    row by row. *)
Definition test_measurement : chunked B64.t :=
  map (map (map (map of_int)))
    [[ [[1; 2]; [4; 5]; [7; 8]]; [[3]; [6]; [9]] ];
     [ [[10; 11]]; [[12]] ]].

(** A source image of 2 x 2 pixels, one chunk, whose pixel centres are the
    centres of the pixels of a 2 x 2 grid of origin (0, 0) and
    resolution (1, 1). *)
Definition aligned_grid : Grid B64.t :=
  mkGrid true (of_int 0) (of_int 0) (of_int 1) (of_int 1) 2 2 2 2.

Definition aligned_lon : chunked B64.t :=
  [[ [[lit 5 10; lit 15 10]; [lit 5 10; lit 15 10]] ]].

Definition aligned_lat : chunked B64.t :=
  [[ [[lit 5 10; lit 5 10]; [lit 15 10; lit 15 10]] ]].

Definition aligned_measurement : chunked B64.t :=
  [[ [[of_int 1; of_int 2]; [of_int 3; of_int 4]] ]].

(** The calling sequence of the class documentation with a given grid:
    construct, create the forward index, create the inverse index (and
    compute it), rectify (and compute the result). *)
Definition inverse_pipeline {F : Type} `{FloatOps F} (from_crs : Transformer F)
    (g : Grid F) (lon lat : chunked F) : res (arr2 (canvas F)) :=
  let h := [g] in
  let rectifier := init lon lat (Some 0%nat) "rectify" in
  '(rectifier, _) ← create_forward_pixel_index from_crs h rectifier;
  '(rectifier, layer) ← create_inverse_pixel_index h rectifier;
  compute_inverse h layer.

Definition rectify_pipeline {F : Type} `{FloatOps F} (from_crs : Transformer F)
    (g : Grid F) (lon lat : chunked F) (measurements : list (chunked F))
  : res (arr2 (stack F)) :=
  let h := [g] in
  let rectifier := init lon lat (Some 0%nat) "rectify" in
  '(rectifier, _) ← create_forward_pixel_index from_crs h rectifier;
  '(rectifier, _) ← create_inverse_pixel_index h rectifier;
  graph ← rectify_nearest_neighbour h rectifier measurements;
  compute_rectified graph.

(** A source subset of 2 x 2 pixels whose first three pixels lie on one
    line of a 3 x 2 grid of one tile: triangle A of its quad is degenerate,
    triangle B is not. *)
Definition collinear_lon : arr2 B64.t :=
  [[lit 5 10; lit 15 10]; [lit 25 10; lit 15 10]].

Definition collinear_lat : arr2 B64.t :=
  [[lit 5 10; lit 5 10]; [lit 5 10; lit 15 10]].

Definition collinear_grid : Grid B64.t :=
  mkGrid true (of_int 0) (of_int 0) (of_int 1) (of_int 1) 3 2 3 2.

(** A grid and a coordinate on the boundary of its column 3: the
    resolution is the double nearest to 0.7, the origin is [-2^-52] and the
    coordinate is the double [3 * 0.7], which is the origin plus three times
    the resolution exactly. *)
Definition boundary_x_res : B64.t := lit 7 10.

Definition boundary_x_min : B64.t :=
  S754_finite true 4503599627370496 (-104).

Definition boundary_x : B64.t := fmul (of_int 3) boundary_x_res.

Definition boundary_grid : Grid B64.t :=
  mkGrid true boundary_x_min (of_int 0) boundary_x_res (of_int 1)
    4 1 4 1.

(** * Properties *)

(** ** Arrays and casts *)

(** Stdlib's [map] is stdpp's [fmap] on lists. *)
Lemma map_fmap {A B} (f : A → B) (l : list A) : map f l = f <$> l.
Proof. reflexivity. Qed.

Lemma at2_map2 {A B} (f : A → B) (a : arr2 A) (r c : nat) :
  at2 (map2 f a) r c = f <$> at2 a r c.
Proof.
  unfold at2, map2. rewrite map_fmap, list_lookup_fmap.
  destruct (a !! r) as [row|]; simpl; [|done].
  by rewrite map_fmap, list_lookup_fmap.
Qed.

Lemma at2_zip2 {A B C} (f : A → B → C) (a : arr2 A) (b : arr2 B)
    (r c : nat) (x : A) (y : B) :
  at2 a r c = Some x → at2 b r c = Some y →
  at2 (zip2 f a b) r c = Some (f x y).
Proof.
  unfold at2, zip2. intros Ha Hb.
  destruct (a !! r) as [ra|] eqn:Era; simpl in Ha; [|done].
  destruct (b !! r) as [rb|] eqn:Erb; simpl in Hb; [|done].
  rewrite lookup_zip_with, Era. simpl. rewrite Erb. simpl.
  rewrite lookup_zip_with, Ha. simpl. by rewrite Hb.
Qed.

Lemma astype_int_in_range (z : Z) :
  in_int64 z = true → astype_int (Some z) = z.
Proof. unfold astype_int. by intros ->. Qed.

Lemma in_int64_spec (z : Z) :
  in_int64 z = true ↔ - 2 ^ 63 ≤ z ≤ 2 ^ 63 - 1.
Proof. unfold in_int64, int64_min, int64_max. lia. Qed.

(** ** Forward index *)

(** The entry of the forward index at a pixel. *)
Lemma block_dst_pixels_lookup {F : Type} `{FloatOps F}
    (src_lon src_lat : arr2 F) (trafo : Transformer F) (g : Grid F)
    (r c : nat) (lon lat : F) :
  at2 src_lon r c = Some lon → at2 src_lat r c = Some lat →
  let xy := if is_geographic g then (lon, lat) else trafo lon lat in
  let fwd := block_dst_pixels_of_src_block src_lon src_lat trafo g in
  at2 fwd.1 r c = Some (quantize (x_min g) (x_res g) xy.1)
  ∧ at2 fwd.2 r c = Some (quantize (y_min g) (y_res g) xy.2).
Proof.
  intros Hlon Hlat xy fwd. subst fwd xy.
  unfold block_dst_pixels_of_src_block.
  destruct (is_geographic g); simpl.
  - rewrite !at2_map2, Hlon, Hlat. done.
  - unfold transform. rewrite !at2_map2.
    rewrite (at2_zip2 _ _ _ _ _ _ _ Hlon Hlat).
    rewrite (at2_zip2 _ _ _ _ _ _ _ Hlon Hlat). done.
Qed.



(** ** Rounding in binary64 *)

Lemma digits2_pos_size (p : positive) : digits2_pos p = Pos.size p.
Proof. induction p as [p IH|p IH|]; simpl; by rewrite ?IH. Qed.

(** A positive number of [d] binary digits lies in [[2^(d-1), 2^d)]. *)
Lemma Zdigits2_bounds (p : positive) :
  2 ^ (Zdigits2 (Z.pos p) - 1) ≤ Z.pos p < 2 ^ Zdigits2 (Z.pos p).
Proof.
  simpl. rewrite digits2_pos_size.
  pose proof (Pos.size_gt p) as Hgt. pose proof (Pos.size_le p) as Hle.
  assert (Hpow : ∀ q, Z.pos (2 ^ q) = 2 ^ Z.pos q).
  { intros q. by rewrite Pos2Z.inj_pow. }
  split.
  - assert (H2 : 2 ^ Z.pos (Pos.size p) ≤ 2 * Z.pos p).
    { rewrite <- Hpow. change (2 * Z.pos p) with (Z.pos p~0). lia. }
    replace (Z.pos (Pos.size p)) with (Z.pos (Pos.size p) - 1 + 1) in H2
      by lia.
    rewrite Z.pow_add_r in H2 by lia. lia.
  - rewrite <- Hpow. lia.
Qed.

Lemma Zdigits2_pos (p : positive) : 0 < Zdigits2 (Z.pos p).
Proof. simpl. lia. Qed.

(** The number of digits is determined by the binade. *)
Lemma Zdigits2_unique (m d : Z) :
  0 < m → 2 ^ (d - 1) ≤ m < 2 ^ d → 0 < d → Zdigits2 m = d.
Proof.
  intros Hm Hd Hpos. destruct m as [|p|p]; try lia.
  pose proof (Zdigits2_bounds p) as Hb. pose proof (Zdigits2_pos p) as Hp.
  set (d' := Zdigits2 (Z.pos p)) in *.
  destruct (Z.lt_trichotomy d' d) as [Hlt|[Heq|Hgt]]; [|done|].
  - assert (2 ^ d' ≤ 2 ^ (d - 1)) by (apply Z.pow_le_mono_r; lia). lia.
  - assert (2 ^ d ≤ 2 ^ (d' - 1)) by (apply Z.pow_le_mono_r; lia). lia.
Qed.

Lemma iter_pos_nat {A} (f : A → A) (p : positive) (x : A) :
  SpecFloat.iter_pos f p x = Nat.iter (Pos.to_nat p) f x.
Proof.
  revert x. induction p as [p IH|p IH|]; intros x.
  - cbn [SpecFloat.iter_pos]. rewrite !IH. rewrite Pos2Nat.inj_xI.
    replace (S (2 * Pos.to_nat p)) with (Pos.to_nat p + (Pos.to_nat p + 1))%nat
      by lia.
    rewrite !Nat.iter_add. simpl. reflexivity.
  - cbn [SpecFloat.iter_pos]. rewrite !IH. rewrite Pos2Nat.inj_xO.
    replace (2 * Pos.to_nat p)%nat with (Pos.to_nat p + Pos.to_nat p)%nat
      by lia.
    by rewrite Nat.iter_add.
  - reflexivity.
Qed.

Lemma shr_1_m (mrs : shr_record) :
  0 ≤ shr_m mrs → shr_m (shr_1 mrs) = shr_m mrs / 2.
Proof.
  destruct mrs as [m r s]. cbn [shr_m]. intros Hm.
  destruct m as [|[p|p|]|p]; cbn [shr_1 shr_m]; try lia.
  - reflexivity.
  - apply Z.div_unique with 1; lia.
  - apply Z.div_unique with 0; lia.
  - reflexivity.
Qed.

Lemma shr_iter_m (n : nat) (mrs : shr_record) :
  0 ≤ shr_m mrs →
  shr_m (Nat.iter n shr_1 mrs) = shr_m mrs / 2 ^ Z.of_nat n.
Proof.
  intros Hm. induction n as [|n IH].
  - simpl. by rewrite Z.div_1_r.
  - rewrite Nat.iter_succ, shr_1_m.
    + rewrite IH. rewrite Nat2Z.inj_succ, Z.pow_succ_r by lia.
      rewrite Z.div_div by lia. f_equal. lia.
    + rewrite IH. apply Z.div_pos; lia.
Qed.

(** [shr] shifts the mantissa right by [n] digits. *)
Lemma shr_m_spec (mrs : shr_record) (e n : Z) :
  0 ≤ shr_m mrs →
  shr_m (shr mrs e n).1 = shr_m mrs / 2 ^ Z.max n 0
  ∧ (shr mrs e n).2 = e + Z.max n 0.
Proof.
  intros Hm. destruct n as [|p|p]; simpl.
  - rewrite Z.div_1_r. split; [done|lia].
  - rewrite iter_pos_nat, shr_iter_m by done.
    rewrite positive_nat_Z. split; [done|lia].
  - rewrite Z.div_1_r. split; [done|lia].
Qed.

Lemma shr_record_of_loc_m (m : Z) (l : location) :
  shr_m (shr_record_of_loc m l) = m.
Proof. by destruct l as [|[| |]]. Qed.

Lemma round_nearest_even_cases (m : Z) (l : location) :
  round_nearest_even m l = m ∨ round_nearest_even m l = m + 1.
Proof. destruct l as [|[| |]]; simpl; try destruct (Z.even m); auto. Qed.

Lemma fexp64 (e : Z) : fexp 53 1024 e = Z.max (e - 53) (- 1074).
Proof. reflexivity. Qed.

Lemma Zdigits2_nonneg (m : Z) : 0 ≤ Zdigits2 m.
Proof. destruct m; simpl; lia. Qed.

Lemma Zdigits2_shift (m n : Z) :
  0 < m → 0 ≤ n → 2 ^ n ≤ m → Zdigits2 (m / 2 ^ n) = Zdigits2 m - n.
Proof.
  intros Hm Hn Hle. destruct m as [|p|p]; try lia.
  pose proof (Zdigits2_bounds p) as Hb. pose proof (Zdigits2_pos p) as Hp.
  set (d := Zdigits2 (Z.pos p)) in *.
  assert (Hnd : n < d).
  { destruct (Z.le_gt_cases d n) as [Hdn|]; [|done].
    assert (2 ^ d ≤ 2 ^ n) by (apply Z.pow_le_mono_r; lia). lia. }
  assert (H2n : 0 < 2 ^ n) by (apply Z.pow_pos_nonneg; lia).
  apply Zdigits2_unique.
  - apply Z.div_str_pos. lia.
  - split.
    + apply Z.div_le_lower_bound; [lia|].
      rewrite <- Z.pow_add_r by lia. replace (n + (d - n - 1)) with (d - 1) by lia.
      lia.
    + apply Z.div_lt_upper_bound; [lia|].
      rewrite <- Z.pow_add_r by lia. replace (n + (d - n)) with d by lia. lia.
  - lia.
Qed.

Lemma Zdigits2_succ (m : Z) :
  0 < m →
  Zdigits2 (m + 1) = Zdigits2 m
  ∨ (m + 1 = 2 ^ Zdigits2 m ∧ Zdigits2 (m + 1) = Zdigits2 m + 1).
Proof.
  intros Hm. destruct m as [|p|p]; try lia.
  pose proof (Zdigits2_bounds p) as Hb. pose proof (Zdigits2_pos p) as Hp.
  set (d := Zdigits2 (Z.pos p)) in *.
  destruct (Z.eq_dec (Z.pos p + 1) (2 ^ d)) as [Heq|Hne].
  - right. split; [done|]. apply Zdigits2_unique; [lia| |lia].
    replace (d + 1 - 1) with d by lia. rewrite Z.pow_add_r by lia. lia.
  - left. apply Zdigits2_unique; lia.
Qed.

(** The first shift of [binary_round_aux]. *)
Lemma shr_fexp_m (m e : Z) (l : location) :
  0 ≤ m →
  let n := Z.max (fexp 53 1024 (Zdigits2 m + e) - e) 0 in
  shr_m (shr_fexp 53 1024 m e l).1 = m / 2 ^ n
  ∧ (shr_fexp 53 1024 m e l).2 = e + n
  ∧ (n = 0 → (shr_fexp 53 1024 m e l).1 = shr_record_of_loc m l).
Proof.
  intros Hm n. unfold shr_fexp.
  destruct (shr_m_spec (shr_record_of_loc m l) e
              (fexp 53 1024 (Zdigits2 m + e) - e)) as [H1 H2].
  { by rewrite shr_record_of_loc_m. }
  rewrite shr_record_of_loc_m in H1. fold n in H1, H2.
  split; [done|]. split; [done|].
  intros Hn. unfold shr.
  destruct (fexp 53 1024 (Zdigits2 m + e) - e) as [|p|p] eqn:E;
    try reflexivity.
  subst n. lia.
Qed.

(** An exact mantissa that needs at most a shift by one even digit. *)
Lemma shr_fexp_exact (m e : Z) :
  0 ≤ m →
  fexp 53 1024 (Zdigits2 m + e) ≤ e
  ∨ (fexp 53 1024 (Zdigits2 m + e) = e + 1 ∧ Z.even m = true) →
  ∃ m' e', shr_m (shr_fexp 53 1024 m e loc_Exact).1 = m'
           ∧ (shr_fexp 53 1024 m e loc_Exact).2 = e'
           ∧ e ≤ e' ≤ e + 1 ∧ m' * 2 ^ (e' - e) = m.
Proof.
  intros Hm Hcase.
  destruct (shr_fexp_m m e loc_Exact Hm) as (H1 & H2 & _).
  eexists _, _. split; [reflexivity|]. split; [reflexivity|].
  rewrite H1, H2. destruct Hcase as [Hle|[Heq Hev]].
  - replace (Z.max (fexp 53 1024 (Zdigits2 m + e) - e) 0) with 0 by lia.
    rewrite Z.add_0_r, Z.sub_diag, Z.div_1_r. simpl. lia.
  - rewrite Heq. replace (Z.max (e + 1 - e) 0) with 1 by lia.
    replace (e + 1 - e) with 1 by lia. split; [lia|].
    apply Zeven_bool_iff in Hev. destruct (Zeven_ex m Hev) as [k ->].
    change (2 ^ 1) with 2.
    replace (2 * k / 2) with k by (apply Z.div_unique with 0; lia). lia.
Qed.

Lemma pow2_even (d : Z) : 0 < d → Z.even (2 ^ d) = true.
Proof.
  intros Hd. replace d with (1 + (d - 1)) by lia.
  rewrite Z.pow_add_r by lia. by rewrite Z.even_mul.
Qed.

(** The result of [binary_round_aux] on a positive mantissa: the mantissa
    is cut to the exponent [E] that the format gives to its magnitude and
    is kept or moved up by one unit; what comes out encodes that value. *)
Lemma binary_round_aux_spec (sx : bool) (mx ex : Z) (lx : location) :
  0 < mx →
  let n := Z.max (fexp 53 1024 (Zdigits2 mx + ex) - ex) 0 in
  let M := mx / 2 ^ n in
  let E := ex + n in
  ∃ m1 m2 e2,
    (m1 = M ∨ m1 = M + 1)
    ∧ (n = 0 → lx = loc_Exact → m1 = M)
    ∧ E ≤ e2 ≤ E + 1 ∧ m2 * 2 ^ (e2 - E) = m1 ∧ 0 ≤ m2
    ∧ binary_round_aux 53 1024 sx mx ex lx
      = match m2 with
        | Z0 => S754_zero sx
        | Zpos p => if e2 <=? 971 then S754_finite sx p e2
                    else S754_infinity sx
        | Zneg _ => S754_nan
        end.
Proof.
  intros Hmx n M E. unfold binary_round_aux.
  destruct (shr_fexp_m mx ex lx) as (H1 & H2 & H3); [lia|].
  fold n in H1, H2, H3. fold M in H1. fold E in H2.
  destruct (shr_fexp 53 1024 mx ex lx) as [mrs' e'] eqn:Es.
  cbn [fst snd] in H1, H2, H3. subst e'.
  set (m1 := round_nearest_even (shr_m mrs') (loc_of_shr_record mrs')).
  assert (H2n : 0 < 2 ^ n) by (apply Z.pow_pos_nonneg; lia).
  assert (HM : 0 ≤ M) by (apply Z.div_pos; lia).
  assert (Hm1 : m1 = M ∨ m1 = M + 1).
  { subst m1. rewrite <- H1. apply round_nearest_even_cases. }
  assert (Hex : n = 0 → lx = loc_Exact → m1 = M).
  { intros Hn ->. subst m1. rewrite (H3 Hn). simpl. rewrite <- H1.
    by rewrite (H3 Hn). }
  (* the exponent of the format at the magnitude of the input *)
  assert (HE : fexp 53 1024 (Zdigits2 mx + ex) ≤ E) by lia.
  assert (Hsecond : fexp 53 1024 (Zdigits2 m1 + E) ≤ E
                    ∨ (fexp 53 1024 (Zdigits2 m1 + E) = E + 1
                       ∧ Z.even m1 = true)).
  { destruct (Z.eq_dec M 0) as [HM0|HM0].
    - (* the mantissa was shifted out *)
      assert (Hn : 0 < n).
      { destruct (Z.eq_dec n 0) as [Hn0|]; [|lia].
        unfold M in HM0. rewrite Hn0, Z.div_1_r in HM0. lia. }
      left. rewrite fexp64 in *.
      destruct Hm1 as [-> | ->]; rewrite HM0; simpl; lia.
    - assert (Hle : 2 ^ n ≤ mx).
      { destruct (Z.le_gt_cases (2 ^ n) mx) as [|Hlt]; [done|].
        unfold M in HM0. rewrite Z.div_small in HM0 by lia. done. }
      assert (HdM : Zdigits2 M + E = Zdigits2 mx + ex).
      { unfold M. rewrite Zdigits2_shift by lia. lia. }
      destruct Hm1 as [-> | ->].
      + left. rewrite HdM. lia.
      + destruct (Zdigits2_succ M) as [Hd|[Hp Hd]]; [lia| |].
        * left. rewrite Hd, HdM. lia.
        * rewrite Hd.
          destruct (Z.le_gt_cases (fexp 53 1024 (Zdigits2 M + 1 + E)) E)
            as [Hc|Hc]; [by left|right].
          split.
          -- rewrite fexp64 in *. lia.
          -- rewrite Hp. apply pow2_even.
             pose proof (Zdigits2_nonneg M).
             destruct (Z.eq_dec (Zdigits2 M) 0) as [H0|]; [|lia].
             destruct M as [|p|p]; simpl in H0; lia. }
  assert (Hm1pos : 0 ≤ m1) by lia.
  destruct (shr_fexp_exact m1 E Hm1pos Hsecond)
    as (m2 & e2 & Hm2 & He2 & Hle & Hval).
  destruct (shr_fexp 53 1024 m1 E loc_Exact) as [mrs'' e''] eqn:Es2.
  cbn [fst snd] in Hm2, He2. subst e''. rewrite Hm2.
  exists m1, m2, e2. split; [done|]. split; [done|]. split; [done|].
  split; [done|].
  assert (H2e : 0 < 2 ^ (e2 - E)) by (apply Z.pow_pos_nonneg; lia).
  split; [nia|].
  destruct m2 as [|p|p]; try reflexivity.
Qed.

Lemma pow2_add (a b : Z) : (pow2 (a + b) == pow2 a * pow2 b)%Q.
Proof. unfold pow2. apply Qpower_plus. discriminate. Qed.

Lemma pow2_pos (a : Z) : (0 < pow2 a)%Q.
Proof. unfold pow2. by apply Qpower_0_lt. Qed.

Lemma pow2_Z (a : Z) : 0 ≤ a → (pow2 a == inject_Z (2 ^ a))%Q.
Proof. intros Ha. unfold pow2. by rewrite Zpower_Qpower. Qed.

Lemma pow2_lt_inv (a b : Z) : (pow2 a < pow2 b)%Q → a < b.
Proof. unfold pow2. intros Hab. by apply (Qpower_lt_compat_l_inv 2). Qed.

Lemma pow2_opp (a : Z) : (pow2 (- a) == / pow2 a)%Q.
Proof. unfold pow2. apply Qpower_opp. Qed.

(** An integer times a power of two whose exponent is not negative. *)
Lemma inject_Z_pw (m a : Z) :
  0 ≤ a → (inject_Z (m * 2 ^ a) == inject_Z m * pow2 a)%Q.
Proof. intros Ha. rewrite inject_Z_mult, pow2_Z by done. reflexivity. Qed.

Lemma value_finite (s : bool) (m : positive) (e : Z) :
  ∃ q, B64.value (S754_finite s m e) = Some q
       ∧ (q == sgn s * inject_Z (Z.pos m) * pow2 e)%Q.
Proof.
  unfold B64.value, B64.frac_of.
  destruct (0 <=? e) eqn:E; eexists; (split; [reflexivity|]).
  - apply Z.leb_le in E. change (Z.to_pos 1) with 1%positive.
    assert (Hq : ∀ z, (z # 1 == inject_Z z)%Q) by reflexivity.
    rewrite Hq, inject_Z_pw by done.
    destruct s; unfold sgn.
    + change (Z.neg m) with (- Z.pos m). rewrite inject_Z_opp. ring.
    + ring.
  - apply Z.leb_gt in E.
    assert (H2 : 0 < 2 ^ (- e)) by (apply Z.pow_pos_nonneg; lia).
    rewrite (Qmake_Qdiv _ (Z.to_pos (2 ^ (- e)))).
    rewrite Z2Pos.id by done.
    replace e with (- - e) at 2 by lia. rewrite pow2_opp, pow2_Z by lia.
    destruct s; unfold sgn.
    + change (Z.neg m) with (- Z.pos m). rewrite inject_Z_opp.
      field. intros Hz. rewrite <- pow2_Z in Hz by lia.
      pose proof (pow2_pos (- e)). lra.
    + field. intros Hz. rewrite <- pow2_Z in Hz by lia.
      pose proof (pow2_pos (- e)). lra.
Qed.

Lemma value_zero (s : bool) : B64.value (S754_zero s) = Some (0 # 1)%Q.
Proof. reflexivity. Qed.

Lemma near_refl (q v : Q) : (q == v)%Q → near q v.
Proof.
  intros Hq. exists 0%Q. pose proof (pow2_pos (- 52)). unfold eps64.
  split; [lra|]. rewrite Hq. ring.
Qed.

Lemma near_comp (q q' v v' : Q) :
  (q == q')%Q → (v == v')%Q → near q' v' → near q v.
Proof.
  intros Hq Hv (δ & Hδ & Heq). exists δ. split; [done|].
  by rewrite Hq, Hv.
Qed.

(** From an absolute error bound to a relative one. *)
Lemma near_of_bounds (R V e : Q) (s : Q) :
  (0 < V)%Q → (- e <= R - V <= e)%Q → (e <= eps64 * V)%Q →
  near (s * R) (s * V).
Proof.
  intros HV Herr He. exists ((R - V) / V)%Q.
  pose proof (pow2_pos (- 52)) as Hp. fold eps64 in Hp.
  split; [split|].
  - apply Qle_shift_div_l; [done|]. lra.
  - apply Qle_shift_div_r; [done|]. lra.
  - field. lra.
Qed.

(** The value that [binary_round_aux] returns for a positive mantissa
    whose exponent is at most the one the format gives it, below the
    overflow threshold: the true magnitude [V], which lies between the
    mantissa and its successor, up to one relative error; exactly [V] when
    no digit is dropped. *)
Lemma round_aux_near (sx : bool) (mx ex : Z) (lx : location) (V : Q) :
  0 < mx →
  let D := Zdigits2 mx + ex in
  ex ≤ fexp 53 1024 D → D ≤ 1023 →
  (fexp 53 1024 D = ex ∧ lx = loc_Exact) ∨ - 1074 < D - 53 →
  (inject_Z mx * pow2 ex <= V)%Q → (V < inject_Z (mx + 1) * pow2 ex)%Q →
  (lx = loc_Exact → V == inject_Z mx * pow2 ex)%Q →
  ∃ q, B64.value (binary_round_aux 53 1024 sx mx ex lx) = Some q
       ∧ near q (sgn sx * V).
Proof.
  intros Hmx D Hex HD Hcase Hlo Hhi Hexact.
  destruct (binary_round_aux_spec sx mx ex lx Hmx)
    as (m1 & m2 & e2 & Hm1 & Hm1x & He2 & Hval & Hm2 & Hres).
  fold D in Hm1, Hm1x, He2, Hval.
  set (n := Z.max (fexp 53 1024 D - ex) 0) in *.
  set (M := mx / 2 ^ n) in *. set (E := ex + n) in *.
  assert (Hn : n = fexp 53 1024 D - ex) by lia.
  assert (HE : E = fexp 53 1024 D) by lia.
  assert (H2n : 0 < 2 ^ n) by (apply Z.pow_pos_nonneg; lia).
  assert (HMlo : M * 2 ^ n ≤ mx).
  { unfold M. rewrite Z.mul_comm. apply Z.mul_div_le. lia. }
  assert (HMhi : mx < (M + 1) * 2 ^ n).
  { unfold M. pose proof (Z.mod_pos_bound mx (2 ^ n) H2n).
    pose proof (Z.div_mod mx (2 ^ n)). lia. }
  pose proof (pow2_pos ex) as Hpex. pose proof (pow2_pos E) as HpE.
  assert (HpwE : (pow2 E == inject_Z (2 ^ n) * pow2 ex)%Q).
  { unfold E. rewrite Z.add_comm, pow2_add, pow2_Z by lia. reflexivity. }
  (* the mantissa that comes out is positive *)
  assert (HMpos : 0 < m1).
  { destruct Hcase as [[Hc Hl]|Hnorm].
    - assert (n = 0) as Hn0 by lia. rewrite (Hm1x Hn0 Hl).
      unfold M. rewrite Hn0, Z.div_1_r. done.
    - assert (0 < M); [|lia].
      destruct mx as [|p|p]; try lia.
      pose proof (Zdigits2_bounds p) as Hb.
      assert (Hnd : n = Zdigits2 (Z.pos p) - 53).
      { rewrite Hn, fexp64. unfold D in *. rewrite fexp64 in Hex. lia. }
      unfold M. apply Z.div_str_pos. split; [done|].
      assert (2 ^ n ≤ 2 ^ (Zdigits2 (Z.pos p) - 1))
        by (apply Z.pow_le_mono_r; lia).
      lia. }
  assert (He971 : e2 ≤ 971).
  { rewrite HE, fexp64 in He2. lia. }
  destruct m2 as [|p|p]; [|clear Hm2|lia].
  { rewrite Z.mul_0_l in Hval. lia. }
  destruct (e2 <=? 971) eqn:Ee; [|apply Z.leb_gt in Ee; lia].
  rewrite Hres.
  destruct (value_finite sx p e2) as (q & Hq & Hqv).
  exists q. split; [done|].
  (* the value is [m1 * 2^E] *)
  assert (HR : (q == sgn sx * (inject_Z m1 * pow2 E))%Q).
  { rewrite Hqv. rewrite <- Hval.
    replace e2 with (E + (e2 - E)) at 1 by lia.
    rewrite pow2_add, inject_Z_pw by lia. ring. }
  destruct Hcase as [[Hc Hl]|Hnorm].
  - (* nothing is dropped *)
    assert (n = 0) as Hn0 by lia.
    apply near_refl. rewrite HR, (Hm1x Hn0 Hl), (Hexact Hl).
    unfold M, E. rewrite Hn0, Z.div_1_r, Z.add_0_r. reflexivity.
  - (* one unit of the last place *)
    assert (HVpos : (0 < V)%Q).
    { assert (0 < inject_Z mx)%Q by (rewrite <- (Zlt_Qlt 0); lia).
      assert (0 < inject_Z mx * pow2 ex)%Q by (by apply Qmult_lt_0_compat).
      lra. }
    assert (HbM : (inject_Z M * pow2 E <= V)%Q).
    { rewrite HpwE. rewrite Zle_Qle in HMlo. rewrite inject_Z_mult in HMlo.
      nra. }
    assert (HbM1 : (V <= inject_Z (M + 1) * pow2 E)%Q).
    { rewrite HpwE.
      assert (Hz : mx + 1 ≤ (M + 1) * 2 ^ n) by lia.
      rewrite Zle_Qle in Hz. rewrite inject_Z_mult in Hz. nra. }
    assert (Hulp : (pow2 E <= eps64 * V)%Q).
    { assert (Hd : (pow2 (E + 52) <= V)%Q).
      { destruct mx as [|pm|pm]; try lia.
        pose proof (Zdigits2_bounds pm) as Hb.
        assert (HE52 : E + 52 = (Zdigits2 (Z.pos pm) - 1) + ex).
        { rewrite HE, fexp64. unfold D in *. lia. }
        rewrite HE52, pow2_add, pow2_Z by (pose proof (Zdigits2_pos pm); lia).
        destruct Hb as [Hb _]. rewrite Zle_Qle in Hb. nra. }
      unfold eps64. rewrite pow2_add in Hd.
      assert (Hinv : (pow2 52 * pow2 (- 52) == 1)%Q).
      { rewrite <- pow2_add. reflexivity. }
      pose proof (pow2_pos 52). pose proof (pow2_pos (- 52)). nra. }
    apply (near_comp _ _ _ _ HR (Qeq_refl _)).
    apply (near_of_bounds _ _ (pow2 E)); [done| |done].
    rewrite inject_Z_plus in HbM1. change (inject_Z 1) with 1%Q in HbM1.
    destruct Hm1 as [-> | ->];
      [|rewrite inject_Z_plus; change (inject_Z 1) with 1%Q]; lra.
Qed.

Lemma pos_iter_xO (m d : positive) :
  Z.pos (Pos.iter xO m d) = Z.pos m * 2 ^ Z.pos d.
Proof.
  induction d as [|d IH] using Pos.peano_ind.
  - simpl. lia.
  - rewrite Pos.iter_succ, Pos2Z.inj_xO, IH, Pos2Z.inj_succ.
    rewrite Z.pow_succ_r by lia. lia.
Qed.

(** [shl_align] moves the exponent down to [e'] when it is above. *)
Lemma shl_align_spec (m : positive) (e e' : Z) :
  (shl_align m e e').2 = Z.min e e'
  ∧ Z.pos (shl_align m e e').1 = Z.pos m * 2 ^ (e - Z.min e e').
Proof.
  unfold shl_align. destruct (e' - e) as [|d|d] eqn:Ed; cbn [fst snd].
  - replace (Z.min e e') with e by lia. rewrite Z.sub_diag. simpl. lia.
  - replace (Z.min e e') with e by lia. rewrite Z.sub_diag. simpl. lia.
  - replace (Z.min e e') with e' by lia. split; [done|].
    rewrite pos_iter_xO. f_equal. f_equal. lia.
Qed.

Lemma Zdigits2_mul_pow2 (m : positive) (k : Z) :
  0 ≤ k → Zdigits2 (Z.pos m * 2 ^ k) = Zdigits2 (Z.pos m) + k.
Proof.
  intros Hk. pose proof (Zdigits2_bounds m) as Hb.
  pose proof (Zdigits2_pos m) as Hp.
  assert (H2k : 0 < 2 ^ k) by (apply Z.pow_pos_nonneg; lia).
  apply Zdigits2_unique; [nia| |lia].
  replace (Zdigits2 (Z.pos m) + k - 1) with (Zdigits2 (Z.pos m) - 1 + k)
    by lia.
  rewrite !Z.pow_add_r by lia. nia.
Qed.

(** [binary_round] of an integer mantissa and an exponent not below the
    least one of the format: the magnitude up to one relative error. *)
Lemma binary_round_near (s : bool) (p : positive) (e : Z) :
  - 1074 ≤ e → Zdigits2 (Z.pos p) + e ≤ 1023 →
  ∃ q, B64.value (binary_round 53 1024 s p e) = Some q
       ∧ near q (sgn s * (inject_Z (Z.pos p) * pow2 e)).
Proof.
  intros He HD. unfold binary_round.
  change (Z.pos (digits2_pos p)) with (Zdigits2 (Z.pos p)).
  set (D := Zdigits2 (Z.pos p) + e) in *.
  destruct (shl_align_spec p e (fexp 53 1024 D)) as [He' Hm'].
  destruct (shl_align p e (fexp 53 1024 D)) as [mz ez].
  cbn [fst snd] in He', Hm'.
  assert (HDz : Zdigits2 (Z.pos mz) + ez = D).
  { rewrite Hm', Zdigits2_mul_pow2 by lia. rewrite He'. unfold D. lia. }
  assert (HV : (inject_Z (Z.pos mz) * pow2 ez == inject_Z (Z.pos p) * pow2 e)%Q).
  { assert (Hpw : (pow2 e == pow2 (e - ez) * pow2 ez)%Q).
    { rewrite <- pow2_add. by replace (e - ez + ez) with e by lia. }
    rewrite <- He' in Hm'. rewrite Hm', inject_Z_pw, Hpw by lia. ring. }
  apply (round_aux_near s (Z.pos mz) ez loc_Exact).
  - done.
  - rewrite HDz. lia.
  - by rewrite HDz.
  - rewrite HDz. rewrite fexp64 in *.
    destruct (Z.eq_dec (Z.max (D - 53) (- 1074)) ez) as [Heq|Hne];
      [left; done|right; lia].
  - rewrite HV. lra.
  - rewrite <- HV, inject_Z_plus. change (inject_Z 1) with 1%Q.
    pose proof (pow2_pos ez). lra.
  - intros _. by rewrite HV.
Qed.

Lemma value_finite_eq (s : bool) (m : positive) (e : Z) (v : Q) :
  B64.value (S754_finite s m e) = Some v →
  (v == sgn s * inject_Z (Z.pos m) * pow2 e)%Q.
Proof.
  intros Hv. destruct (value_finite s m e) as (q & Hq & Heq).
  rewrite Hv in Hq. by simplify_eq.
Qed.

Lemma value_zero_eq (s : bool) (v : Q) :
  B64.value (S754_zero s) = Some v → (v == 0)%Q.
Proof. rewrite value_zero. intros. by simplify_eq. Qed.

(** A magnitude below [2^1023] has at most 1023 digits before the point. *)
Lemma digits_of_magnitude (p : positive) (e b : Z) :
  (inject_Z (Z.pos p) * pow2 e < pow2 b)%Q → Zdigits2 (Z.pos p) + e ≤ b.
Proof.
  intros Hlt. pose proof (Zdigits2_bounds p) as [Hb _].
  pose proof (Zdigits2_pos p) as Hp.
  assert (Hd : (pow2 (Zdigits2 (Z.pos p) - 1 + e) < pow2 b)%Q).
  { rewrite pow2_add, pow2_Z by lia. rewrite Zle_Qle in Hb.
    pose proof (pow2_pos e). nra. }
  apply pow2_lt_inv in Hd. lia.
Qed.

Lemma binary_normalize_near (m e : Z) :
  - 1074 ≤ e → e ≤ 1023 →
  (- pow2 1023 < inject_Z m * pow2 e)%Q → (inject_Z m * pow2 e < pow2 1023)%Q →
  ∃ q, B64.value (binary_normalize 53 1024 m e false) = Some q
       ∧ near q (inject_Z m * pow2 e).
Proof.
  intros He He' Hlo Hhi. destruct m as [|p|p]; cbn [binary_normalize].
  - exists (0 # 1)%Q. split; [reflexivity|]. apply near_refl.
    change (inject_Z 0) with 0%Q. ring.
  - destruct (binary_round_near false p e He) as (q & Hq & Hn).
    { by apply digits_of_magnitude. }
    exists q. split; [done|].
    refine (near_comp _ _ _ _ (Qeq_refl _) _ Hn).
    unfold sgn. ring.
  - destruct (binary_round_near true p e He) as (q & Hq & Hn).
    { apply digits_of_magnitude.
      change (Z.neg p) with (- Z.pos p) in Hlo.
      rewrite inject_Z_opp in Hlo. lra. }
    exists q. split; [done|].
    refine (near_comp _ _ _ _ (Qeq_refl _) _ Hn).
    unfold sgn. change (Z.neg p) with (- Z.pos p).
    rewrite inject_Z_opp. ring.
Qed.

Lemma valid_exponent (s : bool) (m : positive) (e : Z) :
  valid_binary 53 1024 (S754_finite s m e) = true → - 1074 ≤ e ≤ 971.
Proof.
  unfold valid_binary, bounded, canonical_mantissa.
  rewrite andb_true_iff, Z.eqb_eq, Z.leb_le. rewrite fexp64.
  change (1024 - 53) with 971. lia.
Qed.

Lemma cond_Zopp_sgn (s : bool) (m : Z) :
  (inject_Z (cond_Zopp s m) == sgn s * inject_Z m)%Q.
Proof.
  destruct s; unfold cond_Zopp, sgn; [rewrite inject_Z_opp|]; ring.
Qed.

(** The difference of two binary64 numbers, below the overflow threshold:
    the exact difference up to one relative error. *)
Lemma fsub_near (x y : B64.t) (vx vy : Q) :
  valid_binary 53 1024 x = true → valid_binary 53 1024 y = true →
  B64.value x = Some vx → B64.value y = Some vy →
  (Qabs (vx - vy) < pow2 1023)%Q →
  ∃ q, B64.value (fsub x y) = Some q ∧ near q (vx - vy).
Proof.
  intros Hx Hy Hvx Hvy Hmag.
  apply Qabs_Qlt_condition in Hmag as [Hlo Hhi].
  destruct x as [sx|sx| |sx mx ex]; try discriminate;
    destruct y as [sy|sy| |sy my ey]; try discriminate.
  - (* zero - zero *)
    apply value_zero_eq in Hvx, Hvy.
    exists (0 # 1)%Q. split.
    + by destruct sx, sy.
    + apply near_refl. rewrite Hvx, Hvy. ring.
  - (* zero - finite *)
    apply value_zero_eq in Hvx. apply value_finite_eq in Hvy.
    destruct (value_finite (negb sy) my ey) as (q & Hq & Heq).
    exists q. split; [exact Hq|]. apply near_refl.
    rewrite Heq, Hvx, Hvy. destruct sy; unfold sgn; simpl; ring.
  - (* finite - zero *)
    apply value_zero_eq in Hvy.
    exists vx. split; [exact Hvx|]. apply near_refl. rewrite Hvy. ring.
  - (* finite - finite *)
    apply valid_exponent in Hx, Hy.
    apply value_finite_eq in Hvx, Hvy.
    cbn [fsub b64 SFsub].
    set (ez := Z.min ex ey).
    destruct (shl_align_spec mx ex ez) as [_ Hmx'].
    destruct (shl_align_spec my ey ez) as [_ Hmy'].
    replace (Z.min ex ez) with ez in Hmx' by lia.
    replace (Z.min ey ez) with ez in Hmy' by lia.
    set (m := cond_Zopp sx (Z.pos (shl_align mx ex ez).1)
              - cond_Zopp sy (Z.pos (shl_align my ey ez).1)).
    assert (Hv : (vx - vy == inject_Z m * pow2 ez)%Q).
    { unfold m. unfold Z.sub at 1.
      rewrite inject_Z_plus, inject_Z_opp, !cond_Zopp_sgn.
      rewrite Hmx', Hmy', !inject_Z_pw by lia.
      assert (Hpx : (pow2 ex == pow2 (ex - ez) * pow2 ez)%Q).
      { rewrite <- pow2_add. by replace (ex - ez + ez) with ex by lia. }
      assert (Hpy : (pow2 ey == pow2 (ey - ez) * pow2 ez)%Q).
      { rewrite <- pow2_add. by replace (ey - ez + ez) with ey by lia. }
      rewrite Hvx, Hvy, Hpx, Hpy. ring. }
    destruct (binary_normalize_near m ez) as (q & Hq & Hn);
      [lia|lia| | |].
    + rewrite <- Hv. done.
    + rewrite <- Hv. done.
    + exists q. split; [exact Hq|].
      by apply (near_comp _ _ _ _ (Qeq_refl _) Hv).
Qed.

Lemma new_location_exact (nb k : Z) :
  new_location nb k = loc_Exact → k = 0.
Proof.
  unfold new_location, new_location_even, new_location_odd.
  destruct (Z.even nb); destruct (k =? 0) eqn:E; try discriminate;
    intros _; by apply Z.eqb_eq.
Qed.

(** The integer division at the heart of [SFdiv]. *)
Lemma div_core_spec (mx my : positive) (ex ey : Z) :
  let D := Zdigits2 (Z.pos mx) + ex - (Zdigits2 (Z.pos my) + ey) in
  let e' := Z.min (fexp 53 1024 D) (ex - ey) in
  let s := ex - ey - e' in
  ∃ qz lz,
    SFdiv_core_binary 53 1024 (Z.pos mx) ex (Z.pos my) ey = (qz, e', lz)
    ∧ qz * Z.pos my ≤ Z.pos mx * 2 ^ s < (qz + 1) * Z.pos my
    ∧ (lz = loc_Exact → Z.pos mx * 2 ^ s = qz * Z.pos my).
Proof.
  intros D e' s. unfold SFdiv_core_binary.
  fold D. fold e'. fold s.
  assert (Hs : 0 ≤ s) by (unfold s, e'; lia).
  set (m' := match s with
             | 0 => Z.pos mx
             | Z.pos _ => Z.shiftl (Z.pos mx) s
             | Z.neg _ => 0
             end).
  assert (Hm' : m' = Z.pos mx * 2 ^ s).
  { unfold m'. destruct s as [|p|p] eqn:Es; [simpl; lia| |lia].
    by rewrite Z.shiftl_mul_pow2. }
  pose proof (Z_div_mod m' (Z.pos my) eq_refl) as Hdm.
  destruct (Z.div_eucl m' (Z.pos my)) as [qz r].
  destruct Hdm as [Heq Hr].
  exists qz, (new_location (Z.pos my) r). split; [reflexivity|].
  rewrite <- Hm'. split; [lia|].
  intros Hl%new_location_exact. lia.
Qed.

Lemma pow2_digits_lo (p : positive) (e : Z) :
  (pow2 (Zdigits2 (Z.pos p) - 1 + e) <= inject_Z (Z.pos p) * pow2 e)%Q.
Proof.
  pose proof (Zdigits2_bounds p) as [Hb _]. pose proof (Zdigits2_pos p).
  rewrite pow2_add, (pow2_Z (Zdigits2 (Z.pos p) - 1)) by lia.
  rewrite Zle_Qle in Hb.
  pose proof (pow2_pos e). nra.
Qed.

Lemma pow2_digits_hi (p : positive) (e : Z) :
  (inject_Z (Z.pos p) * pow2 e < pow2 (Zdigits2 (Z.pos p) + e))%Q.
Proof.
  pose proof (Zdigits2_bounds p) as [_ Hb]. pose proof (Zdigits2_pos p).
  rewrite pow2_add, (pow2_Z (Zdigits2 (Z.pos p))) by lia.
  rewrite Zlt_Qlt in Hb.
  pose proof (pow2_pos e). nra.
Qed.

(** The quotient of two finite binary64 numbers whose exact quotient [V]
    has a magnitude in [[1/2, 2^52)]: [V] up to one relative error. *)
Lemma fdiv_near_finite (sx sy : bool) (mx my : positive) (ex ey : Z) :
  let X := (inject_Z (Z.pos mx) * pow2 ex)%Q in
  let Y := (inject_Z (Z.pos my) * pow2 ey)%Q in
  (pow2 (- 1) <= X / Y)%Q → (X / Y < pow2 52)%Q →
  ∃ q, B64.value (fdiv (S754_finite sx mx ex) (S754_finite sy my ey)) = Some q
       ∧ near q (sgn (xorb sx sy) * (X / Y)).
Proof.
  intros X Y Hlo Hhi.
  destruct (div_core_spec mx my ex ey) as (qz & lz & Hcore & Hq & Hexact).
  set (d1 := Zdigits2 (Z.pos mx)) in *. set (d2 := Zdigits2 (Z.pos my)) in *.
  set (D := d1 + ex - (d2 + ey)) in *.
  set (e' := Z.min (fexp 53 1024 D) (ex - ey)) in *.
  set (s := ex - ey - e') in *.
  change (fdiv (S754_finite sx mx ex) (S754_finite sy my ey))
    with (SFdiv 53 1024 (S754_finite sx mx ex) (S754_finite sy my ey)).
  cbn [SFdiv]. rewrite Hcore.
  set (V := (X / Y)%Q) in *.
  (* magnitudes *)
  pose proof (pow2_digits_lo mx ex) as HXlo. pose proof (pow2_digits_hi mx ex) as HXhi.
  pose proof (pow2_digits_lo my ey) as HYlo. pose proof (pow2_digits_hi my ey) as HYhi.
  fold d1 in HXlo, HXhi. fold d2 in HYlo, HYhi. fold X in HXlo, HXhi.
  fold Y in HYlo, HYhi.
  assert (HYpos : (0 < Y)%Q).
  { pose proof (pow2_pos (d2 - 1 + ey)). lra. }
  assert (HXpos : (0 < X)%Q).
  { pose proof (pow2_pos (d1 - 1 + ex)). lra. }
  assert (HVY : (V * Y == X)%Q) by (unfold V; field; lra).
  assert (HD : - 1 ≤ D ≤ 52).
  { split.
    - assert (Hc : (pow2 (- 1 + (d2 - 1 + ey)) < pow2 (d1 + ex))%Q).
      { rewrite pow2_add. pose proof (pow2_pos (- 1)). nra. }
      apply pow2_lt_inv in Hc. unfold D. lia.
    - assert (Hc : (pow2 (d1 - 1 + ex) < pow2 (52 + (d2 + ey)))%Q).
      { rewrite (pow2_add 52). pose proof (pow2_pos 52). nra. }
      apply pow2_lt_inv in Hc. unfold D. lia. }
  assert (He' : e' ≤ D - 53) by (unfold e'; rewrite fexp64; lia).
  assert (Hs : 0 ≤ s ∧ 52 ≤ d1 - 1 + s - d2) by (unfold s, e', D in *; lia).
  pose proof (Zdigits2_pos mx) as Hd1. pose proof (Zdigits2_pos my) as Hd2.
  fold d1 in Hd1. fold d2 in Hd2.
  set (t := d1 - 1 + s - d2) in *.
  (* the quotient has at least [t + 1] digits *)
  assert (Hqt : 2 ^ t ≤ qz).
  { pose proof (Zdigits2_bounds mx) as [Hm1 _].
    pose proof (Zdigits2_bounds my) as [_ Hm2].
    fold d1 in Hm1. fold d2 in Hm2.
    assert (Hp : 2 ^ (d1 - 1) * 2 ^ s = 2 ^ t * 2 ^ d2).
    { rewrite <- !Z.pow_add_r by lia. f_equal. unfold t. lia. }
    assert (H2s : 0 < 2 ^ s) by (apply Z.pow_pos_nonneg; lia).
    assert (H2t : 0 < 2 ^ t) by (apply Z.pow_pos_nonneg; lia).
    nia. }
  assert (H252 : 2 ^ 52 ≤ 2 ^ t) by (apply Z.pow_le_mono_r; lia).
  assert (Hqpos : 0 < qz) by lia.
  destruct qz as [|pq|pq]; try lia.
  pose proof (Zdigits2_bounds pq) as [_ Hdq].
  assert (Htq : t < Zdigits2 (Z.pos pq)).
  { apply (Z.pow_lt_mono_r_iff 2); [lia|apply Zdigits2_nonneg|lia]. }
  (* the exact quotient lies between the integer quotient and its successor *)
  pose proof (pow2_pos e') as Hu. pose proof (pow2_pos ey) as Hw.
  pose proof (pow2_pos s) as Hps.
  assert (Hpex : (pow2 ex == pow2 s * pow2 e' * pow2 ey)%Q).
  { rewrite <- !pow2_add. by replace (s + e' + ey) with ex by (unfold s; lia). }
  assert (HA2 : (inject_Z (Z.pos mx * 2 ^ s) == inject_Z (Z.pos mx) * pow2 s)%Q)
    by (apply inject_Z_pw; lia).
  assert (Hb : (0 < inject_Z (Z.pos my))%Q) by (by rewrite <- (Zlt_Qlt 0)).
  assert (HVb : (V * inject_Z (Z.pos my)
                 == inject_Z (Z.pos mx * 2 ^ s) * pow2 e')%Q).
  { rewrite HA2. unfold V, X, Y. rewrite Hpex. field. lra. }
  destruct Hq as [Hq1 Hq2].
  rewrite Zle_Qle, (inject_Z_mult (Z.pos pq)) in Hq1.
  rewrite Zlt_Qlt, (inject_Z_mult (Z.pos pq + 1)), inject_Z_plus in Hq2.
  change (inject_Z 1) with 1%Q in Hq2.
  assert (HloV : (inject_Z (Z.pos pq) * pow2 e' <= V)%Q) by nra.
  assert (HhiV : (V < inject_Z (Z.pos pq + 1) * pow2 e')%Q).
  { rewrite inject_Z_plus. change (inject_Z 1) with 1%Q. nra. }
  apply (round_aux_near (xorb sx sy) (Z.pos pq) e' lz V).
  - done.
  - rewrite fexp64. lia.
  - assert (Zdigits2 (Z.pos pq) + e' ≤ 52); [|lia].
    apply digits_of_magnitude. lra.
  - right. lia.
  - done.
  - done.
  - intros Hl. specialize (Hexact Hl).
    assert (Hz : (inject_Z (Z.pos mx * 2 ^ s)
                  == inject_Z (Z.pos pq) * inject_Z (Z.pos my))%Q).
    { rewrite Hexact, inject_Z_mult. reflexivity. }
    nra.
Qed.

(** In terms of the values. *)
Lemma fdiv_near (x y : B64.t) (vx vy : Q) :
  B64.value x = Some vx → B64.value y = Some vy →
  (pow2 (- 1) <= Qabs (vx / vy))%Q → (Qabs (vx / vy) < pow2 52)%Q →
  ∃ q, B64.value (fdiv x y) = Some q ∧ near q (vx / vy).
Proof.
  intros Hvx Hvy Hlo Hhi.
  assert (Hnz : ¬ (vx / vy == 0)%Q).
  { intros Hz. rewrite Hz in Hlo. pose proof (pow2_pos (- 1)).
    change (Qabs 0) with 0%Q in Hlo. lra. }
  destruct x as [sx|sx| |sx mx ex]; try discriminate.
  { apply value_zero_eq in Hvx. exfalso. apply Hnz. rewrite Hvx.
    unfold Qdiv. ring. }
  destruct y as [sy|sy| |sy my ey]; try discriminate.
  { apply value_zero_eq in Hvy. exfalso. apply Hnz. rewrite Hvy.
    unfold Qdiv. change (/ 0)%Q with 0%Q. ring. }
  apply value_finite_eq in Hvx, Hvy.
  set (X := (inject_Z (Z.pos mx) * pow2 ex)%Q).
  set (Y := (inject_Z (Z.pos my) * pow2 ey)%Q).
  assert (HYpos : (0 < Y)%Q).
  { unfold Y. pose proof (pow2_pos ey).
    assert (0 < inject_Z (Z.pos my))%Q by (by rewrite <- (Zlt_Qlt 0)).
    nra. }
  assert (HXpos : (0 < X)%Q).
  { unfold X. pose proof (pow2_pos ex).
    assert (0 < inject_Z (Z.pos mx))%Q by (by rewrite <- (Zlt_Qlt 0)).
    nra. }
  assert (Hv : (vx / vy == sgn (xorb sx sy) * (X / Y))%Q).
  { rewrite Hvx, Hvy. unfold X, Y in *.
    assert (Hb : (0 < inject_Z (Z.pos my))%Q) by (by rewrite <- (Zlt_Qlt 0)).
    pose proof (pow2_pos ey).
    destruct sx, sy; unfold sgn; cbn [xorb]; field; split; lra. }
  assert (HVpos : (0 < X / Y)%Q).
  { apply Qlt_shift_div_l; [done|]. lra. }
  assert (Habs : (Qabs (vx / vy) == X / Y)%Q).
  { rewrite Hv. destruct (xorb sx sy); unfold sgn.
    - rewrite Qabs_neg by lra. ring.
    - rewrite Qabs_pos by lra. ring. }
  rewrite Habs in Hlo, Hhi.
  destruct (fdiv_near_finite sx sy mx my ex ey Hlo Hhi) as (q & Hq & Hn).
  exists q. split; [exact Hq|].
  by apply (near_comp _ _ _ _ (Qeq_refl _) Hv).
Qed.

Lemma eps64_val : (eps64 == 1 # 4503599627370496)%Q.
Proof. reflexivity. Qed.

Lemma pow2_m1 : (pow2 (- 1) == 1 # 2)%Q.
Proof. reflexivity. Qed.

Lemma pow2_52 : (pow2 52 == 4503599627370496 # 1)%Q.
Proof. reflexivity. Qed.

(** [np.floor] of a binary64 number is the floor of its value. *)
Lemma floor_int_value (y : B64.t) (q : Q) :
  B64.value y = Some q → floor_int y = Some (Qfloor q).
Proof.
  unfold B64.value. cbn [floor_int b64]. unfold B64.to_int.
  destruct (B64.frac_of y) as [[n d]|] eqn:E; [|discriminate].
  intros Hq. injection Hq as <-. f_equal. unfold floor_frac. cbn [Qfloor].
  f_equal.
  assert (Hd : 0 < d).
  { destruct y as [s|s| |s m e]; simpl in E; try discriminate.
    - injection E as <- <-. lia.
    - destruct (0 <=? e) eqn:Ee; injection E as <- <-; [lia|].
      apply Z.pow_pos_nonneg; lia. }
  by rewrite Z2Pos.id.
Qed.

Lemma value_zero_inv (y : B64.t) (q : Q) :
  B64.value y = Some q → (q == 0)%Q → ∃ s, y = S754_zero s.
Proof.
  intros Hv Hq. destruct y as [s|s| |s m e]; try discriminate; [eauto|].
  apply value_finite_eq in Hv. exfalso.
  assert (0 < inject_Z (Z.pos m))%Q by (by rewrite <- (Zlt_Qlt 0)).
  pose proof (pow2_pos e).
  assert (0 < inject_Z (Z.pos m) * pow2 e)%Q by (by apply Qmult_lt_0_compat).
  destruct s; unfold sgn in Hv; nra.
Qed.

Lemma value_nonzero_finite (y : B64.t) (q : Q) :
  B64.value y = Some q → ¬ (q == 0)%Q → ∃ s m e, y = S754_finite s m e.
Proof.
  intros Hv Hq. destruct y as [s|s| |s m e]; try discriminate; [|eauto].
  apply value_zero_eq in Hv. done.
Qed.

(** The binary64 quotient [(x - x_min) / x_res] of a coordinate that is
    exactly [x_min + k * x_res] lies strictly within one of [k]. *)
Lemma boundary_quotient (x xm xr : B64.t) (vx vm vr : Q) (k : Z) :
  valid_binary 53 1024 x = true → valid_binary 53 1024 xm = true →
  B64.value x = Some vx → B64.value xm = Some vm → B64.value xr = Some vr →
  ¬ (vr == 0)%Q → (vx - vm == inject_Z k * vr)%Q →
  - 2 ^ 50 ≤ k ≤ 2 ^ 50 → (Qabs (vx - vm) < pow2 1023)%Q →
  ∃ q, B64.value (fdiv (fsub x xm) xr) = Some q
       ∧ (inject_Z k - 1 < q)%Q ∧ (q < inject_Z k + 1)%Q.
Proof.
  intros Hx Hxm Hvx Hvm Hvr Hnz Hk Hkr Hmag.
  destruct (fsub_near x xm vx vm Hx Hxm Hvx Hvm Hmag)
    as (qd & Hqd & δ1 & Hδ1 & Hqd1).
  rewrite eps64_val in Hδ1.
  destruct (Z.eq_dec k 0) as [-> | Hk0].
  - (* the coordinate is the origin *)
    assert (Hz : (qd == 0)%Q).
    { rewrite Hqd1, Hk. change (inject_Z 0) with 0%Q. ring. }
    destruct (value_zero_inv _ _ Hqd Hz) as [s ->].
    destruct (value_nonzero_finite _ _ Hvr Hnz) as (sr & mr & er & ->).
    exists (0 # 1)%Q. split; [reflexivity|].
    change (inject_Z 0) with 0%Q. split; lra.
  - set (w := (qd / vr)%Q).
    assert (Hw : (w == inject_Z k * (1 + δ1))%Q).
    { unfold w. rewrite Hqd1, Hk. field. done. }
    assert (HK : (- (1125899906842624 # 1) <= inject_Z k
                  <= 1125899906842624 # 1)%Q).
    { destruct Hkr as [H1 H2]. rewrite Zle_Qle in H1, H2. split; [exact H1|exact H2]. }
    assert (Hk1 : (inject_Z k <= - (1) ∨ 1 <= inject_Z k)%Q).
    { destruct (Z.le_gt_cases k 0) as [Hle|Hgt].
      - left. assert (Hle' : k ≤ - 1) by lia. by rewrite Zle_Qle in Hle'.
      - right. assert (Hge : 1 ≤ k) by lia. by rewrite Zle_Qle in Hge. }
    destruct (fdiv_near (fsub x xm) xr qd vr Hqd Hvr) as (q & Hq & δ2 & Hδ2 & Hq2).
    + fold w. rewrite pow2_m1.
      destruct Hk1 as [Hneg|Hpos].
      * apply Qle_trans with (- w)%Q; [nra|].
        rewrite <- Qabs_opp. apply Qle_Qabs.
      * apply Qle_trans with w; [nra|]. apply Qle_Qabs.
    + fold w. rewrite pow2_52. apply Qabs_Qlt_condition. split; nra.
    + exists q. split; [exact Hq|]. fold w in Hq2. rewrite eps64_val in Hδ2.
      set (u := (δ1 + δ2 + δ1 * δ2)%Q).
      assert (Hu : (- (3 # 4503599627370496) <= u
                    <= 3 # 4503599627370496)%Q) by (unfold u; split; nra).
      assert (Hqk : (q == inject_Z k + inject_Z k * u)%Q).
      { rewrite Hq2, Hw. unfold u. ring. }
      split; nra.
Qed.

(** The quantization of a coordinate that is exactly
    [origin + k * res]. *)
Lemma quantize_boundary (x xm xr : B64.t) (vx vm vr : Q) (k : Z) :
  valid_binary 53 1024 x = true → valid_binary 53 1024 xm = true →
  B64.value x = Some vx → B64.value xm = Some vm → B64.value xr = Some vr →
  ¬ (vr == 0)%Q → (vx == vm + inject_Z k * vr)%Q →
  - 2 ^ 50 ≤ k ≤ 2 ^ 50 → (Qabs (inject_Z k * vr) < pow2 1023)%Q →
  ∃ q, B64.value (fdiv (fsub x xm) xr) = Some q
       ∧ (quantize xm xr x = k ∨ quantize xm xr x = k - 1)
       ∧ (quantize xm xr x = k ↔ (inject_Z k <= q)%Q).
Proof.
  intros Hx Hxm Hvx Hvm Hvr Hnz Hk Hkr Hmag.
  assert (Hd : (vx - vm == inject_Z k * vr)%Q) by (rewrite Hk; ring).
  destruct (boundary_quotient x xm xr vx vm vr k Hx Hxm Hvx Hvm Hvr Hnz Hd Hkr)
    as (q & Hq & Hlo & Hhi).
  { by rewrite Hd. }
  exists q. split; [exact Hq|].
  assert (Hfl : k - 1 ≤ Qfloor q ≤ k).
  { split.
    - rewrite <- (Qfloor_Z (k - 1)). apply Qfloor_resp_le.
      unfold Z.sub. rewrite inject_Z_plus, inject_Z_opp.
      change (inject_Z 1) with 1%Q. lra.
    - pose proof (Qfloor_le q) as Hf.
      assert (Hlt : (inject_Z (Qfloor q) < inject_Z (k + 1))%Q).
      { rewrite inject_Z_plus. change (inject_Z 1) with 1%Q. lra. }
      rewrite <- Zlt_Qlt in Hlt. lia. }
  assert (Hqz : quantize xm xr x = Qfloor q).
  { unfold quantize. rewrite (floor_int_value _ _ Hq).
    apply astype_int_in_range, in_int64_spec. lia. }
  rewrite Hqz. split; [lia|]. split.
  - intros <-. apply Qfloor_le.
  - intros Hle. apply Qfloor_resp_le in Hle. rewrite Qfloor_Z in Hle. lia.
Qed.

(** C9, amended. In binary64, for binary64 numbers [x_min] and [x_res],
    [x_res] not zero, every integer [k] with [|k| <= 2^50] and a projected
    x-coordinate that is exactly [x_min + k * x_res], the distance
    [k * x_res] being below [2^1023]: the forward indexer puts the pixel
    into column [k] or into column [k - 1], never beyond; it is column [k]
    exactly when the binary64 quotient [(x - x_min) / x_res], after the
    rounding of the subtraction and of the division, is not below [k].
    The same holds for the rows. *)
Theorem forward_index_boundary_binary64
    (src_lon src_lat : arr2 B64.t) (trafo : Transformer B64.t)
    (g : Grid B64.t) (r c : nat) (lon lat : B64.t) :
  at2 src_lon r c = Some lon → at2 src_lat r c = Some lat →
  let xy := if is_geographic g then (lon, lat) else trafo lon lat in
  let fwd := block_dst_pixels_of_src_block src_lon src_lat trafo g in
  (∀ (k : Z) (x xm xr : Q),
     valid_binary 53 1024 xy.1 = true →
     valid_binary 53 1024 (x_min g) = true →
     B64.value xy.1 = Some x → B64.value (x_min g) = Some xm →
     B64.value (x_res g) = Some xr →
     ¬ (xr == 0)%Q → (x == xm + inject_Z k * xr)%Q →
     - 2 ^ 50 ≤ k ≤ 2 ^ 50 → (Qabs (inject_Z k * xr) < pow2 1023)%Q →
     ∃ q, B64.value (fdiv (fsub xy.1 (x_min g)) (x_res g)) = Some q
          ∧ (at2 fwd.1 r c = Some k ∨ at2 fwd.1 r c = Some (k - 1))
          ∧ (at2 fwd.1 r c = Some k ↔ (inject_Z k <= q)%Q))
  ∧ (∀ (k : Z) (y ym yr : Q),
       valid_binary 53 1024 xy.2 = true →
       valid_binary 53 1024 (y_min g) = true →
       B64.value xy.2 = Some y → B64.value (y_min g) = Some ym →
       B64.value (y_res g) = Some yr →
       ¬ (yr == 0)%Q → (y == ym + inject_Z k * yr)%Q →
       - 2 ^ 50 ≤ k ≤ 2 ^ 50 → (Qabs (inject_Z k * yr) < pow2 1023)%Q →
       ∃ q, B64.value (fdiv (fsub xy.2 (y_min g)) (y_res g)) = Some q
            ∧ (at2 fwd.2 r c = Some k ∨ at2 fwd.2 r c = Some (k - 1))
            ∧ (at2 fwd.2 r c = Some k ↔ (inject_Z k <= q)%Q)).
Proof.
  intros Hlon Hlat xy fwd.
  destruct (block_dst_pixels_lookup src_lon src_lat trafo g r c lon lat
              Hlon Hlat) as [Hi Hj].
  fold xy in Hi, Hj. fold fwd in Hi, Hj.
  split; intros k v o re Hv1 Hv2 Hv Ho Hre Hnz Heq Hk Hmag.
  - destruct (quantize_boundary xy.1 (x_min g) (x_res g) v o re k
                Hv1 Hv2 Hv Ho Hre Hnz Heq Hk Hmag) as (q & Hq & Hor & Hiff).
    exists q. split; [exact Hq|]. rewrite Hi. split.
    + destruct Hor as [-> | ->]; auto.
    + rewrite <- Hiff. split; [by intros [= ->]|by intros ->].
  - destruct (quantize_boundary xy.2 (y_min g) (y_res g) v o re k
                Hv1 Hv2 Hv Ho Hre Hnz Heq Hk Hmag) as (q & Hq & Hor & Hiff).
    exists q. split; [exact Hq|]. rewrite Hj. split.
    + destruct Hor as [-> | ->]; auto.
    + rewrite <- Hiff. split; [by intros [= ->]|by intros ->].
Qed.

(** C9, as stated, fails in binary64: with the resolution [0.7] (its
    nearest double), the origin [-2^-52] and the double [3 * 0.7], which is
    the origin plus three times the resolution exactly, the subtraction
    and the division round the quotient to the double below 3, and the
    pixel is put into column 2. *)
Lemma forward_index_boundary_rounds_down :
  ∃ x xm xr : Q,
    B64.value boundary_x = Some x ∧ B64.value boundary_x_min = Some xm ∧ B64.value boundary_x_res = Some xr
    ∧ (x == xm + inject_Z 3 * xr)%Q
    ∧ (block_dst_pixels_of_src_block [[boundary_x]] [[of_int 0]] identity_trafo
         boundary_grid).1 = [[2]].
Proof.
  eexists _, _, _. split; [reflexivity|]. split; [reflexivity|].
  split; [reflexivity|]. split; [reflexivity|]. vm_compute. reflexivity.
Qed.

Lemma forward_index_boundary_binary64_witness :
  let fwd := block_dst_pixels_of_src_block [[boundary_x]] [[of_int 0]]
               identity_trafo boundary_grid in
  at2 fwd.1 0 0 = Some 3 ∨ at2 fwd.1 0 0 = Some (3 - 1).
Proof.
  intros fwd.
  pose proof (forward_index_boundary_binary64 [[boundary_x]] [[of_int 0]]
                identity_trafo boundary_grid 0 0 boundary_x (of_int 0) eq_refl eq_refl)
    as [Hx _].
  cbv zeta in Hx.
  edestruct (Hx 3) as (q & _ & Hor & _).
  - vm_compute. reflexivity.
  - vm_compute. reflexivity.
  - reflexivity.
  - reflexivity.
  - reflexivity.
  - intros Hz. vm_compute in Hz. discriminate.
  - vm_compute. reflexivity.
  - lia.
  - vm_compute. reflexivity.
  - exact Hor.
Defined.

(** ** Preconditions of the stateful methods *)

(** The guards do raise the designated ValueError when the attribute holds
    [None]. *)
Lemma guards_on_None {F : Type} `{FloatOps F} (h : store F)
    (self : Rectifier F) (l : loc) (ms : list (chunked F)) :
  (forward_index self = PyNone →
   determine_covering_dst_grid h self
   = Raise (ValueError
       "missing forward index. Call create_forward_pixel_index() first."))
  ∧ (dst_grid self = Some l → inverse_index self = PyNone →
     rectify_nearest_neighbour h self ms
     = Raise (ValueError
         "missing inverse index. Call create_inverse_pixel_index() first.")).
Proof.
  split.
  - intros Hfw. unfold determine_covering_dst_grid. by rewrite Hfw.
  - intros Hg Hinv. unfold rectify_nearest_neighbour. by rewrite Hg, Hinv.
Qed.

(** C8, as the code behaves. [__init__] assigns neither [forward_index] nor
    [inverse_index]; on a Rectifier on which [create_forward_pixel_index]
    (resp. [create_inverse_pixel_index]) was never called, reading the
    attribute in the guard raises AttributeError before the comparison with
    [None] is made, so the designated ValueError is not raised. *)
Theorem fresh_rectifier_raises_attribute_error {F : Type} `{FloatOps F}
    (h : store F) (lon lat : chunked F) (g : option loc) (l : loc)
    (nm : string) (ms : list (chunked F)) :
  determine_covering_dst_grid h (init lon lat g nm)
  = Raise (AttributeError "forward_index")
  ∧ rectify_nearest_neighbour h (init lon lat (Some l) nm) ms
    = Raise (AttributeError "inverse_index").
Proof. split; reflexivity. Qed.

(** ** Degenerate triangles *)

(** A quotient by a zero of either sign is an infinity or NaN, and no pair
    of such quotients passes the barycentric test. *)
Lemma zero_determinant_outside (n1 n2 : B64.t) (s : bool)
    (dst_i dst_j dst_width dst_height : Z) :
  is_inside_triangle (fdiv n1 (S754_zero s)) (fdiv n2 (S754_zero s))
    dst_i dst_j dst_width dst_height = false.
Proof.
  unfold is_inside_triangle.
  assert (Hf : fge (fdiv n1 (S754_zero s)) u_min
               && fge (fdiv n2 (S754_zero s)) v_min
               && fle (fadd (fdiv n1 (S754_zero s)) (fdiv n2 (S754_zero s)))
                    uv_max = false).
  { destruct n1 as [s1|s1| |s1 m1 e1], n2 as [s2|s2| |s2 m2 e2], s;
      try destruct s1; try destruct s2; reflexivity. }
  rewrite Hf. reflexivity.
Qed.

(** C7, amended. In binary64 a triangle whose determinant is exactly zero
    (of either sign) contains no destination pixel: the division yields an
    infinity or NaN instead of raising, the membership test is false for
    every candidate pixel, and the triangle writes nothing into the inverse
    index; a quad both of whose triangles are degenerate leaves it as it
    was. *)
Theorem degenerate_triangle_is_skipped (q : QuadData B64.t)
    (src_offset : B64.t * B64.t) (dst_width dst_height : Z)
    (result : canvas B64.t) :
  (∀ sa, det_a q = S754_zero sa →
     (∀ dst_i dst_j,
        is_inside_triangle (ua q dst_i dst_j) (va q dst_i dst_j)
          dst_i dst_j dst_width dst_height = false)
     ∧ ∀ i_offset j_offset,
         paint_a src_offset dst_width dst_height i_offset j_offset result q
         = result)
  ∧ (∀ sb, det_b q = S754_zero sb →
       (∀ dst_i dst_j,
          is_inside_triangle (ub q dst_i dst_j) (vb q dst_i dst_j)
            dst_i dst_j dst_width dst_height = false)
       ∧ ∀ i_offset j_offset,
           paint_b src_offset dst_width dst_height i_offset j_offset result q
           = result).
Proof.
  split.
  - intros sa Ha.
    assert (Hin : ∀ dst_i dst_j,
      is_inside_triangle (ua q dst_i dst_j) (va q dst_i dst_j)
        dst_i dst_j dst_width dst_height = false).
    { intros dst_i dst_j. unfold ua, va. rewrite Ha.
      apply zero_determinant_outside. }
    split; [exact Hin|]. intros i_offset j_offset. unfold paint_a.
    by rewrite Hin.
  - intros sb Hb.
    assert (Hin : ∀ dst_i dst_j,
      is_inside_triangle (ub q dst_i dst_j) (vb q dst_i dst_j)
        dst_i dst_j dst_width dst_height = false).
    { intros dst_i dst_j. unfold ub, vb. rewrite Hb.
      apply zero_determinant_outside. }
    split; [exact Hin|]. intros i_offset j_offset. unfold paint_b.
    by rewrite Hin.
Qed.

Lemma degenerate_triangle_is_skipped_witness :
  let p : pt4 B64.t := (lit 5 10, lit 5 10, lit 5 10, lit 5 10) in
  let q := mkQuadData p p 0 0 0 0 in
  det_a q = S754_zero false ∧ det_b q = S754_zero false
  ∧ paint_a (lit 5 10, lit 5 10) 1 1 0 0 ([[fnan]], [[fnan]]) q
    = ([[fnan]], [[fnan]])
  ∧ paint_b (lit 5 10, lit 5 10) 1 1 0 0 ([[fnan]], [[fnan]]) q
    = ([[fnan]], [[fnan]]).
Proof.
  intros p q.
  assert (Ha : det_a q = S754_zero false) by (vm_compute; reflexivity).
  assert (Hb : det_b q = S754_zero false) by (vm_compute; reflexivity).
  split; [exact Ha|]. split; [exact Hb|].
  pose proof (degenerate_triangle_is_skipped q (lit 5 10, lit 5 10) 1 1
                ([[fnan]], [[fnan]])) as [HA HB].
  split.
  - exact (proj2 (HA false Ha) 0 0).
  - exact (proj2 (HB false Hb) 0 0).
Defined.

(** C7, as stated, fails: the determinant of each triangle is tested on
    its own. The quad of the source pixels [(0.5, 0.5)], [(1.5, 0.5)],
    [(2.5, 0.5)], [(1.5, 1.5)] has a triangle A of determinant [+0], which
    writes nothing, and a triangle B of determinant [-1], which contains
    three pixel centres of the block and writes the three entries. *)
Lemma degenerate_quad_still_writes :
  let mesh := triangles_in_dst_pixel_grid collinear_lon collinear_lat
                collinear_grid identity_trafo (0, 0) in
  ∃ pi pj,
    mesh = ([[pi]], [[pj]])
    ∧ det_a (mkQuadData pi pj 0 0 0 0) = S754_zero false
    ∧ det_b (mkQuadData pi pj 0 0 0 0) = of_int (- 1)
    ∧ inverse_index_of_dst_block_with_src_subset collinear_lon collinear_lat
        (of_int 0, of_int 0) collinear_grid identity_trafo (0, 0)
      = Ok ([[fnan; of_int 1; of_int 0]; [fnan; of_int 1; fnan]],
            [[fnan; of_int 0; of_int 1]; [fnan; of_int 1; fnan]]).
Proof.
  eexists _, _. split; [vm_compute; reflexivity|].
  split; [vm_compute; reflexivity|]. split; vm_compute; reflexivity.
Qed.

(** ** Lists, cells and indexing *)

Lemma concat_join {A} (l : list (list A)) : concat l = mjoin l.
Proof. induction l as [|x l IH]; simpl; [done|]. by rewrite IH. Qed.

Lemma elem_of_cells {A} (a : arr2 A) (r c : nat) (x : A) :
  (r, c, x) ∈ cells a ↔ at2 a r c = Some x.
Proof.
  unfold cells, at2. rewrite concat_join, list_elem_of_join. split.
  - intros (l & Hx & Hl).
    apply elem_of_lookup_imap in Hl as (r' & row & -> & Hrow).
    apply elem_of_lookup_imap in Hx as (c' & y & Heq & Hy).
    simplify_eq. rewrite Hrow. simpl. done.
  - intros Hat. destruct (a !! r) as [row|] eqn:Hrow; simpl in Hat; [|done].
    exists (imap (λ c0 x0, (r, c0, x0)) row). split.
    + apply elem_of_lookup_imap. eauto.
    + apply elem_of_lookup_imap. eauto.
Qed.

Lemma at2_zip2_Some {A B C} (f : A → B → C) (a : arr2 A) (b : arr2 B)
    (r c : nat) (z : C) :
  at2 (zip2 f a b) r c = Some z ↔
  ∃ x y, at2 a r c = Some x ∧ at2 b r c = Some y ∧ z = f x y.
Proof.
  split.
  - unfold at2, zip2. intros Hz.
    destruct (zip_with (zip_with f) a b !! r) as [row|] eqn:Hrow;
      simpl in Hz; [|done].
    apply lookup_zip_with_Some in Hrow as (ra & rb & -> & Hra & Hrb).
    apply lookup_zip_with_Some in Hz as (x & y & -> & Hx & Hy).
    exists x, y. rewrite Hra, Hrb. simpl. done.
  - intros (x & y & Hx & Hy & ->). by apply at2_zip2.
Qed.

Lemma np_index_ok {A} (a : list A) (k : Z) :
  0 ≤ k < Z.of_nat (length a) →
  ∃ x, np_index a k = Ok x ∧ a !! Z.to_nat k = Some x.
Proof.
  intros Hk. unfold np_index.
  destruct (k <? 0) eqn:E1; [lia|].
  destruct ((0 <=? k) && (k <? Z.of_nat (length a))) eqn:E2; [|lia].
  destruct (a !! Z.to_nat k) as [x|] eqn:E3; [eauto|].
  apply lookup_ge_None in E3. lia.
Qed.

Lemma np_index2_ok {A} (a : arr2 A) (rows cols r c : Z) :
  rectangular rows cols a → 0 ≤ r < rows → 0 ≤ c < cols →
  ∃ x, np_index2 a r c = Ok x.
Proof.
  intros [Hrows Hcols] Hr Hc. unfold np_index2.
  destruct (np_index_ok a r) as (row & -> & Hrow); [lia|].
  simpl. rewrite Forall_forall in Hcols.
  assert (Hlen : Z.of_nat (length row) = cols).
  { apply Hcols. eapply list_elem_of_lookup_2. eauto. }
  destruct (np_index_ok row c) as (x & -> & _); [lia|]. eauto.
Qed.

Lemma traverse_ok {A B} (f : A → res B) (l : list A) :
  (∀ x, x ∈ l → ∃ y, f x = Ok y) →
  ∃ ys, traverse f l = Ok ys ∧ length ys = length l.
Proof.
  induction l as [|x l IH]; intros Hf; simpl; [eauto|].
  destruct (Hf x) as (y & ->); [left|].
  destruct IH as (ys & -> & Hlen); [intros; apply Hf; by right|].
  exists (y :: ys). simpl. by rewrite Hlen.
Qed.

(** A write changes no other cell. *)
Lemma at2_set2_ne {A} (a : arr2 A) (j i : Z) (v : A) (r c : nat) :
  (Z.to_nat j, Z.to_nat i) ≠ (r, c) →
  at2 (set2 a j i v) r c = at2 a r c.
Proof.
  intros Hne. unfold at2, set2.
  destruct (decide (Z.to_nat j = r)) as [<-|Hr].
  - rewrite list_lookup_alter_eq.
    destruct (a !! Z.to_nat j) as [row|]; simpl; [|done].
    apply list_lookup_insert_ne. congruence.
  - by rewrite list_lookup_alter_ne.
Qed.

(** ** Resampler *)

Section ResamplerProofs.
Context {F : Type} `{FloatOps F}.

Lemma elem_of_masked_pixels (block_i block_j : arr2 Z) (ts : Z * Z)
    (tile_j tile_i rows cols : Z) (p : nat * nat * (Z * Z)) :
  p ∈ masked_pixels block_i block_j ts tile_j tile_i rows cols ↔
  ∃ bj bi, at2 block_j p.1.1 p.1.2 = Some bj
         ∧ at2 block_i p.1.1 p.1.2 = Some bi
         ∧ tile_mask ts tile_j tile_i rows cols bj bi = true
         ∧ p.2 = (bj - tile_j * ts.1, bi - tile_i * ts.2).
Proof.
  unfold masked_pixels. rewrite map_fmap, list_elem_of_fmap. split.
  - intros ([[r c] [bj bi]] & -> & Hin).
    apply list_elem_of_filter in Hin as [Hmask Hin]. simpl in *.
    apply elem_of_cells, at2_zip2_Some in Hin as (x & y & Hx & Hy & Heq).
    simplify_eq. exists x, y. repeat split; try done.
    by apply Is_true_true.
  - intros (bj & bi & Hj & Hi & Hmask & Hp).
    destruct p as [[r c] sh]. simpl in *. subst sh.
    exists (r, c, (bj, bi)). split; [done|].
    apply list_elem_of_filter. split.
    + simpl. by apply Is_true_true.
    + apply elem_of_cells, at2_zip2_Some. eauto.
Qed.

Lemma tile_mask_range (ts : Z * Z) (tile_j tile_i rows cols bj bi : Z) :
  tile_mask ts tile_j tile_i rows cols bj bi = true →
  0 ≤ bj - tile_j * ts.1 < rows ∧ 0 ≤ bi - tile_i * ts.2 < cols.
Proof. unfold tile_mask. lia. Qed.

(** Every position the mask selects is a position of the tile. *)
Lemma masked_pixels_in_range (block_i block_j : arr2 Z) (ts : Z * Z)
    (tile_j tile_i rows cols : Z) (p : nat * nat * (Z * Z)) :
  p ∈ masked_pixels block_i block_j ts tile_j tile_i rows cols →
  0 ≤ p.2.1 < rows ∧ 0 ≤ p.2.2 < cols.
Proof.
  intros (bj & bi & _ & _ & Hmask & Hp)%elem_of_masked_pixels.
  rewrite Hp. by apply tile_mask_range.
Qed.

(** A pixel at which the mask is false is not selected. *)
Lemma masked_pixels_unmasked (block_i block_j : arr2 Z) (ts : Z * Z)
    (tile_j tile_i rows cols : Z) (r c : nat) (bj bi : Z) :
  at2 block_j r c = Some bj → at2 block_i r c = Some bi →
  tile_mask ts tile_j tile_i rows cols bj bi = false →
  ∀ p, p ∈ masked_pixels block_i block_j ts tile_j tile_i rows cols →
       p.1 ≠ (r, c).
Proof.
  intros Hj Hi Hmask p (bj' & bi' & Hj' & Hi' & Hm & _)%elem_of_masked_pixels
    Heq.
  destruct p as [[r' c'] sh]. simpl in *. simplify_eq. congruence.
Qed.

Lemma foldl_set2_other (l : list ((nat * nat * (Z * Z)) * F)) (d : arr2 F)
    (r c : nat) :
  (∀ pv, pv ∈ l → pv.1.1 ≠ (r, c)) →
  at2 (foldl (λ d (pv : (nat * nat * (Z * Z)) * F),
                set2 d (Z.of_nat pv.1.1.1) (Z.of_nat pv.1.1.2)
                  (to_float32 pv.2)) d l) r c
  = at2 d r c.
Proof.
  revert d. induction l as [|pv l IH]; intros d Hne; simpl; [done|].
  rewrite IH by (intros; apply Hne; by right).
  apply at2_set2_ne. rewrite !Nat2Z.id.
  specialize (Hne pv (list_elem_of_here _ _)).
  destruct pv as [[[r' c'] sh] v]. simpl in *. done.
Qed.

Lemma gather_band_ok (px : list (nat * nat * (Z * Z))) (m_band dst_band : arr2 F)
    (rows cols : Z) :
  rectangular rows cols m_band →
  (∀ p, p ∈ px → 0 ≤ p.2.1 < rows ∧ 0 ≤ p.2.2 < cols) →
  ∃ d', gather_band px m_band dst_band = Ok d'
        ∧ ∀ r c, (∀ p, p ∈ px → p.1 ≠ (r, c)) →
                 at2 d' r c = at2 dst_band r c.
Proof.
  intros Hrect Hpx. unfold gather_band.
  destruct (traverse_ok (λ p : nat * nat * (Z * Z),
                           np_index2 m_band p.2.1 p.2.2) px)
    as (values & -> & Hlen).
  { intros p Hp. destruct (Hpx p Hp). by eapply np_index2_ok. }
  simpl. eexists. split; [done|]. intros r c Hne.
  apply foldl_set2_other. intros pv Hpv. apply Hne.
  destruct pv as [p v]. by apply elem_of_zip_l in Hpv.
Qed.

Lemma gather_ok (px : list (nat * nat * (Z * Z))) (rows cols : Z)
    (m dst_data : stack F) :
  length m = length dst_data →
  Forall (rectangular rows cols) m →
  (∀ p, p ∈ px → 0 ≤ p.2.1 < rows ∧ 0 ≤ p.2.2 < cols) →
  ∃ d', gather px m dst_data = Ok d'
        ∧ length d' = length dst_data
        ∧ ∀ r c, (∀ p, p ∈ px → p.1 ≠ (r, c)) →
            ∀ k band, d' !! k = Some band →
              ∃ band0, dst_data !! k = Some band0
                       ∧ at2 band r c = at2 band0 r c.
Proof.
  revert dst_data.
  induction m as [|mb m IH]; intros [|db dst] Hlen Hrect Hpx;
    simpl in Hlen; try discriminate.
  - exists []. simpl. split; [done|]. split; [done|].
    intros r c _ k band Hk. by rewrite lookup_nil in Hk.
  - apply Forall_cons in Hrect as [Hmb Hm].
    destruct (gather_band_ok px mb db rows cols Hmb Hpx) as (b & Hb & Hbo).
    destruct (IH dst) as (rest & Hrest & Hlr & Hro); [lia|done|done|].
    simpl. rewrite Hb. simpl. rewrite Hrest. simpl.
    exists (b :: rest). split; [done|]. split; [simpl; lia|].
    intros r c Hne [|k] band Hk; simpl in *.
    + simplify_eq. exists db. split; [done|]. by apply Hbo.
    + by apply Hro.
Qed.

Lemma stack_band_rectangular (nb : nat) (m : stack F) :
  well_shaped nb m → Forall (rectangular (stack_rows m) (stack_cols m)) m.
Proof. by intros [_ ?]. Qed.

Lemma rectify_tiles_ok (block_i block_j : arr2 Z) (ts : Z * Z)
    (num_blocks_i : Z) (nb : nat) (tms : list (Z * stack F))
    (dst_data : stack F) :
  length dst_data = nb →
  Forall (λ tm, well_shaped nb tm.2) tms →
  ∃ d', rectify_tiles block_i block_j ts num_blocks_i dst_data tms = Ok d'
        ∧ length d' = nb
        ∧ ∀ r c,
            (∀ tm p, tm ∈ tms →
               p ∈ masked_pixels block_i block_j ts
                     (np_floordiv tm.1 num_blocks_i)
                     (np_mod tm.1 num_blocks_i)
                     (stack_rows tm.2) (stack_cols tm.2) →
               p.1 ≠ (r, c)) →
            ∀ k band, d' !! k = Some band →
              ∃ band0, dst_data !! k = Some band0
                       ∧ at2 band r c = at2 band0 r c.
Proof.
  revert dst_data.
  induction tms as [|[tile m] tms IH]; intros dst Hlen Hws; simpl.
  - exists dst. repeat split; try done. intros. eauto.
  - apply Forall_cons in Hws as [[Hnb Hrect] Hws]. simpl in *.
    destruct (gather_ok
                (masked_pixels block_i block_j ts
                   (np_floordiv tile num_blocks_i) (np_mod tile num_blocks_i)
                   (stack_rows m) (stack_cols m))
                (stack_rows m) (stack_cols m) m dst)
      as (d1 & Hd1 & Hl1 & Ho1); [lia|done| |].
    { intros p Hp. by eapply masked_pixels_in_range. }
    unfold rectify_tile. rewrite Hd1. simpl.
    destruct (IH d1) as (d2 & Hd2 & Hl2 & Ho2); [lia|done|].
    exists d2. split; [done|]. split; [done|].
    intros r c Hne k band Hk.
    destruct (Ho2 r c) with (k := k) (band := band)
      as (band1 & Hk1 & Heq1); [|done|].
    { intros tm p Htm. apply Hne. by right. }
    destruct (Ho1 r c) with (k := k) (band := band1)
      as (band0 & Hk0 & Heq0); [|done|].
    { intros p Hp. by apply (Hne (tile, m) p (list_elem_of_here _ _)). }
    exists band0. split; [done|]. congruence.
Qed.
End ResamplerProofs.

(** C10. For arbitrary integer inverse-index blocks (among them the [-1]
    put in for NaN and indices outside the source image) and every fetched
    source tile whose bands have the shape the stack reports, the gather of
    [rectify_tiles_to_block] reads a position [(shifted_j, shifted_i)] only
    where the mask holds, and there [0 <= shifted_j < rows] and
    [0 <= shifted_i < cols]: every read succeeds, the function returns, and
    a destination pixel at which no tile's mask holds is still NaN in every
    band. *)
Theorem resampler_reads_in_range {F : Type} `{FloatOps F}
    (block_i block_j : arr2 Z) (tx ty : Z) (src_tilesize : Z * Z)
    (num_blocks_i : Z) (tiles : list Z) (measurements : list (stack F))
    (m0 : stack F) (rest : list (stack F)) :
  measurements = m0 :: rest →
  Forall (well_shaped (length m0)) measurements →
  (∀ tile m p,
     (tile, m) ∈ zip tiles measurements →
     p ∈ masked_pixels block_i block_j src_tilesize
           (np_floordiv tile num_blocks_i) (np_mod tile num_blocks_i)
           (stack_rows m) (stack_cols m) →
     (0 ≤ p.2.1 < stack_rows m ∧ 0 ≤ p.2.2 < stack_cols m)
     ∧ ∀ band, band ∈ m → ∃ v, np_index2 band p.2.1 p.2.2 = Ok v)
  ∧ ∃ dst_data,
      rectify_tiles_to_block block_i block_j tx ty src_tilesize
        num_blocks_i tiles measurements = Ok dst_data
      ∧ length dst_data = length m0
      ∧ ∀ r c bj bi,
          at2 block_j r c = Some bj → at2 block_i r c = Some bi →
          (∀ tile m, (tile, m) ∈ zip tiles measurements →
             tile_mask src_tilesize
               (np_floordiv tile num_blocks_i) (np_mod tile num_blocks_i)
               (stack_rows m) (stack_cols m) bj bi = false) →
          ∀ band, band ∈ dst_data → at2 band r c = Some fnan.
Proof.
  intros Hms Hws.
  assert (Hzip : Forall (λ tm : Z * stack F, well_shaped (length m0) tm.2)
                   (zip tiles measurements)).
  { rewrite Forall_forall in Hws. apply Forall_forall. intros [tile m] Htm.
    apply Hws. by apply elem_of_zip_r in Htm. }
  split.
  - intros tile m p Htm Hp.
    pose proof (masked_pixels_in_range _ _ _ _ _ _ _ _ Hp) as Hrange.
    split; [done|]. intros band Hband.
    rewrite Forall_forall in Hzip.
    destruct (Hzip _ Htm) as [_ Hrect]. simpl in Hrect.
    rewrite Forall_forall in Hrect.
    destruct Hrange. by eapply np_index2_ok; [apply Hrect|..].
  - unfold rectify_tiles_to_block. rewrite Hms. rewrite <- Hms.
    destruct (rectify_tiles_ok block_i block_j src_tilesize num_blocks_i
                (length m0) (zip tiles measurements)
                (replicate (length m0) (map2 (λ _ : Z, fnan) block_j)))
      as (d & Hd & Hlen & Hother); [by rewrite length_replicate|done|].
    exists d. split; [done|]. split; [done|].
    intros r c bj bi Hj Hi Hmask band Hband.
    apply list_elem_of_lookup in Hband as [k Hk].
    destruct (Hother r c) with (k := k) (band := band)
      as (band0 & Hk0 & Heq); [|done|].
    { intros tm p Htm Hp. destruct tm as [tile m].
      eapply masked_pixels_unmasked; [exact Hj|exact Hi| |exact Hp].
      by apply Hmask. }
    apply lookup_replicate in Hk0 as [-> _].
    rewrite Heq, at2_map2, Hj. done.
Qed.

Lemma resampler_reads_in_range_witness :
  ∃ dst_data,
    rectify_tiles_to_block [[0; -1]] [[0; -1]] 0 0 (1, 1) 1 [0]
      [[[[of_int 7 : B64.t]]]] = Ok dst_data
    ∧ ∀ band, band ∈ dst_data → at2 band 0 1 = Some fnan.
Proof.
  destruct (resampler_reads_in_range (F := B64.t) [[0; -1]] [[0; -1]] 0 0
              (1, 1) 1 [0] [[[[of_int 7]]]] [[[of_int 7]]] [] eq_refl)
    as [_ (d & Hd & _ & Hnan)].
  { repeat constructor. }
  exists d. split; [exact Hd|]. intros band Hband.
  apply (Hnan 0%nat 1%nat (-1) (-1) eq_refl eq_refl); [|exact Hband].
  intros tile m Htm. apply list_elem_of_singleton in Htm. simplify_eq.
  reflexivity.
Defined.

(** ** Empty coverage *)

(** C6, as the code behaves. A destination block whose inverse index is NaN
    throughout needs no source tile, so [rectify_tiles_to_block] is called
    with no measurement stacks and [measurements[0]] raises IndexError. This
    happens on the repository's own test image and grid: destination tile
    (1, 1) is covered by no triangle, its inverse index is NaN, and
    computing the rectified measurement raises instead of yielding NaN. *)
Theorem empty_coverage_raises :
  (∀ (F : Type) (ops : FloatOps F) (block_i block_j : arr2 Z) (tx ty : Z)
     (src_tilesize : Z * Z) (num_blocks_i : Z),
     rectify_tiles_to_block (F := F) block_i block_j tx ty src_tilesize
       num_blocks_i [] []
     = Raise (IndexError "tuple index out of range"))
  ∧ (∃ inverse,
       inverse_pipeline identity_trafo test_grid test_lon test_lat
       = Ok inverse
       ∧ at2 inverse 1 1 = Some ([[fnan]], [[fnan]]))
  ∧ rectify_pipeline identity_trafo test_grid test_lon test_lat
      [test_measurement]
    = Raise (IndexError "tuple index out of range").
Proof.
  split; [reflexivity|]. split.
  - eexists. split; [vm_compute; reflexivity|]. reflexivity.
  - vm_compute. reflexivity.
Qed.

(** ** Inverse index at a source pixel's location *)

(** C1, as the code behaves. On the aligned image every source pixel
    [(col, row)] is projected onto the centre of destination pixel
    [(col, row)] (its forward index), and every destination pixel is covered.
    The inverse index recorded there is [(col + 0.5, row + 0.5)], the local
    position plus the [src_offset = origin + 0.5] that
    [create_inverse_pixel_index] passes: half a pixel away from the source
    pixel in both channels, not within 0.001. The resampler rounds it with
    [np.around], so source column 1 becomes 2, a column the image does not
    have, and rectification fails on the tile number computed from it. *)
Theorem aligned_inverse_index_half_pixel_off :
  block_dst_pixels_of_src_block
    [[lit 5 10; lit 15 10]; [lit 5 10; lit 15 10]]
    [[lit 5 10; lit 5 10]; [lit 15 10; lit 15 10]]
    identity_trafo aligned_grid
  = ([[0; 1]; [0; 1]], [[0; 0]; [1; 1]])
  ∧ inverse_pipeline identity_trafo aligned_grid aligned_lon aligned_lat
    = Ok [[ ([[lit 5 10; lit 15 10]; [lit 5 10; lit 15 10]],
             [[lit 5 10; lit 5 10]; [lit 15 10; lit 15 10]]) ]]
  ∧ fle (fsub (lit 15 10) (of_int 1)) (uv_delta (F := B64.t)) = false
  ∧ map2 to_index [[lit 5 10; lit 15 10 : B64.t]; [lit 5 10; lit 15 10]]
    = [[0; 2]; [0; 2]]
  ∧ rectify_pipeline identity_trafo aligned_grid aligned_lon aligned_lat
      [aligned_measurement]
    = Raise (IndexError "index out of bounds").
Proof. vm_compute. repeat split; reflexivity. Qed.

(** ** Uncovered pixels of the inverse index *)

Lemma foldl_invariant {A B} (P : A → Prop) (f : A → B → A) (l : list B)
    (a : A) :
  P a → (∀ a x, x ∈ l → P a → P (f a x)) → P (foldl f a l).
Proof.
  revert a. induction l as [|x l IH]; intros a Ha Hstep; simpl; [done|].
  apply IH.
  - apply Hstep; [left|done].
  - intros a' y Hy. apply Hstep. by right.
Qed.

Section InverseProofs.
Context {F : Type} `{FloatOps F}.

(** The painter loop writes a destination pixel only from a triangle that
    contains it: a pixel that no triangle of the subset covers keeps what
    it had, NaN after the initialisation, in both channels. *)
Lemma paint_keeps_uncovered (quads : list (QuadData F)) (src_offset : F * F)
    (dst_width dst_height bboxes_max_width bboxes_max_height : Z)
    (result : canvas F) (r c : nat) :
  (∀ q i_offset j_offset, q ∈ quads →
     ¬ covers_a q dst_width dst_height i_offset j_offset r c
     ∧ ¬ covers_b q dst_width dst_height i_offset j_offset r c) →
  let painted := paint quads src_offset dst_width dst_height
                   bboxes_max_width bboxes_max_height result in
  at2 painted.1 r c = at2 result.1 r c
  ∧ at2 painted.2 r c = at2 result.2 r c.
Proof.
  intros Hun. simpl. unfold paint.
  apply (foldl_invariant
           (λ res : canvas F, at2 res.1 r c = at2 result.1 r c
                              ∧ at2 res.2 r c = at2 result.2 r c));
    [done|].
  intros res1 j_offset _ Hres1. apply foldl_invariant; [done|].
  intros res2 i_offset _ Hres2. unfold paint_offset.
  apply foldl_invariant; [apply foldl_invariant; [done|]|].
  - intros res3 q Hq [H1 H2]. unfold paint_a.
    destruct (is_inside_triangle _ _ _ _ _ _) eqn:Hin; [|done].
    simpl. assert (Hne : (Z.to_nat (q_min_j q + j_offset),
                          Z.to_nat (q_min_i q + i_offset)) ≠ (r, c)).
    { intros Heq. destruct (Hun q i_offset j_offset Hq) as [Hna _].
      apply Hna. unfold covers_a. simpl. by simplify_eq. }
    by rewrite !at2_set2_ne.
  - intros res3 q Hq [H1 H2]. unfold paint_b.
    destruct (is_inside_triangle _ _ _ _ _ _) eqn:Hin; [|done].
    simpl. assert (Hne : (Z.to_nat (q_min_j q + j_offset),
                          Z.to_nat (q_min_i q + i_offset)) ≠ (r, c)).
    { intros Heq. destruct (Hun q i_offset j_offset Hq) as [_ Hnb].
      apply Hnb. unfold covers_b. simpl. by simplify_eq. }
    by rewrite !at2_set2_ne.
Qed.
End InverseProofs.

(** ** The triangle mesh *)

Lemma at2_rows {A} (a : arr2 A) (r c : nat) (x : A) :
  at2 a r c = Some x ↔ ∃ row, a !! r = Some row ∧ row !! c = Some x.
Proof.
  unfold at2. destruct (a !! r) as [row|]; simpl; split.
  - intros Hx. by exists row.
  - intros (row' & Heq & Hx). by simplify_eq.
  - done.
  - intros (row' & Heq & _). done.
Qed.

Lemma py_slice_init {A} (l : list A) :
  py_slice 0 (-1) l = take (length l - 1)%nat l.
Proof.
  unfold py_slice. change (0 <? 0) with false. change (-1 <? 0) with true.
  cbv iota.
  replace (Z.to_nat (Z.max 0 (Z.min (Z.of_nat (length l)) 0))) with 0%nat
    by lia.
  simpl drop. f_equal. lia.
Qed.

Lemma lookup_py_slice_init {A} (l : list A) (i : nat) (x y : A) :
  l !! i = Some x → l !! S i = Some y → py_slice 0 (-1) l !! i = Some x.
Proof.
  intros Hx Hy. rewrite py_slice_init.
  apply lookup_lt_Some in Hy. rewrite lookup_take_lt by lia. done.
Qed.

Lemma at2_stack4 {F : Type} `{FloatOps F} (a : arr2 F) (r c : nat)
    (x00 x01 x10 x11 : F) :
  at2 a r c = Some x00 → at2 a r (S c) = Some x01 →
  at2 a (S r) c = Some x10 → at2 a (S r) (S c) = Some x11 →
  at2 (stack4 a) r c = Some (x00, x01, x10, x11).
Proof.
  intros (row0 & Hr0 & H00)%at2_rows (row0' & Hr0' & H01)%at2_rows
         (row1 & Hr1 & H10)%at2_rows (row1' & Hr1' & H11)%at2_rows.
  simplify_eq.
  assert (Htop : py_slice 0 (-1) a !! r = Some row0)
    by (by eapply lookup_py_slice_init).
  assert (Hbot : drop 1 a !! r = Some row1) by (by rewrite lookup_drop).
  unfold stack4.
  apply at2_zip2_Some. exists (x00, x01), (x10, x11).
  split; [|split; [|done]].
  - apply at2_zip2; apply at2_rows; eexists;
      (split; [rewrite map_fmap, list_lookup_fmap, Htop; reflexivity|]).
    + by eapply lookup_py_slice_init.
    + by rewrite lookup_drop.
  - apply at2_zip2; apply at2_rows; eexists;
      (split; [rewrite map_fmap, list_lookup_fmap, Hbot; reflexivity|]).
    + by eapply lookup_py_slice_init.
    + by rewrite lookup_drop.
Qed.

(** X2. The quad at position [(r, c)] of the mesh is made of the source
    pixels [(r, c)], [(r, c + 1)], [(r + 1, c)] and [(r + 1, c + 1)], in this
    order P0 .. P3, each projected (not at all for a geographic grid) and
    expressed in fractional pixels of the destination block:
    [(x - x_min) / x_res - block column * tile_width] and the same in y. *)
Theorem quad_corners {F : Type} `{FloatOps F} (src_lon src_lat : arr2 F)
    (g : Grid F) (trafo : Transformer F) (block_id : Z * Z) (r c : nat)
    (lon00 lon01 lon10 lon11 lat00 lat01 lat10 lat11 : F) :
  at2 src_lon r c = Some lon00 → at2 src_lon r (S c) = Some lon01 →
  at2 src_lon (S r) c = Some lon10 → at2 src_lon (S r) (S c) = Some lon11 →
  at2 src_lat r c = Some lat00 → at2 src_lat r (S c) = Some lat01 →
  at2 src_lat (S r) c = Some lat10 → at2 src_lat (S r) (S c) = Some lat11 →
  let proj lon lat := if is_geographic g then (lon, lat) else trafo lon lat in
  let fi x := fsub (fdiv (fsub x (x_min g)) (x_res g))
                (of_int (block_id.2 * tile_width g)) in
  let fj y := fsub (fdiv (fsub y (y_min g)) (y_res g))
                (of_int (block_id.1 * tile_height g)) in
  let mesh := triangles_in_dst_pixel_grid src_lon src_lat g trafo block_id in
  at2 mesh.1 r c
  = Some (fi (proj lon00 lat00).1, fi (proj lon01 lat01).1,
          fi (proj lon10 lat10).1, fi (proj lon11 lat11).1)
  ∧ at2 mesh.2 r c
    = Some (fj (proj lon00 lat00).2, fj (proj lon01 lat01).2,
            fj (proj lon10 lat10).2, fj (proj lon11 lat11).2).
Proof.
  intros Ho00 Ho01 Ho10 Ho11 Ha00 Ha01 Ha10 Ha11 proj fi fj mesh.
  subst mesh proj. unfold triangles_in_dst_pixel_grid.
  destruct (is_geographic g); simpl.
  - split; apply at2_stack4; rewrite at2_map2;
      first [by rewrite Ho00 | by rewrite Ho01 | by rewrite Ho10
            | by rewrite Ho11 | by rewrite Ha00 | by rewrite Ha01
            | by rewrite Ha10 | by rewrite Ha11].
  - unfold transform.
    split; apply at2_stack4; rewrite at2_map2;
      first [by rewrite (at2_zip2 _ _ _ _ _ _ _ Ho00 Ha00)
            | by rewrite (at2_zip2 _ _ _ _ _ _ _ Ho01 Ha01)
            | by rewrite (at2_zip2 _ _ _ _ _ _ _ Ho10 Ha10)
            | by rewrite (at2_zip2 _ _ _ _ _ _ _ Ho11 Ha11)].
Qed.

Lemma quad_corners_witness :
  at2 (triangles_in_dst_pixel_grid (F := B64.t)
         [[lit 5 10; lit 15 10]; [lit 5 10; lit 15 10]]
         [[lit 5 10; lit 5 10]; [lit 15 10; lit 15 10]]
         aligned_grid identity_trafo (0, 0)).1 0 0
  = Some (lit 5 10, lit 15 10, lit 5 10, lit 15 10).
Proof.
  destruct (quad_corners (F := B64.t)
              [[lit 5 10; lit 15 10]; [lit 5 10; lit 15 10]]
              [[lit 5 10; lit 5 10]; [lit 15 10; lit 15 10]]
              aligned_grid identity_trafo (0, 0) 0 0
              (lit 5 10) (lit 15 10) (lit 5 10) (lit 15 10)
              (lit 5 10) (lit 5 10) (lit 15 10) (lit 15 10)
              eq_refl eq_refl eq_refl eq_refl eq_refl eq_refl eq_refl eq_refl)
    as [Hi _].
  rewrite Hi. vm_compute. reflexivity.
Defined.

(** ** Tile bounds *)


Lemma traverse_lookup {A B} (f : A → res B) (l : list A) (ys : list B)
    (i : nat) (x : A) :
  traverse f l = Ok ys → l !! i = Some x →
  ∃ y, f x = Ok y ∧ ys !! i = Some y.
Proof.
  revert ys i. induction l as [|a l IH]; intros ys i Htr Hi; [done|].
  simpl in Htr. destruct (f a) as [y|] eqn:Hfa; [|done].
  destruct (traverse f l) as [ys'|] eqn:Hrest; [|done]. simplify_eq.
  destruct i as [|i]; simpl in *.
  - simplify_eq. eauto.
  - by apply IH.
Qed.

Lemma elem_of_concat_at2 {A} (a : arr2 A) (x : A) :
  x ∈ concat a ↔ ∃ r c, at2 a r c = Some x.
Proof.
  rewrite concat_join, list_elem_of_join. split.
  - intros (row & Hx & Hrow).
    apply list_elem_of_lookup in Hrow as [r Hr].
    apply list_elem_of_lookup in Hx as [c Hc].
    exists r, c. apply at2_rows. eauto.
  - intros (r & c & (row & Hr & Hc)%at2_rows).
    exists row. split; by eapply list_elem_of_lookup_2.
Qed.

Lemma elem_of_select {A} (mask : arr2 bool) (a : arr2 A) (x : A) :
  x ∈ select mask a ↔
  ∃ r c, at2 mask r c = Some true ∧ at2 a r c = Some x.
Proof.
  unfold select. rewrite map_fmap, list_elem_of_fmap. split.
  - intros ([b y] & -> & Hin). apply list_elem_of_filter in Hin as [Hb Hin].
    simpl in Hb. apply Is_true_true in Hb. subst b.
    apply elem_of_concat_at2 in Hin as (r & c & Hrc).
    apply at2_zip2_Some in Hrc as (b & y' & Hm & Ha & Heq). simplify_eq.
    eauto.
  - intros (r & c & Hm & Ha). exists (true, x). split; [done|].
    apply list_elem_of_filter. split; [done|].
    apply elem_of_concat_at2. exists r, c. by apply at2_zip2.
Qed.

Lemma foldl_min_spec (l : list Z) (x : Z) :
  (foldl Z.min x l = x ∨ foldl Z.min x l ∈ l)
  ∧ foldl Z.min x l ≤ x ∧ ∀ y, y ∈ l → foldl Z.min x l ≤ y.
Proof.
  revert x. induction l as [|a l IH]; intros x; simpl.
  - split; [by left|]. split; [lia|]. intros y Hy. by apply elem_of_nil in Hy.
  - destruct (IH (Z.min x a)) as (Hin & Hle & Hall). split; [|split].
    + destruct Hin as [Heq|Hin].
      * rewrite Heq. destruct (Z.min_spec x a) as [[_ ->]|[_ ->]];
          [by left|right; left].
      * right. by right.
    + lia.
    + intros y [->|Hy]%elem_of_cons; [lia|by apply Hall].
Qed.

Lemma foldl_max_spec (l : list Z) (x : Z) :
  (foldl Z.max x l = x ∨ foldl Z.max x l ∈ l)
  ∧ x ≤ foldl Z.max x l ∧ ∀ y, y ∈ l → y ≤ foldl Z.max x l.
Proof.
  revert x. induction l as [|a l IH]; intros x; simpl.
  - split; [by left|]. split; [lia|]. intros y Hy. by apply elem_of_nil in Hy.
  - destruct (IH (Z.max x a)) as (Hin & Hle & Hall). split; [|split].
    + destruct Hin as [Heq|Hin].
      * rewrite Heq. destruct (Z.max_spec x a) as [[_ ->]|[_ ->]];
          [right; left|by left].
      * right. by right.
    + lia.
    + intros y [->|Hy]%elem_of_cons; [lia|by apply Hall].
Qed.

Lemma np_min_spec (l : list Z) :
  l ≠ [] → ∃ m, np_min l = Ok m ∧ m ∈ l ∧ ∀ y, y ∈ l → m ≤ y.
Proof.
  destruct l as [|x l]; [done|]. intros _. simpl. eexists. split; [done|].
  destruct (foldl_min_spec l x) as (Hin & Hle & Hall). split.
  - destruct Hin as [->|Hin]; [left|by right].
  - intros y [->|Hy]%elem_of_cons; [done|by apply Hall].
Qed.

Lemma np_max_spec (l : list Z) :
  l ≠ [] → ∃ m, np_max l = Ok m ∧ m ∈ l ∧ ∀ y, y ∈ l → y ≤ m.
Proof.
  destruct l as [|x l]; [done|]. intros _. simpl. eexists. split; [done|].
  destruct (foldl_max_spec l x) as (Hin & Hle & Hall). split.
  - destruct Hin as [->|Hin]; [left|by right].
  - intros y [->|Hy]%elem_of_cons; [done|by apply Hall].
Qed.

Lemma lookup_py_range (n : Z) (k : nat) :
  Z.of_nat k < n → py_range n !! k = Some (Z.of_nat k).
Proof.
  intros Hk. unfold py_range. rewrite map_fmap, list_lookup_fmap.
  rewrite lookup_seq_lt by lia. done.
Qed.

Lemma length_py_range (n : Z) : length (py_range n) = Z.to_nat n.
Proof. unfold py_range. by rewrite length_map, length_seq. Qed.

Lemma transpose_replicate {A} (n : nat) (v : list A) :
  (0 < n)%nat → transpose (replicate n v) = map (replicate n) v.
Proof.
  intros Hn. unfold transpose.
  assert (Hc : ncols (replicate n v) = length v) by (by destruct n; [lia|]).
  rewrite Hc. clear Hc Hn.
  induction n as [|n IH]; simpl.
  - induction v as [|x v IHv]; simpl; [done|]. by rewrite IHv.
  - rewrite IH. clear IH.
    induction v as [|x v IHv]; simpl; [done|]. by rewrite IHv.
Qed.

Lemma at2_local_cols (nr nc r c : nat) :
  (r < nr)%nat → (c < nc)%nat →
  at2 (replicate nr (py_range (Z.of_nat nc))) r c = Some (Z.of_nat c).
Proof.
  intros Hr Hc. apply at2_rows. eexists. split.
  - by apply lookup_replicate_2.
  - apply lookup_py_range. lia.
Qed.

Lemma at2_local_rows (nr nc r c : nat) :
  (r < nr)%nat → (c < nc)%nat →
  at2 (transpose (replicate nc (py_range (Z.of_nat nr)))) r c
  = Some (Z.of_nat r).
Proof.
  intros Hr Hc. rewrite transpose_replicate by lia.
  apply at2_rows. eexists. split.
  - rewrite map_fmap, list_lookup_fmap, lookup_py_range by lia. reflexivity.
  - by apply lookup_replicate_2.
Qed.

Lemma rectangular_at2 {A} (a : arr2 A) (r c : nat) (x : A) :
  rectangular (Z.of_nat (nrows a)) (Z.of_nat (ncols a)) a →
  at2 a r c = Some x → (r < nrows a)%nat ∧ (c < ncols a)%nat.
Proof.
  intros [_ Hcols] (row & Hr & Hc)%at2_rows.
  rewrite Forall_forall in Hcols. split.
  - by apply lookup_lt_Some in Hr.
  - apply lookup_lt_Some in Hc.
    specialize (Hcols row (list_elem_of_lookup_2 _ _ _ Hr)). lia.
Qed.

Lemma wrap32_small (z : Z) : - 2 ^ 31 ≤ z < 2 ^ 31 → wrap32 z = z.
Proof. intros Hz. unfold wrap32. rewrite Z.mod_small; lia. Qed.

Lemma wrap64_small (z : Z) : - 2 ^ 63 ≤ z < 2 ^ 63 → wrap64 z = z.
Proof. intros Hz. unfold wrap64. rewrite Z.mod_small; lia. Qed.

Lemma at2_inside (fi fj : arr2 Z) (down up left right : Z) (r c : nat) :
  at2 (zip2 andb (map2 (λ j, (down <=? j) && (j <? up)) fj)
                 (map2 (λ i, (left <=? i) && (i <? right)) fi)) r c
  = Some true
  ↔ forward_within fi fj down up left right r c.
Proof.
  rewrite at2_zip2_Some. setoid_rewrite at2_map2. split.
  - intros (bj & bi & Hj & Hi & Hb).
    destruct (at2 fj r c) as [j|] eqn:Ej; [|done].
    destruct (at2 fi r c) as [i|] eqn:Ei; [|done].
    simpl in *. simplify_eq. exists i, j.
    symmetry in Hb. rewrite !andb_true_iff, !Z.leb_le, !Z.ltb_lt in Hb.
    repeat split; try done; lia.
  - intros (i & j & Hi & Hj & Hri & Hrj). rewrite Hi, Hj. simpl.
    eexists _, _. split; [done|]. split; [done|].
    symmetry. rewrite !andb_true_iff, !Z.leb_le, !Z.ltb_lt. lia.
Qed.

Section Entry.
Context (fi fj : arr2 Z) (src_size : Z * Z) (off_r off_c : Z)
        (down up left right : Z).
Context (Hfi : rectangular (Z.of_nat (nrows fi)) (Z.of_nat (ncols fi)) fi).

Let inside := zip2 andb (map2 (λ j, (down <=? j) && (j <? up)) fj)
                        (map2 (λ i, (left <=? i) && (i <? right)) fi).
Let local_cols := replicate (nrows fi) (py_range (Z.of_nat (ncols fi))).
Let local_rows :=
  transpose (replicate (ncols fi) (py_range (Z.of_nat (nrows fi)))).

Lemma elem_of_block_cols (x : Z) :
  x ∈ map (λ c, c + off_c) (select inside local_cols) ↔
  ∃ r c, forward_within fi fj down up left right r c
         ∧ x = Z.of_nat c + off_c.
Proof using Hfi.
  rewrite map_fmap, list_elem_of_fmap. setoid_rewrite elem_of_select.
  subst inside. setoid_rewrite at2_inside. split.
  - intros (y & -> & r & c & Hw & Hy).
    exists r, c. split; [done|].
    destruct Hw as (i & j & Hi & _).
    destruct (rectangular_at2 fi r c i Hfi Hi).
    subst local_cols. rewrite at2_local_cols in Hy by done. by simplify_eq.
  - intros (r & c & Hw & ->). exists (Z.of_nat c). split; [done|].
    exists r, c. split; [done|].
    destruct Hw as (i & j & Hi & _).
    destruct (rectangular_at2 fi r c i Hfi Hi).
    subst local_cols. by apply at2_local_cols.
Qed.

Lemma elem_of_block_rows (x : Z) :
  x ∈ map (λ r, r + off_r) (select inside local_rows) ↔
  ∃ r c, forward_within fi fj down up left right r c
         ∧ x = Z.of_nat r + off_r.
Proof using Hfi.
  rewrite map_fmap, list_elem_of_fmap. setoid_rewrite elem_of_select.
  subst inside. setoid_rewrite at2_inside. split.
  - intros (y & -> & r & c & Hw & Hy).
    exists r, c. split; [done|].
    destruct Hw as (i & j & Hi & _).
    destruct (rectangular_at2 fi r c i Hfi Hi).
    subst local_rows. rewrite at2_local_rows in Hy by done. by simplify_eq.
  - intros (r & c & Hw & ->). exists (Z.of_nat r). split; [done|].
    exists r, c. split; [done|].
    destruct Hw as (i & j & Hi & _).
    destruct (rectangular_at2 fi r c i Hfi Hi).
    subst local_rows. by apply at2_local_rows.
Qed.

Lemma forward_within_cases :
  (∃ r c, forward_within fi fj down up left right r c)
  ∨ (∀ r c, ¬ forward_within fi fj down up left right r c).
Proof using Hfi off_c.
  destruct (map (λ c, c + off_c) (select inside local_cols)) as [|x l] eqn:E.
  - right. intros r c Hw.
    assert (Hin : Z.of_nat c + off_c
                  ∈ map (λ c, c + off_c) (select inside local_cols))
      by (apply elem_of_block_cols; eauto).
    rewrite E in Hin. by apply elem_of_nil in Hin.
  - left. assert (Hin : x ∈ map (λ c, c + off_c) (select inside local_cols))
      by (rewrite E; left).
    apply elem_of_block_cols in Hin as (r & c & Hw & _). eauto.
Qed.

Context (Hrows : 0 ≤ off_r ∧ off_r + Z.of_nat (nrows fi) ≤ src_size.1
                 ∧ src_size.1 < 2 ^ 31).
Context (Hcols : 0 ≤ off_c ∧ off_c + Z.of_nat (ncols fi) ≤ src_size.2
                 ∧ src_size.2 < 2 ^ 31).

Lemma bbox_entry_spec :
  ∃ b, bbox_entry fi fj src_size off_r off_c local_rows local_cols
         down up left right = Ok b
   ∧ (((∀ r c, ¬ forward_within fi fj down up left right r c)
       ∧ b = (src_size.2, src_size.1, -1, -1))
      ∨ ∃ min_col max_col min_row max_row,
          is_min_over (forward_within fi fj down up left right)
            (λ r c, Z.of_nat c + off_c) min_col
          ∧ is_max_over (forward_within fi fj down up left right)
              (λ r c, Z.of_nat c + off_c) max_col
          ∧ is_min_over (forward_within fi fj down up left right)
              (λ r c, Z.of_nat r + off_r) min_row
          ∧ is_max_over (forward_within fi fj down up left right)
              (λ r c, Z.of_nat r + off_r) max_row
          ∧ b = (Z.max (min_col - 1) 0, Z.max (min_row - 1) 0,
                 Z.min (max_col + 2) src_size.2,
                 Z.min (max_row + 2) src_size.1)).
Proof using Hfi Hrows Hcols.
  unfold bbox_entry. fold inside.
  pose proof elem_of_block_cols as Hc. pose proof elem_of_block_rows as Hr.
  fold inside local_cols in Hc. fold inside local_rows in Hr.
  set (cols := map (λ c, c + off_c) (select inside local_cols)) in *.
  set (rows := map (λ r, r + off_r) (select inside local_rows)) in *.
  assert (Hbound : ∀ r c, forward_within fi fj down up left right r c →
            (r < nrows fi)%nat ∧ (c < ncols fi)%nat).
  { intros r c (i & j & Hi & _). by eapply rectangular_at2. }
  destruct forward_within_cases as [(r0 & c0 & H0)|Hnone].
  - assert (Hcne : cols ≠ []).
    { intros Heq. assert (Hin : Z.of_nat c0 + off_c ∈ cols)
        by (apply Hc; eauto). rewrite Heq in Hin.
      by apply elem_of_nil in Hin. }
    assert (Hrne : rows ≠ []).
    { intros Heq. assert (Hin : Z.of_nat r0 + off_r ∈ rows)
        by (apply Hr; eauto). rewrite Heq in Hin.
      by apply elem_of_nil in Hin. }
    destruct (np_min_spec cols Hcne) as (mc & Emc & Hmc & Hmcle).
    destruct (np_max_spec cols Hcne) as (xc & Exc & Hxc & Hxcle).
    destruct (np_min_spec rows Hrne) as (mr & Emr & Hmr & Hmrle).
    destruct (np_max_spec rows Hrne) as (xr & Exr & Hxr & Hxrle).
    assert (Hlc : (0 <? length cols)%nat = true)
      by (destruct cols; [done|reflexivity]).
    assert (Hlr : (0 <? length rows)%nat = true)
      by (destruct rows; [done|reflexivity]).
    rewrite Hlc, Hlr, Emc, Exc, Emr, Exr. simpl.
    apply Hc in Hmc as (r1 & c1 & Hw1 & ->).
    apply Hc in Hxc as (r2 & c2 & Hw2 & ->).
    apply Hr in Hmr as (r3 & c3 & Hw3 & ->).
    apply Hr in Hxr as (r4 & c4 & Hw4 & ->).
    pose proof (Hbound _ _ Hw1). pose proof (Hbound _ _ Hw2).
    pose proof (Hbound _ _ Hw3). pose proof (Hbound _ _ Hw4).
    unfold nrows, ncols in *.
    eexists. split.
    { rewrite !wrap32_small by lia. reflexivity. }
    right. eexists _, _, _, _. repeat split; eauto.
    + intros r c Hw. apply Hmcle, Hc. eauto.
    + intros r c Hw. apply Hxcle, Hc. eauto.
    + intros r c Hw. apply Hmrle, Hr. eauto.
    + intros r c Hw. apply Hxrle, Hr. eauto.
  - assert (Hce : cols = []).
    { destruct cols as [|x l] eqn:E; [done|]. exfalso.
      assert (Hin : x ∈ x :: l) by left. apply Hc in Hin as (r & c & Hw & _).
      by eapply Hnone. }
    assert (Hre : rows = []).
    { destruct rows as [|x l] eqn:E; [done|]. exfalso.
      assert (Hin : x ∈ x :: l) by left. apply Hr in Hin as (r & c & Hw & _).
      by eapply Hnone. }
    rewrite Hce, Hre. simpl. eexists. split.
    { rewrite !wrap32_small by (unfold nrows, ncols in *; lia). reflexivity. }
    left. split; [|done]. exact Hnone.
Qed.
End Entry.

Lemma length_tail' {A} (l : list A) : length (tail l) = (length l - 1)%nat.
Proof. destruct l; simpl; lia. Qed.

Lemma ceil_frac_bounds (a d : Z) :
  0 < d → (ceil_frac a d - 1) * d < a ≤ ceil_frac a d * d.
Proof.
  intros Hd. unfold ceil_frac.
  pose proof (Z.div_mod (- a) d ltac:(lia)) as Hdm.
  pose proof (Z.mod_pos_bound (- a) d Hd) as Hm. nia.
Qed.

Lemma np_arange_ok (stop step : Z) :
  0 < step →
  np_arange stop step
  = Ok (map (λ k, k * step) (py_range (ceil_frac stop step))).
Proof. intros Hs. unfold np_arange. destruct (step =? 0) eqn:E; [lia|done]. Qed.

Lemma ceil_div_ok (a b : Z) : 0 < b → ceil_div a b = Ok (ceil_frac a b).
Proof. intros Hb. unfold ceil_div. destruct (b =? 0) eqn:E; [lia|done]. Qed.

(** The borders of destination block [k] along one axis. *)
Lemma tile_borders (size tile k : Z) :
  0 < tile → 0 ≤ k < ceil_frac size tile →
  let lefts := map (λ k, k * tile) (py_range (ceil_frac size tile)) in
  np_index lefts k = Ok (k * tile)
  ∧ np_index (tail lefts ++ [size]) k = Ok (Z.min ((k + 1) * tile) size).
Proof.
  intros Ht Hk lefts.
  pose proof (ceil_frac_bounds size tile Ht) as Hb.
  assert (Hlen : length lefts = Z.to_nat (ceil_frac size tile)).
  { subst lefts. by rewrite length_map, length_py_range. }
  assert (Hl : ∀ i : nat, Z.of_nat i < ceil_frac size tile →
            lefts !! i = Some (Z.of_nat i * tile)).
  { intros i Hi. subst lefts.
    rewrite map_fmap, list_lookup_fmap, lookup_py_range by done. done. }
  split.
  - destruct (np_index_ok lefts k) as (x & -> & Hx); [lia|].
    rewrite Hl in Hx by lia. f_equal. simplify_eq. f_equal. lia.
  - assert (Hlen' : length (tail lefts ++ [size]) = length lefts).
    { rewrite length_app, length_tail'. simpl. lia. }
    destruct (np_index_ok (tail lefts ++ [size]) k) as (x & -> & Hx); [lia|].
    f_equal. destruct (decide (k + 1 < ceil_frac size tile)) as [Hlt|Hge].
    + rewrite lookup_app_l in Hx by (rewrite length_tail'; lia).
      rewrite lookup_tail in Hx.
      rewrite Hl in Hx by lia. simplify_eq. nia.
    + rewrite lookup_app_r in Hx by (rewrite length_tail'; lia).
      rewrite length_tail' in Hx.
      replace (Z.to_nat k - (length lefts - 1))%nat with 0%nat in Hx by lia.
      simpl in Hx. simplify_eq. nia.
Qed.

Lemma py_range_lookup_Z (n k : Z) :
  0 ≤ k < n → py_range n !! Z.to_nat k = Some k.
Proof.
  intros Hk. rewrite lookup_py_range by lia. f_equal. lia.
Qed.

Lemma elem_of_py_range (n k : Z) : k ∈ py_range n → 0 ≤ k < n.
Proof.
  unfold py_range. rewrite map_fmap, list_elem_of_fmap.
  intros (i & -> & Hi). apply elem_of_seq in Hi. lia.
Qed.

(** The result of [dst_bboxes_of_src_block] holds, for every destination
    block, the entry the loop body computes for the borders of that block. *)
Lemma dst_bboxes_entries {F : Type} (fi fj : arr2 Z) (g : Grid F)
    (src_tile_size src_size block_id : Z * Z) :
  let entry := bbox_entry fi fj src_size
                 (block_id.1 * src_tile_size.1) (block_id.2 * src_tile_size.2)
                 (transpose (replicate (ncols fi) (py_range (Z.of_nat (nrows fi)))))
                 (replicate (nrows fi) (py_range (Z.of_nat (ncols fi)))) in
  0 < tile_width g → 0 < tile_height g →
  (∀ down up left right, ∃ b, entry down up left right = Ok b) →
  ∃ boxes,
    dst_bboxes_of_src_block fi fj g src_tile_size src_size block_id = Ok boxes
    ∧ ∀ tj ti,
        0 ≤ tj < ceil_frac (height g) (tile_height g) →
        0 ≤ ti < ceil_frac (width g) (tile_width g) →
        ∃ b, box_at boxes tj ti = Ok b
             ∧ entry (tj * tile_height g)
                 (Z.min ((tj + 1) * tile_height g) (height g))
                 (ti * tile_width g)
                 (Z.min ((ti + 1) * tile_width g) (width g)) = Ok b.
Proof.
  intros entry Htw Hth Hentry.
  pose (lefts := map (λ k, k * tile_width g)
                   (py_range (ceil_frac (width g) (tile_width g)))).
  pose (downs := map (λ k, k * tile_height g)
                   (py_range (ceil_frac (height g) (tile_height g)))).
  pose (inner := λ down up (dst_block_i : Z),
          left ← np_index lefts dst_block_i;
          right ← np_index (tail lefts ++ [width g]) dst_block_i;
          entry down up left right).
  pose (outer := λ dst_block_j : Z,
          down ← np_index downs dst_block_j;
          up ← np_index (tail downs ++ [height g]) dst_block_j;
          traverse (inner down up)
            (py_range (ceil_frac (width g) (tile_width g)))).
  assert (Hfun : dst_bboxes_of_src_block fi fj g src_tile_size src_size
                   block_id
                 = traverse outer
                     (py_range (ceil_frac (height g) (tile_height g)))).
  { unfold dst_bboxes_of_src_block.
    rewrite (np_arange_ok _ _ Htw), (np_arange_ok _ _ Hth).
    rewrite (ceil_div_ok _ _ Htw), (ceil_div_ok _ _ Hth). reflexivity. }
  rewrite Hfun. clear Hfun.
  assert (Hinner : ∀ down up k, 0 ≤ k < ceil_frac (width g) (tile_width g) →
            inner down up k
            = entry down up (k * tile_width g)
                (Z.min ((k + 1) * tile_width g) (width g))).
  { intros down up k Hk. unfold inner, lefts.
    destruct (tile_borders (width g) (tile_width g) k Htw Hk) as [-> ->].
    reflexivity. }
  assert (Houter : ∀ k, 0 ≤ k < ceil_frac (height g) (tile_height g) →
            outer k
            = traverse (inner (k * tile_height g)
                          (Z.min ((k + 1) * tile_height g) (height g)))
                (py_range (ceil_frac (width g) (tile_width g)))).
  { intros k Hk. unfold outer, downs.
    destruct (tile_borders (height g) (tile_height g) k Hth Hk) as [-> ->].
    reflexivity. }
  destruct (traverse_ok outer
              (py_range (ceil_frac (height g) (tile_height g))))
    as (boxes & Hboxes & Hlen).
  { intros k Hk%elem_of_py_range. rewrite Houter by done.
    destruct (traverse_ok (inner (k * tile_height g)
                (Z.min ((k + 1) * tile_height g) (height g)))
                (py_range (ceil_frac (width g) (tile_width g))))
      as (row & Hrow & _); [|eauto].
    intros k' Hk'%elem_of_py_range. rewrite Hinner by done. apply Hentry. }
  exists boxes. split; [done|]. intros tj ti Htj Hti.
  destruct (traverse_lookup outer _ boxes (Z.to_nat tj) tj Hboxes)
    as (row & Hrow & Hbrow); [by apply py_range_lookup_Z|].
  rewrite Houter in Hrow by done.
  destruct (traverse_lookup _ _ row (Z.to_nat ti) ti Hrow)
    as (b & Hb & Hrb); [by apply py_range_lookup_Z|].
  rewrite Hinner in Hb by done.
  exists b. split; [|done].
  unfold box_at.
  destruct (np_index_ok boxes tj) as (row' & -> & Hrow').
  { rewrite Hlen, length_py_range. lia. }
  simplify_eq. cbn [mbind res_bind rbind].
  destruct (np_index_ok row ti) as (b' & -> & Hb'); [|by simplify_eq].
  apply lookup_lt_Some in Hrb. lia.
Qed.

(** X3. For a source block that lies inside a source image whose sizes fit
    int32, and for every destination block [(tj, ti)] of a grid with
    positive tile sizes, [dst_bboxes_of_src_block] returns, and its box for
    that block is the sentinel [(src_width, src_height, -1, -1)] when no
    pixel of the source block has its forward index in the block's pixel
    range [[ti * tile_width, min((ti + 1) * tile_width, width))] by
    [[tj * tile_height, min((tj + 1) * tile_height, height))], and otherwise
    [(max(min_col - 1, 0), max(min_row - 1, 0), min(max_col + 2, src_width),
    min(max_row + 2, src_height))] for the least and greatest global column
    and row of the pixels that have. *)
Theorem tile_bounds_box {F : Type} (fi fj : arr2 Z) (g : Grid F)
    (src_tile_size src_size block_id : Z * Z) (tj ti : Z) :
  let off_r := block_id.1 * src_tile_size.1 in
  let off_c := block_id.2 * src_tile_size.2 in
  let within :=
    forward_within fi fj
      (tj * tile_height g) (Z.min ((tj + 1) * tile_height g) (height g))
      (ti * tile_width g) (Z.min ((ti + 1) * tile_width g) (width g)) in
  0 < tile_width g → 0 < tile_height g →
  rectangular (Z.of_nat (nrows fi)) (Z.of_nat (ncols fi)) fi →
  0 ≤ off_r ∧ off_r + Z.of_nat (nrows fi) ≤ src_size.1 ∧ src_size.1 < 2 ^ 31 →
  0 ≤ off_c ∧ off_c + Z.of_nat (ncols fi) ≤ src_size.2 ∧ src_size.2 < 2 ^ 31 →
  0 ≤ tj < ceil_frac (height g) (tile_height g) →
  0 ≤ ti < ceil_frac (width g) (tile_width g) →
  ∃ boxes b,
    dst_bboxes_of_src_block fi fj g src_tile_size src_size block_id = Ok boxes
    ∧ box_at boxes tj ti = Ok b
    ∧ (((∀ r c, ¬ within r c) ∧ b = (src_size.2, src_size.1, -1, -1))
       ∨ ∃ min_col max_col min_row max_row,
           is_min_over within (λ r c, Z.of_nat c + off_c) min_col
           ∧ is_max_over within (λ r c, Z.of_nat c + off_c) max_col
           ∧ is_min_over within (λ r c, Z.of_nat r + off_r) min_row
           ∧ is_max_over within (λ r c, Z.of_nat r + off_r) max_row
           ∧ b = (Z.max (min_col - 1) 0, Z.max (min_row - 1) 0,
                  Z.min (max_col + 2) src_size.2,
                  Z.min (max_row + 2) src_size.1)).
Proof.
  intros off_r off_c within Htw Hth Hfi Hrows Hcols Htj Hti.
  destruct (dst_bboxes_entries fi fj g src_tile_size src_size block_id Htw Hth)
    as (boxes & Hboxes & Hat).
  { intros dn u lf rt.
    destruct (bbox_entry_spec fi fj src_size off_r off_c dn u lf rt
                Hfi Hrows Hcols) as (b & Hb & _).
    eauto. }
  destruct (Hat tj ti Htj Hti) as (b & Hb & Hentry).
  exists boxes, b. split; [done|]. split; [done|].
  destruct (bbox_entry_spec fi fj src_size off_r off_c
              (tj * tile_height g)
              (Z.min ((tj + 1) * tile_height g) (height g))
              (ti * tile_width g)
              (Z.min ((ti + 1) * tile_width g) (width g))
              Hfi Hrows Hcols) as (b' & Hb' & Hspec).
  fold off_r off_c in Hentry. rewrite Hb' in Hentry. by simplify_eq.
Qed.

Lemma tile_bounds_box_witness :
  ∃ boxes,
    dst_bboxes_of_src_block [[1; 2]; [1; 2]; [0; 1]] [[0; 0]; [0; 1]; [1; 2]]
      test_grid (3, 2) (4, 3) (0, 0) = Ok boxes
    ∧ box_at boxes 0 0 = Ok (0, 0, 2, 4).
Proof.
  destruct (tile_bounds_box [[1; 2]; [1; 2]; [0; 1]]
              [[0; 0]; [0; 1]; [1; 2]] test_grid (3, 2) (4, 3) (0, 0) 0 0)
    as (boxes & b & Hboxes & Hb & _).
  - reflexivity.
  - reflexivity.
  - split; [reflexivity|]. repeat constructor.
  - vm_compute. repeat split; congruence.
  - vm_compute. repeat split; congruence.
  - vm_compute. split; congruence.
  - vm_compute. split; congruence.
  - exists boxes. split; [exact Hboxes|].
    assert (Hev : dst_bboxes_of_src_block [[1; 2]; [1; 2]; [0; 1]]
                    [[0; 0]; [0; 1]; [1; 2]] test_grid (3, 2) (4, 3) (0, 0)
                  = Ok [[(0, 0, 2, 4); (0, 0, 3, 3)];
                        [(0, 1, 3, 4); (3, 4, -1, -1)]])
      by (vm_compute; reflexivity).
    rewrite Hev in Hboxes. injection Hboxes as <-. reflexivity.
Defined.

(** ** The merge of the tile bounds *)

Lemma is_least_union {A} (l : list A) (P : A → Z → Prop) :
  (∀ x, x ∈ l → (∀ z, ¬ P x z) ∨ ∃ m, is_least (P x) m) →
  (∀ x z, x ∈ l → ¬ P x z)
  ∨ ∃ m, is_least (λ z, ∃ x, x ∈ l ∧ P x z) m.
Proof.
  induction l as [|a l IH]; intros Hl.
  - left. intros x z Hx. by apply elem_of_nil in Hx.
  - destruct IH as [Hnone|(m & (x & Hx & Hm) & Hle)].
    { intros x Hx. apply Hl. by right. }
    + destruct (Hl a (list_elem_of_here _ _)) as [Ha|(m & Hm & Hle)].
      * left. intros x z [->|Hx]%elem_of_cons; [apply Ha|by apply Hnone].
      * right. exists m. split; [exists a; split; [left|done]|].
        intros z (x & [->|Hx]%elem_of_cons & Hz); [by apply Hle|].
        by destruct (Hnone x z Hx).
    + destruct (Hl a (list_elem_of_here _ _)) as [Ha|(ma & Hma & Hlea)].
      * right. exists m. split; [exists x; split; [by right|done]|].
        intros z (y & [->|Hy]%elem_of_cons & Hz); [by destruct (Ha z)|].
        apply Hle. eauto.
      * right. exists (Z.min m ma). split.
        -- destruct (Z.min_spec m ma) as [[_ ->]|[_ ->]].
           ++ exists x. split; [by right|done].
           ++ exists a. split; [left|done].
        -- intros z (y & [->|Hy]%elem_of_cons & Hz).
           ++ specialize (Hlea z Hz). lia.
           ++ assert (m ≤ z) by (apply Hle; eauto). lia.
Qed.

Lemma is_greatest_opp (P : Z → Prop) (m : Z) :
  is_greatest P m ↔ is_least (λ z, P (- z)) (- m).
Proof.
  unfold is_greatest, is_least. rewrite Z.opp_involutive. split.
  - intros [Hm Hle]. split; [done|]. intros x Hx. specialize (Hle _ Hx). lia.
  - intros [Hm Hle]. split; [done|]. intros x Hx.
    specialize (Hle (- x)). rewrite Z.opp_involutive in Hle.
    specialize (Hle Hx). lia.
Qed.

Lemma is_greatest_union {A} (l : list A) (P : A → Z → Prop) :
  (∀ x, x ∈ l → (∀ z, ¬ P x z) ∨ ∃ m, is_greatest (P x) m) →
  (∀ x z, x ∈ l → ¬ P x z)
  ∨ ∃ m, is_greatest (λ z, ∃ x, x ∈ l ∧ P x z) m.
Proof.
  intros Hl.
  destruct (is_least_union l (λ x z, P x (- z))) as [Hnone|(m & Hm)].
  - intros x Hx. destruct (Hl x Hx) as [Hn|(m & Hm)].
    + left. intros z. apply Hn.
    + right. exists (- m). by apply (proj1 (is_greatest_opp (P x) m)).
  - left. intros x z Hx Hz. apply (Hnone x (- z) Hx).
    by rewrite Z.opp_involutive.
  - right. exists (- m). apply (proj2 (is_greatest_opp _ _)).
    rewrite Z.opp_involutive. exact Hm.
Qed.

Lemma np_min_unique (l : list Z) (m : Z) :
  m ∈ l → (∀ y, y ∈ l → m ≤ y) → np_min l = Ok m.
Proof.
  intros Hm Hle. destruct (np_min_spec l) as (m' & -> & Hm' & Hle').
  { intros ->. by apply elem_of_nil in Hm. }
  f_equal. specialize (Hle _ Hm'). specialize (Hle' _ Hm). lia.
Qed.

Lemma np_max_unique (l : list Z) (m : Z) :
  m ∈ l → (∀ y, y ∈ l → y ≤ m) → np_max l = Ok m.
Proof.
  intros Hm Hle. destruct (np_max_spec l) as (m' & -> & Hm' & Hle').
  { intros ->. by apply elem_of_nil in Hm. }
  f_equal. specialize (Hle _ Hm'). specialize (Hle' _ Hm). lia.
Qed.

(** The minimum of the lower bounds of the blocks is the lower bound of the
    union. *)
Lemma merge_min_channel {A} (l : list A) (vs : list Z) (P : A → Z → Prop)
    (W : Z) :
  l ≠ [] →
  Forall2 (λ x v, ((∀ z, ¬ P x z) ∧ v = W)
                  ∨ ∃ m, is_least (P x) m ∧ v = Z.max (m - 1) 0) l vs →
  (∀ x z, x ∈ l → P x z → 0 ≤ z < W) →
  ∃ m0, np_min vs = Ok m0
    ∧ (((∀ x z, x ∈ l → ¬ P x z) ∧ m0 = W)
       ∨ ∃ gm, is_least (λ z, ∃ x, x ∈ l ∧ P x z) gm
               ∧ m0 = Z.max (gm - 1) 0).
Proof.
  intros Hne H2 HW.
  assert (Hvs : vs ≠ []).
  { intros ->. apply Forall2_nil_inv_r in H2. done. }
  destruct (is_least_union l P) as [Hnone|(gm & Hgm)].
  { intros x Hx. apply list_elem_of_lookup in Hx as [i Hi].
    destruct (Forall2_lookup_l _ _ _ _ _ H2 Hi) as (v & _ & [[Hn _]|(m & Hm & _)]);
      eauto. }
  - exists W. split; [|by left].
    destruct l as [|a l]; [done|].
    apply np_min_unique.
    + destruct (Forall2_lookup_l _ _ _ 0%nat a H2 eq_refl)
        as (v & Hv & [[_ ->]|(m & [Hm _] & _)]).
      * by eapply list_elem_of_lookup_2.
      * destruct (Hnone a m (list_elem_of_here _ _) Hm).
    + intros y Hy. apply list_elem_of_lookup in Hy as [i Hi].
      destruct (Forall2_lookup_r _ _ _ _ _ H2 Hi)
        as (x & Hx & [[_ ->]|(m & [Hm _] & _)]); [lia|].
      destruct (Hnone x m (list_elem_of_lookup_2 _ _ _ Hx) Hm).
  - exists (Z.max (gm - 1) 0). split; [|right; eauto].
    destruct Hgm as [(x & Hx & Hgx) Hgle].
    apply np_min_unique.
    + apply list_elem_of_lookup in Hx as [i Hi].
      destruct (Forall2_lookup_l _ _ _ _ _ H2 Hi)
        as (v & Hv & [[Hn _]|(m & [Hm Hle] & ->)]).
      * destruct (Hn gm Hgx).
      * apply list_elem_of_lookup_2 in Hi.
        assert (m = gm).
        { specialize (Hle _ Hgx). assert (gm ≤ m) by (apply Hgle; eauto). lia. }
        subst m. by eapply list_elem_of_lookup_2.
    + intros y Hy. apply list_elem_of_lookup in Hy as [i Hi].
      destruct (Forall2_lookup_r _ _ _ _ _ H2 Hi)
        as (x' & Hx' & [[_ ->]|(m & [Hm _] & ->)]).
      * specialize (HW x gm Hx Hgx). lia.
      * apply list_elem_of_lookup_2 in Hx'.
        assert (gm ≤ m) by (apply Hgle; eauto). lia.
Qed.

Lemma merge_max_channel {A} (l : list A) (vs : list Z) (P : A → Z → Prop)
    (W : Z) :
  l ≠ [] →
  Forall2 (λ x v, ((∀ z, ¬ P x z) ∧ v = -1)
                  ∨ ∃ m, is_greatest (P x) m ∧ v = Z.min (m + 2) W) l vs →
  (∀ x z, x ∈ l → P x z → 0 ≤ z < W) →
  ∃ m0, np_max vs = Ok m0
    ∧ (((∀ x z, x ∈ l → ¬ P x z) ∧ m0 = -1)
       ∨ ∃ gm, is_greatest (λ z, ∃ x, x ∈ l ∧ P x z) gm
               ∧ m0 = Z.min (gm + 2) W).
Proof.
  intros Hne H2 HW.
  assert (Hvs : vs ≠ []).
  { intros ->. apply Forall2_nil_inv_r in H2. done. }
  destruct (is_greatest_union l P) as [Hnone|(gm & Hgm)].
  { intros x Hx. apply list_elem_of_lookup in Hx as [i Hi].
    destruct (Forall2_lookup_l _ _ _ _ _ H2 Hi) as (v & _ & [[Hn _]|(m & Hm & _)]);
      eauto. }
  - exists (-1). split; [|by left].
    destruct l as [|a l]; [done|].
    apply np_max_unique.
    + destruct (Forall2_lookup_l _ _ _ 0%nat a H2 eq_refl)
        as (v & Hv & [[_ ->]|(m & [Hm _] & _)]).
      * by eapply list_elem_of_lookup_2.
      * destruct (Hnone a m (list_elem_of_here _ _) Hm).
    + intros y Hy. apply list_elem_of_lookup in Hy as [i Hi].
      destruct (Forall2_lookup_r _ _ _ _ _ H2 Hi)
        as (x & Hx & [[_ ->]|(m & [Hm _] & _)]); [lia|].
      destruct (Hnone x m (list_elem_of_lookup_2 _ _ _ Hx) Hm).
  - exists (Z.min (gm + 2) W). split; [|right; eauto].
    destruct Hgm as [(x & Hx & Hgx) Hgle].
    apply np_max_unique.
    + apply list_elem_of_lookup in Hx as [i Hi].
      destruct (Forall2_lookup_l _ _ _ _ _ H2 Hi)
        as (v & Hv & [[Hn _]|(m & [Hm Hle] & ->)]).
      * destruct (Hn gm Hgx).
      * apply list_elem_of_lookup_2 in Hi.
        assert (m = gm).
        { specialize (Hle _ Hgx). assert (m ≤ gm) by (apply Hgle; eauto). lia. }
        subst m. by eapply list_elem_of_lookup_2.
    + intros y Hy. apply list_elem_of_lookup in Hy as [i Hi].
      destruct (Forall2_lookup_r _ _ _ _ _ H2 Hi)
        as (x' & Hx' & [[_ ->]|(m & [Hm _] & ->)]).
      * specialize (HW x gm Hx Hgx). lia.
      * apply list_elem_of_lookup_2 in Hx'.
        assert (m ≤ gm) by (apply Hgle; eauto). lia.
Qed.

Lemma traverse_Forall2 {A B} (f : A → res B) (l : list A) (ys : list B) :
  traverse f l = Ok ys ↔ Forall2 (λ x y, f x = Ok y) l ys.
Proof.
  revert ys. induction l as [|a l IH]; intros ys; simpl.
  - split.
    + intros. simplify_eq. constructor.
    + intros ->%Forall2_nil_inv_l. done.
  - split.
    + destruct (f a) as [y|] eqn:Hfa; [|done].
      destruct (traverse f l) as [ys'|] eqn:Hrest; [|done].
      intros. simplify_eq. constructor; [done|]. by apply IH.
    + intros (y & ys' & Hy & Hys & ->)%Forall2_cons_inv_l.
      rewrite Hy. apply IH in Hys. by rewrite Hys.
Qed.

Lemma traverse_concat {A B} (f : A → res B) (l : list (list A))
    (ys : list (list B)) :
  traverse (traverse f) l = Ok ys →
  Forall2 (λ x y, f x = Ok y) (concat l) (concat ys).
Proof.
  intros H2%traverse_Forall2. induction H2 as [|row yrow l ys Hrow _ IH];
    simpl; [constructor|].
  apply Forall2_app; [|done]. by apply traverse_Forall2.
Qed.

(** A loop nest over [range(nj)] and [range(ni)] whose body returns. *)
Lemma traverse_grid {B} (f : Z → Z → res B) (nj ni : Z) :
  (∀ j i, 0 ≤ j < nj → 0 ≤ i < ni → ∃ b, f j i = Ok b) →
  ∃ m, traverse (λ j, traverse (f j) (py_range ni)) (py_range nj) = Ok m
       ∧ length m = Z.to_nat nj
       ∧ Forall (λ row, length row = Z.to_nat ni) m
       ∧ ∀ j i, 0 ≤ j < nj → 0 ≤ i < ni →
           ∃ b, (row ← np_index m j; np_index row i) = Ok b ∧ f j i = Ok b.
Proof.
  intros Hf.
  destruct (traverse_ok (λ j, traverse (f j) (py_range ni)) (py_range nj))
    as (m & Hm & Hlen).
  { intros j Hj%elem_of_py_range.
    destruct (traverse_ok (f j) (py_range ni)) as (row & Hrow & _); [|eauto].
    intros i Hi%elem_of_py_range. by apply Hf. }
  exists m. split; [done|]. split; [by rewrite Hlen, length_py_range|].
  split.
  { apply Forall_forall. intros row Hrow.
    apply list_elem_of_lookup in Hrow as [k Hk].
    apply traverse_Forall2 in Hm.
    destruct (Forall2_lookup_r _ _ _ _ _ Hm Hk) as (j & Hj & Hjrow).
    apply traverse_Forall2, Forall2_length in Hjrow.
    by rewrite <- Hjrow, length_py_range. }
  intros j i Hj Hi.
  destruct (traverse_lookup _ _ m (Z.to_nat j) j Hm)
    as (row & Hrow & Hmrow); [by apply py_range_lookup_Z|].
  destruct (traverse_lookup _ _ row (Z.to_nat i) i Hrow)
    as (b & Hb & Hrb); [by apply py_range_lookup_Z|].
  exists b. split; [|done].
  destruct (np_index_ok m j) as (row' & -> & Hrow').
  { rewrite Hlen, length_py_range. lia. }
  simplify_eq. cbn [mbind res_bind rbind].
  destruct (np_index_ok row i) as (b' & -> & Hb'); [|by simplify_eq].
  apply lookup_lt_Some in Hrb. lia.
Qed.

(** What [dst_bboxes_of_src_block] returns for a block inside the image,
    for every destination block. *)
Lemma block_boxes_spec {F : Type} (g : Grid F)
    (src_tile_size src_size : Z * Z) (b : Z * Z * (arr2 Z * arr2 Z)) :
  let off_r := b.1.1 * src_tile_size.1 in
  let off_c := b.1.2 * src_tile_size.2 in
  0 < tile_width g → 0 < tile_height g →
  src_size.1 < 2 ^ 31 → src_size.2 < 2 ^ 31 →
  block_in_image src_tile_size src_size b →
  ∃ boxes,
    dst_bboxes_of_src_block b.2.1 b.2.2 g src_tile_size src_size
      (b.1.1, b.1.2) = Ok boxes
    ∧ ∀ tj ti,
        0 ≤ tj < ceil_frac (height g) (tile_height g) →
        0 ≤ ti < ceil_frac (width g) (tile_width g) →
        let within :=
          forward_within b.2.1 b.2.2
            (tj * tile_height g) (Z.min ((tj + 1) * tile_height g) (height g))
            (ti * tile_width g) (Z.min ((ti + 1) * tile_width g) (width g)) in
        ∃ bx, box_at boxes tj ti = Ok bx
          ∧ (((∀ r c, ¬ within r c) ∧ bx = (src_size.2, src_size.1, -1, -1))
             ∨ ∃ min_col max_col min_row max_row,
                 is_min_over within (λ r c, Z.of_nat c + off_c) min_col
                 ∧ is_max_over within (λ r c, Z.of_nat c + off_c) max_col
                 ∧ is_min_over within (λ r c, Z.of_nat r + off_r) min_row
                 ∧ is_max_over within (λ r c, Z.of_nat r + off_r) max_row
                 ∧ bx = (Z.max (min_col - 1) 0, Z.max (min_row - 1) 0,
                         Z.min (max_col + 2) src_size.2,
                         Z.min (max_row + 2) src_size.1)).
Proof.
  intros off_r off_c Htw Hth Hh Hw (Hfi & Hr & Hc).
  assert (Hrows : 0 ≤ off_r ∧ off_r + Z.of_nat (nrows b.2.1) ≤ src_size.1
                  ∧ src_size.1 < 2 ^ 31) by (subst off_r; lia).
  assert (Hcols : 0 ≤ off_c ∧ off_c + Z.of_nat (ncols b.2.1) ≤ src_size.2
                  ∧ src_size.2 < 2 ^ 31) by (subst off_c; lia).
  destruct (dst_bboxes_entries b.2.1 b.2.2 g src_tile_size src_size
              (b.1.1, b.1.2) Htw Hth) as (boxes & Hboxes & Hat).
  { intros dn u lf rt.
    destruct (bbox_entry_spec b.2.1 b.2.2 src_size off_r off_c dn u lf rt
                Hfi Hrows Hcols) as (bx & Hbx & _).
    eauto. }
  exists boxes. split; [done|]. intros tj ti Htj Hti within.
  destruct (Hat tj ti Htj Hti) as (bx & Hbx & Hentry).
  exists bx. split; [done|].
  destruct (bbox_entry_spec b.2.1 b.2.2 src_size off_r off_c
              (tj * tile_height g)
              (Z.min ((tj + 1) * tile_height g) (height g))
              (ti * tile_width g)
              (Z.min ((ti + 1) * tile_width g) (width g))
              Hfi Hrows Hcols) as (b' & Hb' & Hspec).
  cbn [fst snd] in Hentry. fold off_r off_c in Hentry.
  rewrite Hb' in Hentry. by simplify_eq.
Qed.

Lemma is_min_over_least (P : nat → nat → Prop) (f : nat → nat → Z) (m : Z) :
  is_min_over P f m → is_least (λ z, ∃ r c, P r c ∧ z = f r c) m.
Proof.
  intros [(r & c & HP & Hf) Hle]. split; [by eauto|].
  intros z (r' & c' & HP' & ->). by apply Hle.
Qed.

Lemma is_max_over_greatest (P : nat → nat → Prop) (f : nat → nat → Z)
    (m : Z) :
  is_max_over P f m → is_greatest (λ z, ∃ r c, P r c ∧ z = f r c) m.
Proof.
  intros [(r & c & HP & Hf) Hle]. split; [by eauto|].
  intros z (r' & c' & HP' & ->). by apply Hle.
Qed.

Lemma is_least_ext (P Q : Z → Prop) (m : Z) :
  (∀ z, P z ↔ Q z) → is_least P m → is_least Q m.
Proof.
  intros HPQ [Hm Hle]. split; [by apply HPQ|].
  intros z Hz. by apply Hle, HPQ.
Qed.

Lemma is_greatest_ext (P Q : Z → Prop) (m : Z) :
  (∀ z, P z ↔ Q z) → is_greatest P m → is_greatest Q m.
Proof.
  intros HPQ [Hm Hle]. split; [by apply HPQ|].
  intros z Hz. by apply Hle, HPQ.
Qed.

Lemma elem_of_concat_row {A} (l : list (list A)) (row : list A) (x : A) :
  row ∈ l → x ∈ row → x ∈ concat l.
Proof. intros Hrow Hx. rewrite concat_join, list_elem_of_join. eauto. Qed.

(** The boxes of all source blocks for one destination block: one per
    source block, each the sentinel or the margin box of the block. *)
Lemma raw_boxes_spec {F : Type} (g : Grid F) (src_tile_size src_size : Z * Z)
    (blocks : arr2 (Z * Z * (arr2 Z * arr2 Z))) :
  0 < tile_width g → 0 < tile_height g →
  src_size.1 < 2 ^ 31 → src_size.2 < 2 ^ 31 →
  Forall (block_in_image src_tile_size src_size) (concat blocks) →
  ∃ raw,
    traverse (traverse (λ b : Z * Z * (arr2 Z * arr2 Z),
                dst_bboxes_of_src_block b.2.1 b.2.2 g src_tile_size src_size
                  (b.1.1, b.1.2))) blocks = Ok raw
    ∧ ∀ tj ti,
        0 ≤ tj < ceil_frac (height g) (tile_height g) →
        0 ≤ ti < ceil_frac (width g) (tile_width g) →
        let down := tj * tile_height g in
        let up := Z.min ((tj + 1) * tile_height g) (height g) in
        let left := ti * tile_width g in
        let right := Z.min ((ti + 1) * tile_width g) (width g) in
        ∃ bs,
          traverse (λ rb, box_at rb tj ti) (concat raw) = Ok bs
          ∧ Forall2 (λ e bx,
               ((∀ r c, ¬ forward_within e.2.1 e.2.2 down up left right r c)
                ∧ bx = sentinel src_size)
               ∨ ∃ min_col max_col min_row max_row,
                   is_least (block_cols src_tile_size down up left right e)
                     min_col
                   ∧ is_greatest
                       (block_cols src_tile_size down up left right e) max_col
                   ∧ is_least (block_rows src_tile_size down up left right e)
                       min_row
                   ∧ is_greatest
                       (block_rows src_tile_size down up left right e) max_row
                   ∧ bx = (Z.max (min_col - 1) 0, Z.max (min_row - 1) 0,
                           Z.min (max_col + 2) src_size.2,
                           Z.min (max_row + 2) src_size.1))
              (concat blocks) bs.
Proof.
  intros Htw Hth Hh Hw Hblocks.
  rewrite Forall_forall in Hblocks.
  set (f := λ b : Z * Z * (arr2 Z * arr2 Z),
         dst_bboxes_of_src_block b.2.1 b.2.2 g src_tile_size src_size
           (b.1.1, b.1.2)).
  pose proof (λ e He, block_boxes_spec g src_tile_size src_size e Htw Hth Hh Hw
                        (Hblocks e He)) as Hf.
  destruct (traverse_ok (traverse f) blocks) as (raw & Hraw & _).
  { intros row Hrow. destruct (traverse_ok f row) as (y & Hy & _); [|eauto].
    intros e He. destruct (Hf e) as (boxes & Hb & _); [|eauto].
    by eapply elem_of_concat_row. }
  pose proof (traverse_concat f blocks raw Hraw) as H2.
  exists raw. split; [done|]. intros tj ti Htj Hti down up left right.
  destruct (traverse_ok (λ rb, box_at rb tj ti) (concat raw))
    as (bs & Hbs & Hlen).
  { intros rb Hrb. apply list_elem_of_lookup in Hrb as [k Hk].
    destruct (Forall2_lookup_r _ _ _ _ _ H2 Hk) as (e & He & Hfe).
    destruct (Hf e (list_elem_of_lookup_2 _ _ _ He)) as (boxes & Hb & Hspec).
    assert (Heq : Ok boxes = Ok rb)
      by (rewrite <- Hb, <- Hfe; reflexivity).
    simplify_eq.
    destruct (Hspec tj ti Htj Hti) as (bx & Hbx & _). eauto. }
  exists bs. split; [done|].
  apply traverse_Forall2 in Hbs.
  apply Forall2_same_length_lookup. split.
  { apply Forall2_length in H2, Hbs. lia. }
  intros k e bx He Hbx.
  destruct (Forall2_lookup_l _ _ _ _ _ H2 He) as (rb & Hrb & Hfe).
  destruct (Forall2_lookup_l _ _ _ _ _ Hbs Hrb) as (bx' & Hbx' & Hat).
  simplify_eq.
  destruct (Hf e (list_elem_of_lookup_2 _ _ _ He)) as (boxes' & Hb' & Hsp).
  assert (Heq : Ok rb = Ok boxes')
    by (rewrite <- Hb', <- Hfe; reflexivity).
  simplify_eq.
  destruct (Hsp tj ti Htj Hti) as (bx'' & Hbx'' & Hcase).
  rewrite Hat in Hbx''. simplify_eq.
  destruct Hcase as [?|(mc & xc & mr & xr & H1 & H3 & H4 & H5 & ->)];
    [by left|].
  right. exists mc, xc, mr, xr.
  split; [by apply is_min_over_least in H1|].
  split; [by apply is_max_over_greatest in H3|].
  split; [by apply is_min_over_least in H4|].
  split; [by apply is_max_over_greatest in H5|]. done.
Qed.

Lemma merge_boxes_ok (bs : list box) :
  bs ≠ [] → ∃ b, merge_boxes bs = Ok b.
Proof.
  intros Hne. unfold merge_boxes.
  destruct (np_min_spec (map (λ b : box, b.1.1.1) bs)) as (m0 & -> & _);
    [by destruct bs|].
  destruct (np_min_spec (map (λ b : box, b.1.1.2) bs)) as (m1 & -> & _);
    [by destruct bs|].
  destruct (np_max_spec (map (λ b : box, b.1.2) bs)) as (m2 & -> & _);
    [by destruct bs|].
  destruct (np_max_spec (map (λ b : box, b.2) bs)) as (m3 & -> & _);
    [by destruct bs|].
  eauto.
Qed.

(** X4. The box that [create_inverse_pixel_index] merges for a destination
    block from the boxes of all source blocks is the box of the whole image:
    the sentinel when no source pixel of any block has its forward index in
    the destination block's pixel range, and otherwise
    [(max(min_col - 1, 0), max(min_row - 1, 0), min(max_col + 2, src_width),
    min(max_row + 2, src_height))] for the least and greatest global column
    and row over all the source pixels that have. The source blocks lie
    inside an image whose sizes fit int32, and there is at least one. *)
Theorem merged_box_envelope {F : Type} (g : Grid F)
    (src_tile_size src_size : Z * Z)
    (blocks : arr2 (Z * Z * (arr2 Z * arr2 Z))) (tj ti : Z) :
  let within :=
    image_within (concat blocks) src_tile_size
      (tj * tile_height g) (Z.min ((tj + 1) * tile_height g) (height g))
      (ti * tile_width g) (Z.min ((ti + 1) * tile_width g) (width g)) in
  0 < tile_width g → 0 < tile_height g →
  src_size.1 < 2 ^ 31 → src_size.2 < 2 ^ 31 →
  concat blocks ≠ [] →
  Forall (block_in_image src_tile_size src_size) (concat blocks) →
  0 ≤ tj < ceil_frac (height g) (tile_height g) →
  0 ≤ ti < ceil_frac (width g) (tile_width g) →
  ∃ raw merged b,
    traverse (traverse (λ b : Z * Z * (arr2 Z * arr2 Z),
                dst_bboxes_of_src_block b.2.1 b.2.2 g src_tile_size src_size
                  (b.1.1, b.1.2))) blocks = Ok raw
    ∧ bbox_blocks raw (ceil_frac (height g) (tile_height g))
        (ceil_frac (width g) (tile_width g)) = Ok merged
    ∧ box_at merged tj ti = Ok b
    ∧ (((∀ row col, ¬ within row col) ∧ b = sentinel src_size)
       ∨ ∃ min_col max_col min_row max_row,
           is_least (λ col, ∃ row, within row col) min_col
           ∧ is_greatest (λ col, ∃ row, within row col) max_col
           ∧ is_least (λ row, ∃ col, within row col) min_row
           ∧ is_greatest (λ row, ∃ col, within row col) max_row
           ∧ b = (Z.max (min_col - 1) 0, Z.max (min_row - 1) 0,
                  Z.min (max_col + 2) src_size.2,
                  Z.min (max_row + 2) src_size.1)).
Proof.
  intros within Htw Hth Hh Hw Hne Hblocks Htj Hti.
  destruct (raw_boxes_spec g src_tile_size src_size blocks Htw Hth Hh Hw
              Hblocks) as (raw & Hraw & Hbody).
  rewrite Forall_forall in Hblocks.
  set (body := λ tj ti : Z,
         boxes ← traverse (λ rb, box_at rb tj ti) (concat raw);
         merge_boxes boxes).
  destruct (traverse_grid body (ceil_frac (height g) (tile_height g))
              (ceil_frac (width g) (tile_width g)))
    as (merged & Hmerged & _ & _ & Hat).
  { intros j i Hj Hi. destruct (Hbody j i Hj Hi) as (bs & Hbs & Hfa).
    unfold body. rewrite Hbs. cbn [mbind res_bind rbind].
    apply merge_boxes_ok. intros ->. apply Forall2_nil_inv_r in Hfa. done. }
  destruct (Hat tj ti Htj Hti) as (b & Hb & Hmb).
  exists raw, merged, b. split; [done|]. split; [exact Hmerged|].
  split; [exact Hb|].
  destruct (Hbody tj ti Htj Hti) as (bs & Hbs & Hs).
  unfold body in Hmb. rewrite Hbs in Hmb. cbn [mbind res_bind rbind] in Hmb.
  clear Hbody Hat Hmerged Hb Hbs. cbv zeta in Hs.
  set (down := tj * tile_height g) in *.
  set (up := Z.min ((tj + 1) * tile_height g) (height g)) in *.
  set (left := ti * tile_width g) in *.
  set (right := Z.min ((ti + 1) * tile_width g) (width g)) in *.
  set (Pcol := block_cols src_tile_size down up left right) in *.
  set (Prow := block_rows src_tile_size down up left right) in *.
  assert (Hcolr : ∀ e z, e ∈ concat blocks → Pcol e z → 0 ≤ z < src_size.2).
  { intros e z He (r & c & (i & j & Hi & _) & ->).
    destruct (Hblocks e He) as (Hrect & _ & Hc).
    destruct (rectangular_at2 _ _ _ _ Hrect Hi). lia. }
  assert (Hrowr : ∀ e z, e ∈ concat blocks → Prow e z → 0 ≤ z < src_size.1).
  { intros e z He (r & c & (i & j & Hi & _) & ->).
    destruct (Hblocks e He) as (Hrect & Hr & _).
    destruct (rectangular_at2 _ _ _ _ Hrect Hi). lia. }
  assert (Hnone : ∀ (P : Z * Z * (arr2 Z * arr2 Z) → Z → Prop) e,
            (P = Pcol ∨ P = Prow) →
            (∀ z, ¬ P e z) ↔
            ∀ r c, ¬ forward_within e.2.1 e.2.2 down up left right r c).
  { intros P e HP. split.
    - intros Hn r c Hwi. destruct HP as [->| ->].
      + apply (Hn (Z.of_nat c + e.1.2 * src_tile_size.2)). by exists r, c.
      + apply (Hn (Z.of_nat r + e.1.1 * src_tile_size.1)). by exists r, c.
    - intros Hn z Hz. destruct HP as [->| ->];
        destruct Hz as (r & c & Hwi & _); by apply (Hn r c). }
  destruct (merge_min_channel (concat blocks) (map (λ b : box, b.1.1.1) bs)
              Pcol src_size.2 Hne) as (m0 & Hm0 & Hc0); [|done|].
  { rewrite map_fmap. apply Forall2_fmap_r. eapply Forall2_impl; [exact Hs|].
    intros e bx [[Hn ->]|(mc & xc & mr & xr & H1 & H3 & H4 & H5 & ->)].
    - left. split; [|done]. apply Hnone; [by left|done].
    - right. eauto. }
  destruct (merge_min_channel (concat blocks) (map (λ b : box, b.1.1.2) bs)
              Prow src_size.1 Hne) as (m1 & Hm1 & Hc1); [|done|].
  { rewrite map_fmap. apply Forall2_fmap_r. eapply Forall2_impl; [exact Hs|].
    intros e bx [[Hn ->]|(mc & xc & mr & xr & H1 & H3 & H4 & H5 & ->)].
    - left. split; [|done]. apply Hnone; [by right|done].
    - right. eauto. }
  destruct (merge_max_channel (concat blocks) (map (λ b : box, b.1.2) bs)
              Pcol src_size.2 Hne) as (m2 & Hm2 & Hc2); [|done|].
  { rewrite map_fmap. apply Forall2_fmap_r. eapply Forall2_impl; [exact Hs|].
    intros e bx [[Hn ->]|(mc & xc & mr & xr & H1 & H3 & H4 & H5 & ->)].
    - left. split; [|done]. apply Hnone; [by left|done].
    - right. eauto. }
  destruct (merge_max_channel (concat blocks) (map (λ b : box, b.2) bs)
              Prow src_size.1 Hne) as (m3 & Hm3 & Hc3); [|done|].
  { rewrite map_fmap. apply Forall2_fmap_r. eapply Forall2_impl; [exact Hs|].
    intros e bx [[Hn ->]|(mc & xc & mr & xr & H1 & H3 & H4 & H5 & ->)].
    - left. split; [|done]. apply Hnone; [by right|done].
    - right. eauto. }
  unfold merge_boxes in Hmb. rewrite Hm0, Hm1, Hm2, Hm3 in Hmb.
  cbn [mbind res_bind rbind] in Hmb. simplify_eq.
  assert (Hcolw : ∀ z, (∃ e, e ∈ concat blocks ∧ Pcol e z)
                       ↔ ∃ row, within row z).
  { intros z. split.
    - intros (e & He & r & c & Hwi & ->). eexists. exists e, r, c. eauto.
    - intros (row & e & r & c & He & Hwi & _ & ->). exists e. split; [done|].
      by exists r, c. }
  assert (Hroww : ∀ z, (∃ e, e ∈ concat blocks ∧ Prow e z)
                       ↔ ∃ col, within z col).
  { intros z. split.
    - intros (e & He & r & c & Hwi & ->). eexists. exists e, r, c. eauto.
    - intros (col & e & r & c & He & Hwi & -> & _). exists e. split; [done|].
      by exists r, c. }
  assert (Hsome : ∀ (P : Z * Z * (arr2 Z * arr2 Z) → Z → Prop),
            (P = Pcol ∨ P = Prow) →
            (∀ e z, e ∈ concat blocks → ¬ P e z) →
            ∀ row col, ¬ within row col).
  { intros P HP Hn row col (e & r & c & He & Hwi & _).
    apply (proj1 (Hnone P e HP) (λ z, Hn e z He) r c Hwi). }
  assert (Hany : ∀ (P : Z * Z * (arr2 Z * arr2 Z) → Z → Prop) z e,
            (P = Pcol ∨ P = Prow) → e ∈ concat blocks → P e z →
            ∃ row col, within row col).
  { intros P z e HP He Hz.
    assert (∃ r c, forward_within e.2.1 e.2.2 down up left right r c)
      as (r & c & Hwi).
    { destruct HP as [->| ->]; destruct Hz as (r & c & Hwi & _); eauto. }
    eexists _, _. exists e, r, c. eauto. }
  destruct Hc0 as [[Hn0 ->]|(g0 & Hg0 & ->)].
  - left. split; [by apply (Hsome Pcol); [left|]|].
    pose proof (Hsome Pcol (or_introl eq_refl) Hn0) as Hno.
    destruct Hc1 as [[_ ->]|(g1 & [(e & He & Hz) _] & _)];
      [|destruct (Hany Prow _ _ (or_intror eq_refl) He Hz) as (? & ? & Hx);
        destruct (Hno _ _ Hx)].
    destruct Hc2 as [[_ ->]|(g2 & [(e & He & Hz) _] & _)];
      [|destruct (Hany Pcol _ _ (or_introl eq_refl) He Hz) as (? & ? & Hx);
        destruct (Hno _ _ Hx)].
    destruct Hc3 as [[_ ->]|(g3 & [(e & He & Hz) _] & _)];
      [|destruct (Hany Prow _ _ (or_intror eq_refl) He Hz) as (? & ? & Hx);
        destruct (Hno _ _ Hx)].
    done.
  - right.
    destruct Hg0 as [(e0 & He0 & Hz0) Hle0].
    destruct (Hany Pcol _ _ (or_introl eq_refl) He0 Hz0) as (row & col & Hx).
    destruct Hc1 as [[Hn1 _]|(g1 & Hg1 & ->)];
      [destruct (Hsome Prow (or_intror eq_refl) Hn1 _ _ Hx)|].
    destruct Hc2 as [[Hn2 _]|(g2 & Hg2 & ->)];
      [destruct (Hsome Pcol (or_introl eq_refl) Hn2 _ _ Hx)|].
    destruct Hc3 as [[Hn3 _]|(g3 & Hg3 & ->)];
      [destruct (Hsome Prow (or_intror eq_refl) Hn3 _ _ Hx)|].
    exists g0, g2, g1, g3.
    split; [apply (is_least_ext _ _ _ Hcolw); split; eauto|].
    split; [by apply (is_greatest_ext _ _ _ Hcolw)|].
    split; [by apply (is_least_ext _ _ _ Hroww)|].
    split; [by apply (is_greatest_ext _ _ _ Hroww)|]. done.
Qed.

Lemma merged_box_envelope_witness :
  ∃ raw merged,
    traverse (traverse (λ b : Z * Z * (arr2 Z * arr2 Z),
                dst_bboxes_of_src_block b.2.1 b.2.2 test_grid (3, 2) (4, 3)
                  (b.1.1, b.1.2)))
      [[ (0, 0, ([[1; 2]; [1; 2]; [0; 1]], [[0; 0]; [0; 1]; [1; 2]]));
         (0, 1, ([[3]; [2]; [2]], [[0]; [1]; [2]])) ];
       [ (1, 0, ([[0; 0]], [[2; 2]])); (1, 1, ([[1]], [[3]])) ]] = Ok raw
    ∧ bbox_blocks raw 2 2 = Ok merged
    ∧ box_at merged 1 0 = Ok (0, 1, 3, 4).
Proof.
  destruct (merged_box_envelope test_grid (3, 2) (4, 3)
              [[ (0, 0, ([[1; 2]; [1; 2]; [0; 1]], [[0; 0]; [0; 1]; [1; 2]]));
                 (0, 1, ([[3]; [2]; [2]], [[0]; [1]; [2]])) ];
               [ (1, 0, ([[0; 0]], [[2; 2]])); (1, 1, ([[1]], [[3]])) ]] 1 0)
    as (raw & merged & b & Hraw & Hmerged & Hb & _).
  - reflexivity.
  - reflexivity.
  - reflexivity.
  - reflexivity.
  - discriminate.
  - repeat constructor; vm_compute; congruence.
  - vm_compute. split; congruence.
  - vm_compute. split; congruence.
  - exists raw, merged. split; [exact Hraw|]. split; [exact Hmerged|].
    vm_compute in Hraw. injection Hraw as <-.
    vm_compute in Hmerged. injection Hmerged as <-.
    vm_compute. reflexivity.
Defined.

Lemma block_cols_range (src_tile_size src_size : Z * Z)
    (down up left right : Z) (e : Z * Z * (arr2 Z * arr2 Z)) (z : Z) :
  block_in_image src_tile_size src_size e →
  block_cols src_tile_size down up left right e z → 0 ≤ z < src_size.2.
Proof.
  intros (Hrect & _ & Hc) (r & c & (i & j & Hi & _) & ->).
  destruct (rectangular_at2 _ _ _ _ Hrect Hi). lia.
Qed.

Lemma block_rows_range (src_tile_size src_size : Z * Z)
    (down up left right : Z) (e : Z * Z * (arr2 Z * arr2 Z)) (z : Z) :
  block_in_image src_tile_size src_size e →
  block_rows src_tile_size down up left right e z → 0 ≤ z < src_size.1.
Proof.
  intros (Hrect & Hr & _) (r & c & (i & j & Hi & _) & ->).
  destruct (rectangular_at2 _ _ _ _ Hrect Hi). lia.
Qed.

Lemma merge_boxes_filter (src_size : Z * Z) (bs : list box) :
  Forall (box_in_image src_size) bs →
  (∃ b, b ∈ bs ∧ b ≠ sentinel src_size) →
  ∃ merged,
    merge_boxes bs = Ok merged
    ∧ merge_boxes (filter (λ b, b ≠ sentinel src_size) bs) = Ok merged.
Proof.
  intros Hin (b1 & Hb1 & Hns). rewrite Forall_forall in Hin.
  set (fl := filter (λ b, b ≠ sentinel src_size) bs).
  assert (Hfl : ∀ b, b ∈ fl ↔ b ≠ sentinel src_size ∧ b ∈ bs)
    by (intros b; unfold fl; rewrite list_elem_of_filter; done).
  assert (Hne : fl ≠ []).
  { intros Heq. assert (Hb : b1 ∈ fl) by (by apply Hfl).
    rewrite Heq in Hb. by apply elem_of_nil in Hb. }
  assert (Hmin : ∀ (ch : box → Z) (W : Z),
            (∀ b, b ∈ bs → ch b ≤ W) → ch (sentinel src_size) = W →
            ∃ m, np_min (map ch bs) = Ok m ∧ np_min (map ch fl) = Ok m).
  { intros ch W Hle Hs.
    destruct (np_min_spec (map ch fl)) as (m & Hm & Hmin & Hmle);
      [by destruct fl|].
    exists m. split; [|done]. apply np_min_unique.
    - rewrite map_fmap, list_elem_of_fmap in Hmin.
      destruct Hmin as (b & -> & Hb). apply Hfl in Hb as [_ Hb].
      rewrite map_fmap, list_elem_of_fmap. eauto.
    - intros y Hy. rewrite map_fmap, list_elem_of_fmap in Hy.
      destruct Hy as (b & -> & Hb).
      destruct (decide (b = sentinel src_size)) as [->|Hnb].
      + rewrite Hs. rewrite map_fmap, list_elem_of_fmap in Hmin.
        destruct Hmin as (b' & -> & Hb'). apply Hfl in Hb' as [_ Hb'].
        by apply Hle.
      + apply Hmle. rewrite map_fmap, list_elem_of_fmap. exists b.
        split; [done|]. by apply Hfl. }
  assert (Hmax : ∀ (ch : box → Z),
            (∀ b, b ∈ bs → -1 ≤ ch b) → ch (sentinel src_size) = -1 →
            ∃ m, np_max (map ch bs) = Ok m ∧ np_max (map ch fl) = Ok m).
  { intros ch Hle Hs.
    destruct (np_max_spec (map ch fl)) as (m & Hm & Hmax & Hmle);
      [by destruct fl|].
    exists m. split; [|done]. apply np_max_unique.
    - rewrite map_fmap, list_elem_of_fmap in Hmax.
      destruct Hmax as (b & -> & Hb). apply Hfl in Hb as [_ Hb].
      rewrite map_fmap, list_elem_of_fmap. eauto.
    - intros y Hy. rewrite map_fmap, list_elem_of_fmap in Hy.
      destruct Hy as (b & -> & Hb).
      destruct (decide (b = sentinel src_size)) as [->|Hnb].
      + rewrite Hs. rewrite map_fmap, list_elem_of_fmap in Hmax.
        destruct Hmax as (b' & -> & Hb'). apply Hfl in Hb' as [_ Hb'].
        by apply Hle.
      + apply Hmle. rewrite map_fmap, list_elem_of_fmap. exists b.
        split; [done|]. by apply Hfl. }
  destruct (Hmin (λ b : box, b.1.1.1) src_size.2) as (m0 & E0 & E0');
    [intros b Hb; apply (Hin b Hb)|done|].
  destruct (Hmin (λ b : box, b.1.1.2) src_size.1) as (m1 & E1 & E1');
    [intros b Hb; apply (Hin b Hb)|done|].
  destruct (Hmax (λ b : box, b.1.2)) as (m2 & E2 & E2');
    [intros b Hb; apply (Hin b Hb)|done|].
  destruct (Hmax (λ b : box, b.2)) as (m3 & E3 & E3');
    [intros b Hb; apply (Hin b Hb)|done|].
  exists (m0, m1, m2, m3). unfold merge_boxes. fold fl.
  rewrite E0, E1, E2, E3, E0', E1', E2', E3'. done.
Qed.

(** X5. Among the boxes that the source blocks emit for one destination
    block, the sentinels never affect the merge: when at least one box is
    not the sentinel, the component-wise minimum of the two lower bounds and
    maximum of the two upper bounds over all boxes is the same reduction
    over the boxes that are not the sentinel. *)
Theorem merge_ignores_sentinels {F : Type} (g : Grid F)
    (src_tile_size src_size : Z * Z)
    (blocks : arr2 (Z * Z * (arr2 Z * arr2 Z))) (tj ti : Z) :
  0 < tile_width g → 0 < tile_height g →
  src_size.1 < 2 ^ 31 → src_size.2 < 2 ^ 31 →
  Forall (block_in_image src_tile_size src_size) (concat blocks) →
  0 ≤ tj < ceil_frac (height g) (tile_height g) →
  0 ≤ ti < ceil_frac (width g) (tile_width g) →
  ∃ raw boxes,
    traverse (traverse (λ b : Z * Z * (arr2 Z * arr2 Z),
                dst_bboxes_of_src_block b.2.1 b.2.2 g src_tile_size src_size
                  (b.1.1, b.1.2))) blocks = Ok raw
    ∧ traverse (λ rb, box_at rb tj ti) (concat raw) = Ok boxes
    ∧ ((∃ b, b ∈ boxes ∧ b ≠ sentinel src_size) →
       ∃ merged,
         merge_boxes boxes = Ok merged
         ∧ merge_boxes (filter (λ b, b ≠ sentinel src_size) boxes)
           = Ok merged).
Proof.
  intros Htw Hth Hh Hw Hblocks Htj Hti.
  destruct (raw_boxes_spec g src_tile_size src_size blocks Htw Hth Hh Hw
              Hblocks) as (raw & Hraw & Hbody).
  destruct (Hbody tj ti Htj Hti) as (bs & Hbs & Hs). cbv zeta in Hs.
  exists raw, bs. split; [done|]. split; [done|].
  apply merge_boxes_filter. rewrite Forall_forall in Hblocks.
  apply Forall_forall. intros bx Hbx.
  apply list_elem_of_lookup in Hbx as [k Hk].
  destruct (Forall2_lookup_r _ _ _ _ _ Hs Hk) as (e & He & Hcase).
  apply list_elem_of_lookup_2, Hblocks in He.
  destruct Hcase as [[_ ->]|(mc & xc & mr & xr & [H1 _] & [H2 _] & [H3 _]
                             & [H4 _] & ->)].
  - unfold box_in_image, sentinel. simpl. lia.
  - pose proof (block_cols_range _ _ _ _ _ _ _ _ He H1).
    pose proof (block_cols_range _ _ _ _ _ _ _ _ He H2).
    pose proof (block_rows_range _ _ _ _ _ _ _ _ He H3).
    pose proof (block_rows_range _ _ _ _ _ _ _ _ He H4).
    unfold box_in_image. simpl. lia.
Qed.

Lemma merge_ignores_sentinels_witness :
  ∃ raw,
    traverse (traverse (λ b : Z * Z * (arr2 Z * arr2 Z),
                dst_bboxes_of_src_block b.2.1 b.2.2 test_grid (3, 2) (4, 3)
                  (b.1.1, b.1.2)))
      [[ (0, 0, ([[1; 2]; [1; 2]; [0; 1]], [[0; 0]; [0; 1]; [1; 2]]));
         (0, 1, ([[3]; [2]; [2]], [[0]; [1]; [2]])) ];
       [ (1, 0, ([[0; 0]], [[2; 2]])); (1, 1, ([[1]], [[3]])) ]] = Ok raw
    ∧ traverse (λ rb, box_at rb 1 0) (concat raw)
      = Ok [(0, 1, 3, 4); (3, 4, -1, -1); (0, 2, 3, 4); (3, 4, -1, -1)]
    ∧ merge_boxes [(0, 1, 3, 4); (3, 4, -1, -1); (0, 2, 3, 4); (3, 4, -1, -1)]
      = merge_boxes [(0, 1, 3, 4); (0, 2, 3, 4)].
Proof.
  destruct (merge_ignores_sentinels test_grid (3, 2) (4, 3)
              [[ (0, 0, ([[1; 2]; [1; 2]; [0; 1]], [[0; 0]; [0; 1]; [1; 2]]));
                 (0, 1, ([[3]; [2]; [2]], [[0]; [1]; [2]])) ];
               [ (1, 0, ([[0; 0]], [[2; 2]])); (1, 1, ([[1]], [[3]])) ]] 1 0)
    as (raw & bs & Hraw & Hbs & Hmerge).
  - reflexivity.
  - reflexivity.
  - reflexivity.
  - reflexivity.
  - repeat constructor; vm_compute; congruence.
  - vm_compute. split; congruence.
  - vm_compute. split; congruence.
  - exists raw. split; [exact Hraw|].
    vm_compute in Hraw. injection Hraw as <-.
    vm_compute in Hbs. injection Hbs as <-.
    split; [vm_compute; reflexivity|].
    destruct Hmerge as (merged & -> & Hf).
    { exists (0, 1, 3, 4). split; [left|]. vm_compute. congruence. }
    rewrite <- Hf. reflexivity.
Defined.

(** ** The painter loop *)

Lemma at2_set2_eq {A} (a : arr2 A) (j i : Z) (v : A) (r c : nat) :
  Z.to_nat j = r → Z.to_nat i = c → is_Some (at2 a r c) →
  at2 (set2 a j i v) r c = Some v.
Proof.
  intros <- <- [x Hx]. unfold at2, set2 in *.
  rewrite list_lookup_alter_eq.
  destruct (a !! Z.to_nat j) as [row|]; simpl in *; [|done].
  apply list_lookup_insert_eq. by eapply lookup_lt_Some.
Qed.

(** A write keeps the shape. *)
Lemma at2_set2_is_Some {A} (a : arr2 A) (j i : Z) (v : A) (r c : nat) :
  is_Some (at2 (set2 a j i v) r c) ↔ is_Some (at2 a r c).
Proof.
  destruct (decide ((Z.to_nat j, Z.to_nat i) = (r, c))) as [Heq|Hne].
  - simplify_eq. unfold at2, set2. rewrite list_lookup_alter_eq.
    destruct (a !! Z.to_nat j) as [row|]; simpl; [|done].
    rewrite !lookup_lt_is_Some, length_insert. done.
  - by rewrite at2_set2_ne.
Qed.

Lemma rectangular_set2 {A} (rows cols : Z) (a : arr2 A) (j i : Z) (v : A) :
  rectangular rows cols a → rectangular rows cols (set2 a j i v).
Proof.
  intros [Hr Hc]. unfold set2. split; [by rewrite length_alter|].
  apply Forall_alter; [done|]. intros row _ Hrow. by rewrite length_insert.
Qed.

Section PainterProofs.
Context {F : Type} `{FloatOps F}.

(** The painter loop keeps the shape of both result arrays. *)
Lemma paint_shape (quads : list (QuadData F)) (src_offset : F * F)
    (dst_width dst_height bboxes_max_width bboxes_max_height : Z)
    (result : canvas F) (rows cols : Z) :
  rectangular rows cols result.1 → rectangular rows cols result.2 →
  let painted := paint quads src_offset dst_width dst_height
                   bboxes_max_width bboxes_max_height result in
  rectangular rows cols painted.1 ∧ rectangular rows cols painted.2.
Proof.
  intros H1 H2. simpl. unfold paint.
  apply (foldl_invariant
           (λ res : canvas F, rectangular rows cols res.1
                              ∧ rectangular rows cols res.2)); [done|].
  intros res1 j_offset _ Hres1. apply foldl_invariant; [done|].
  intros res2 i_offset _ Hres2. unfold paint_offset.
  apply foldl_invariant; [apply foldl_invariant; [done|]|].
  - intros res3 q _ [Ha Hb]. unfold paint_a.
    destruct (is_inside_triangle _ _ _ _ _ _); [|done].
    simpl. split; by apply rectangular_set2.
  - intros res3 q _ [Ha Hb]. unfold paint_b.
    destruct (is_inside_triangle _ _ _ _ _ _); [|done].
    simpl. split; by apply rectangular_set2.
Qed.

(** After the painter loop a destination pixel holds what it held before,
    or what a triangle that contains its centre recorded, in both
    channels. *)
Lemma paint_sound (quads : list (QuadData F)) (src_offset : F * F)
    (dst_width dst_height bboxes_max_width bboxes_max_height : Z)
    (result : canvas F) (r c : nat) :
  is_Some (at2 result.1 r c) → is_Some (at2 result.2 r c) →
  let painted := paint quads src_offset dst_width dst_height
                   bboxes_max_width bboxes_max_height result in
  (at2 painted.1 r c = at2 result.1 r c
   ∧ at2 painted.2 r c = at2 result.2 r c)
  ∨ ∃ q i_offset j_offset,
      q ∈ quads
      ∧ 0 ≤ i_offset < bboxes_max_width ∧ 0 ≤ j_offset < bboxes_max_height
      ∧ ((covers_a q dst_width dst_height i_offset j_offset r c
          ∧ at2 painted.1 r c
            = Some (recorded_a q src_offset i_offset j_offset).1
          ∧ at2 painted.2 r c
            = Some (recorded_a q src_offset i_offset j_offset).2)
         ∨ (covers_b q dst_width dst_height i_offset j_offset r c
            ∧ at2 painted.1 r c
              = Some (recorded_b q src_offset i_offset j_offset).1
            ∧ at2 painted.2 r c
              = Some (recorded_b q src_offset i_offset j_offset).2)).
Proof.
  intros Hs1 Hs2. simpl.
  set (Inv := λ res : canvas F,
    (is_Some (at2 res.1 r c) ∧ is_Some (at2 res.2 r c))
    ∧ ((at2 res.1 r c = at2 result.1 r c ∧ at2 res.2 r c = at2 result.2 r c)
       ∨ ∃ q i_offset j_offset,
           q ∈ quads
           ∧ 0 ≤ i_offset < bboxes_max_width
           ∧ 0 ≤ j_offset < bboxes_max_height
           ∧ ((covers_a q dst_width dst_height i_offset j_offset r c
               ∧ at2 res.1 r c
                 = Some (recorded_a q src_offset i_offset j_offset).1
               ∧ at2 res.2 r c
                 = Some (recorded_a q src_offset i_offset j_offset).2)
              ∨ (covers_b q dst_width dst_height i_offset j_offset r c
                 ∧ at2 res.1 r c
                   = Some (recorded_b q src_offset i_offset j_offset).1
                 ∧ at2 res.2 r c
                   = Some (recorded_b q src_offset i_offset j_offset).2)))).
  cut (Inv (paint quads src_offset dst_width dst_height bboxes_max_width
              bboxes_max_height result)); [by intros [_ ?]|].
  unfold paint. apply foldl_invariant; [split; [done|by left]|].
  intros res1 j_offset Hj%elem_of_py_range Hres1.
  apply foldl_invariant; [done|].
  intros res2 i_offset Hi%elem_of_py_range Hres2. unfold paint_offset.
  apply foldl_invariant; [apply foldl_invariant; [done|]|].
  - intros res3 q Hq [[Hi1 Hi2] Hinv]. unfold paint_a.
    destruct (is_inside_triangle _ _ _ _ _ _) eqn:Hin; [|done].
    split; [simpl; by rewrite !at2_set2_is_Some|].
    destruct (decide ((Z.to_nat (q_min_j q + j_offset),
                       Z.to_nat (q_min_i q + i_offset)) = (r, c)))
      as [Heq|Hne].
    + right. exists q, i_offset, j_offset. split; [done|].
      split; [done|]. split; [done|]. left. simplify_eq.
      split; [by unfold covers_a|]. simpl.
      by rewrite !at2_set2_eq.
    + simpl. by rewrite !at2_set2_ne.
  - intros res3 q Hq [[Hi1 Hi2] Hinv]. unfold paint_b.
    destruct (is_inside_triangle _ _ _ _ _ _) eqn:Hin; [|done].
    split; [simpl; by rewrite !at2_set2_is_Some|].
    destruct (decide ((Z.to_nat (q_min_j q + j_offset),
                       Z.to_nat (q_min_i q + i_offset)) = (r, c)))
      as [Heq|Hne].
    + right. exists q, i_offset, j_offset. split; [done|].
      split; [done|]. split; [done|]. right. simplify_eq.
      split; [by unfold covers_b|]. simpl.
      by rewrite !at2_set2_eq.
    + simpl. by rewrite !at2_set2_ne.
Qed.
End PainterProofs.

Lemma elem_of_quads_of {F : Type} (fi fj : arr2 (pt4 F))
    (mi mj idc idr : arr2 Z) (q : QuadData F) :
  q ∈ quads_of fi fj mi mj idc idr →
  ∃ r c, at2 fi r c = Some (q_i q) ∧ at2 fj r c = Some (q_j q)
         ∧ at2 mi r c = Some (q_min_i q) ∧ at2 mj r c = Some (q_min_j q)
         ∧ at2 idc r c = Some (q_col q) ∧ at2 idr r c = Some (q_row q).
Proof.
  unfold quads_of. intros (r & c & Hq)%elem_of_concat_at2.
  apply at2_zip2_Some in Hq as (p & b & Hp & Hb & ->).
  apply at2_zip2_Some in Hp as (pi & pj & Hpi & Hpj & ->).
  apply at2_zip2_Some in Hb as (m & id & Hm & Hid & ->).
  apply at2_zip2_Some in Hm as (a & b & Ha & Hb & ->).
  apply at2_zip2_Some in Hid as (cc & rr & Hcc & Hrr & ->).
  exists r, c. simpl. done.
Qed.

Lemma bboxes_of_triangles_min {F : Type} `{FloatOps F}
    (fi fj : arr2 (pt4 F)) (g : Grid F) :
  (bboxes_of_triangles fi fj g).1.1.1
  = map2 (λ p, astype_int (floor_int (min4 p))) fi
  ∧ (bboxes_of_triangles fi fj g).1.1.2
    = map2 (λ p, astype_int (floor_int (min4 p))) fj.
Proof.
  unfold bboxes_of_triangles.
  destruct (select _ _) as [|w ws]; [done|].
  destruct (select _ _) as [|h hs]; done.
Qed.

Lemma lookup_py_range_Some (n : Z) (k : nat) (x : Z) :
  py_range n !! k = Some x → x = Z.of_nat k ∧ Z.of_nat k < n.
Proof.
  unfold py_range. rewrite map_fmap, list_lookup_fmap.
  destruct (seq 0 (Z.to_nat n) !! k) as [y|] eqn:E; simpl; [|done].
  apply lookup_seq in E as [-> ?]. intros. simplify_eq. lia.
Qed.

Lemma at2_tile_cols (n : nat) (m : Z) (r c : nat) (x : Z) :
  at2 (replicate n (py_range m)) r c = Some x → x = Z.of_nat c.
Proof.
  intros (row & Hrow & Hx)%at2_rows.
  apply lookup_replicate in Hrow as [-> _].
  by apply lookup_py_range_Some in Hx as [-> _].
Qed.

Lemma at2_tile_rows (n : nat) (m : Z) (r c : nat) (x : Z) :
  at2 (transpose (replicate n (py_range m))) r c = Some x → x = Z.of_nat r.
Proof.
  destruct (decide (n = 0%nat)) as [->|Hn].
  - unfold transpose. simpl. unfold at2. by rewrite lookup_nil.
  - rewrite transpose_replicate by lia.
    intros (row & Hrow & Hx)%at2_rows.
    rewrite map_fmap, list_lookup_fmap in Hrow.
    destruct (py_range m !! r) as [y|] eqn:E; simpl in Hrow; [|done].
    apply lookup_py_range_Some in E as [-> _]. simplify_eq.
    by apply lookup_replicate in Hx as [-> _].
Qed.

Lemma nan_array_ok {F : Type} `{FloatOps F} (rows cols : Z) (a : arr2 F) :
  nan_array rows cols = Ok a →
  (0 ≤ rows ∧ 0 ≤ cols) ∧ rectangular rows cols a
  ∧ ∀ r c x, at2 a r c = Some x → x = fnan.
Proof.
  unfold nan_array. destruct ((rows <? 0) || (cols <? 0)) eqn:E; [done|].
  intros. simplify_eq. split; [lia|]. split.
  - split; [rewrite length_replicate; lia|].
    apply Forall_forall. intros row Hrow%elem_of_replicate.
    destruct Hrow as [-> _]. rewrite length_replicate. lia.
  - intros r c x (row & Hrow & Hx)%at2_rows.
    apply lookup_replicate in Hrow as [-> _].
    by apply lookup_replicate in Hx as [-> _].
Qed.

(** X6. Every entry of the inverse index of a destination block is NaN in
    both channels, or it is what a triangle of the mesh recorded whose
    shifted bounding-box pixel is this destination pixel and passes the
    membership test: for triangle A of the quad at mesh position
    [(qr, qc)] the pair [(qc + src_offset.1 + ua, qr + src_offset.2 + va)],
    for triangle B [(qc + src_offset.1 + 1 - ub, qr + src_offset.2 + 1 - vb)].
    The bounding box of the quad starts at the floor of the least
    coordinates of its four points. *)
Theorem inverse_index_entries {F : Type} `{FloatOps F}
    (src_lon src_lat : arr2 F) (src_offset : F * F) (g : Grid F)
    (trafo : Transformer F) (block_id : Z * Z) (result : canvas F)
    (r c : nat) (x y : F) :
  inverse_index_of_dst_block_with_src_subset src_lon src_lat src_offset g
    trafo block_id = Ok result →
  at2 result.1 r c = Some x → at2 result.2 r c = Some y →
  let mesh := triangles_in_dst_pixel_grid src_lon src_lat g trafo block_id in
  (x = fnan ∧ y = fnan)
  ∨ ∃ (q : QuadData F) (qr qc : nat)
      (i_offset j_offset dst_width dst_height : Z),
      (at2 mesh.1 qr qc = Some (q_i q) ∧ at2 mesh.2 qr qc = Some (q_j q)
       ∧ q_col q = Z.of_nat qc ∧ q_row q = Z.of_nat qr
       ∧ q_min_i q = astype_int (floor_int (min4 (q_i q)))
       ∧ q_min_j q = astype_int (floor_int (min4 (q_j q))))
      ∧ (0 ≤ i_offset ∧ 0 ≤ j_offset)
      ∧ (block_extent (width g) (tile_width g) block_id.2 = Ok dst_width
         ∧ block_extent (height g) (tile_height g) block_id.1
           = Ok dst_height)
      ∧ ((covers_a q dst_width dst_height i_offset j_offset r c
          ∧ (x, y) = recorded_a q src_offset i_offset j_offset)
         ∨ (covers_b q dst_width dst_height i_offset j_offset r c
            ∧ (x, y) = recorded_b q src_offset i_offset j_offset)).
Proof.
  intros Hres Hx Hy mesh. subst mesh.
  unfold inverse_index_of_dst_block_with_src_subset in Hres.
  destruct (triangles_in_dst_pixel_grid src_lon src_lat g trafo block_id)
    as [fi fj].
  pose proof (bboxes_of_triangles_min fi fj g) as [Hmi Hmj].
  destruct (bboxes_of_triangles fi fj g) as [[[mi mj] mw] mh].
  simpl in Hmi, Hmj. subst mi mj.
  destruct (np_tile (py_range (Z.of_nat (ncols src_lon) - 1)) _)
    as [idc|] eqn:Eidc;
    cbn [mbind res_bind rbind] in Hres; [|discriminate].
  destruct (np_tile _ _) as [idr|] eqn:Eidr in Hres;
    cbn [mbind res_bind rbind] in Hres; [|discriminate].
  destruct (block_extent _ _ block_id.2) as [dw|] eqn:Edw;
    cbn [mbind res_bind rbind] in Hres; [|discriminate].
  destruct (block_extent _ _ block_id.1) as [dh|] eqn:Edh;
    cbn [mbind res_bind rbind] in Hres; [|discriminate].
  destruct (nan_array dh dw) as [nans|] eqn:Enan;
    cbn [mbind res_bind rbind] in Hres; [|discriminate].
  simplify_eq.
  apply nan_array_ok in Enan as (_ & Hrect & Hnan).
  set (quads := quads_of _ _ _ _ _ _) in *.
  destruct (paint_shape quads src_offset dw dh mw mh (nans, nans) dh dw
              Hrect Hrect) as [Hr1 Hr2].
  assert (Hsome : is_Some (at2 nans r c)).
  { apply at2_rows in Hx as (row & Hrow & Hc).
    destruct Hr1 as [Hlen Hcols]. destruct Hrect as [Hlen' Hcols'].
    rewrite Forall_forall in Hcols, Hcols'.
    apply lookup_lt_Some in Hrow as Hlt.
    destruct (lookup_lt_is_Some_2 nans r) as [row' Hrow']; [lia|].
    pose proof (Hcols row (list_elem_of_lookup_2 _ _ _ Hrow)).
    pose proof (Hcols' row' (list_elem_of_lookup_2 _ _ _ Hrow')).
    apply lookup_lt_Some in Hc.
    destruct (lookup_lt_is_Some_2 row' c) as [z Hz]; [lia|].
    exists z. apply at2_rows. eauto. }
  destruct (paint_sound quads src_offset dw dh mw mh (nans, nans) r c
              Hsome Hsome)
    as [[H1 H2]|(q & io & jo & Hq & Hio & Hjo & Hcase)].
  - left. simpl in H1, H2. rewrite Hx in H1. rewrite Hy in H2.
    split; eapply Hnan; eauto.
  - right. apply elem_of_quads_of in Hq
      as (qr & qc & Hfi & Hfj & Hmi & Hmj & Hidc & Hidr).
    exists q, qr, qc, io, jo, dw, dh.
    rewrite at2_map2, Hfi in Hmi. rewrite at2_map2, Hfj in Hmj.
    simpl in Hmi, Hmj. simplify_eq.
    unfold np_tile in Eidc, Eidr.
    destruct (_ <? 0) in Eidc; [done|].
    destruct (_ <? 0) in Eidr; [done|]. simplify_eq.
    apply at2_tile_cols in Hidc. apply at2_tile_rows in Hidr.
    split; [done|]. split; [lia|]. split; [done|].
    destruct Hcase as [(Hc & Ha1 & Ha2)|(Hc & Hb1 & Hb2)].
    + left. split; [done|]. rewrite Hx in Ha1. rewrite Hy in Ha2.
      simplify_eq. by destruct (recorded_a _ _ _ _).
    + right. split; [done|]. rewrite Hx in Hb1. rewrite Hy in Hb2.
      simplify_eq. by destruct (recorded_b _ _ _ _).
Qed.

(** ** The extent of a destination block *)

(** The extent of block [id] is the distance of its borders: the tile size
    for all blocks but the last, the rest of the image for the last. *)
Lemma block_extent_borders (size tile id : Z) :
  0 < tile → 0 ≤ id < ceil_frac size tile →
  block_extent size tile id = Ok (Z.min ((id + 1) * tile) size - id * tile)
  ∧ 0 < Z.min ((id + 1) * tile) size - id * tile ≤ tile.
Proof.
  intros Ht Hid. unfold block_extent. rewrite ceil_div_ok by done.
  cbn [mbind res_bind rbind].
  pose proof (ceil_frac_bounds size tile Ht) as Hb.
  destruct (id <? ceil_frac size tile - 1) eqn:E.
  - apply Z.ltb_lt in E. split; [f_equal|]; nia.
  - apply Z.ltb_ge in E. assert (id = ceil_frac size tile - 1) as -> by lia.
    split; [f_equal|]; nia.
Qed.

(** X7. For a source subset of at least one row and one column, a grid
    with positive tile sizes and a destination block of the grid,
    [inverse_index_of_dst_block_with_src_subset] returns, and both channels
    of the result have the extent of the block: the distance of its borders
    [min((id + 1) * tile, size) - id * tile] in each direction, which is
    positive and at most the tile size. *)
Theorem inverse_index_shape {F : Type} `{FloatOps F}
    (src_lon src_lat : arr2 F) (src_offset : F * F) (g : Grid F)
    (trafo : Transformer F) (block_id : Z * Z) :
  (0 < nrows src_lon)%nat → (0 < ncols src_lon)%nat →
  0 < tile_width g → 0 < tile_height g →
  0 ≤ block_id.1 < ceil_frac (height g) (tile_height g) →
  0 ≤ block_id.2 < ceil_frac (width g) (tile_width g) →
  let dst_width :=
    Z.min ((block_id.2 + 1) * tile_width g) (width g)
    - block_id.2 * tile_width g in
  let dst_height :=
    Z.min ((block_id.1 + 1) * tile_height g) (height g)
    - block_id.1 * tile_height g in
  ∃ result,
    inverse_index_of_dst_block_with_src_subset src_lon src_lat src_offset g
      trafo block_id = Ok result
    ∧ rectangular dst_height dst_width result.1
    ∧ rectangular dst_height dst_width result.2
    ∧ 0 < dst_width ≤ tile_width g ∧ 0 < dst_height ≤ tile_height g.
Proof.
  intros Hr Hc Htw Hth Hj Hi dst_width dst_height.
  destruct (block_extent_borders (width g) (tile_width g) block_id.2 Htw Hi)
    as [Ew Hw].
  destruct (block_extent_borders (height g) (tile_height g) block_id.1 Hth Hj)
    as [Eh Hh].
  fold dst_width in Ew, Hw. fold dst_height in Eh, Hh.
  unfold inverse_index_of_dst_block_with_src_subset.
  destruct (triangles_in_dst_pixel_grid src_lon src_lat g trafo block_id)
    as [fi fj].
  destruct (bboxes_of_triangles fi fj g) as [[[mi mj] mw] mh].
  unfold np_tile.
  destruct (Z.of_nat (nrows src_lon) - 1 <? 0) eqn:E1; [lia|].
  destruct (Z.of_nat (ncols src_lon) - 1 <? 0) eqn:E2; [lia|].
  cbn [mbind res_bind rbind]. rewrite Ew, Eh. cbn [mbind res_bind rbind].
  destruct (nan_array dst_height dst_width) as [nans|] eqn:Enan.
  - cbn [mbind res_bind rbind]. eexists. split; [reflexivity|].
    apply nan_array_ok in Enan as (_ & Hrect & _).
    destruct (paint_shape
                (quads_of fi fj mi mj
                   (replicate (Z.to_nat (Z.of_nat (nrows src_lon) - 1))
                      (py_range (Z.of_nat (ncols src_lon) - 1)))
                   (transpose
                      (replicate (Z.to_nat (Z.of_nat (ncols src_lon) - 1))
                         (py_range (Z.of_nat (nrows src_lon) - 1)))))
                src_offset dst_width dst_height mw mh (nans, nans)
                dst_height dst_width Hrect Hrect) as [H1 H2].
    done.
  - unfold nan_array in Enan.
    destruct ((dst_height <? 0) || (dst_width <? 0)) eqn:E; [lia|done].
Qed.

Lemma inverse_index_shape_witness :
  ∃ result,
    inverse_index_of_dst_block_with_src_subset (F := B64.t)
      [[lit 1035 100; lit 1050 100]; [lit 1025 100; lit 1040 100]]
      [[lit 5398 100; lit 5394 100]; [lit 5388 100; lit 5384 100]]
      (lit 5 10, lit 5 10) test_grid identity_trafo (1, 1) = Ok result
    ∧ rectangular 1 1 result.1 ∧ rectangular 1 1 result.2.
Proof.
  destruct (inverse_index_shape (F := B64.t)
              [[lit 1035 100; lit 1050 100]; [lit 1025 100; lit 1040 100]]
              [[lit 5398 100; lit 5394 100]; [lit 5388 100; lit 5384 100]]
              (lit 5 10, lit 5 10) test_grid identity_trafo (1, 1))
    as (result & Hres & H1 & H2 & _).
  - simpl. lia.
  - simpl. lia.
  - reflexivity.
  - reflexivity.
  - vm_compute. split; congruence.
  - vm_compute. split; congruence.
  - exists result. split; [exact Hres|]. split; [exact H1|exact H2].
Defined.

(** ** An empty source subset *)

Lemma py_slice_sentinel {A} (a : list A) (n : Z) :
  Z.of_nat (length a) = n → py_slice n (-1) a = [].
Proof.
  intros Hn. unfold py_slice. change (-1 <? 0) with true. cbv iota.
  destruct (n <? 0) eqn:E; [lia|].
  apply length_zero_iff_nil. rewrite length_take, length_drop. lia.
Qed.

(** X8. The source subset that [create_inverse_pixel_index] cuts out for
    a destination block whose merged box is the sentinel has no rows, and
    the inverse index of such a block is not NaN but a ValueError: [np.tile]
    is asked for [-1] repetitions. *)
Theorem sentinel_subset_raises {F : Type} `{FloatOps F}
    (lon lat : arr2 F) (src_size : Z * Z) (src_offset : F * F) (g : Grid F)
    (trafo : Transformer F) (block_id : Z * Z) :
  Z.of_nat (length lon) = src_size.1 →
  let '(b0, b1, b2, b3) := sentinel src_size in
  ∃ msg,
    inverse_index_of_dst_block_with_src_subset
      (map (py_slice b0 b2) (py_slice b1 b3 lon))
      (map (py_slice b0 b2) (py_slice b1 b3 lat))
      src_offset g trafo block_id
    = Raise (ValueError msg).
Proof.
  intros Hlen. unfold sentinel.
  rewrite (py_slice_sentinel lon src_size.1 Hlen). simpl map.
  unfold inverse_index_of_dst_block_with_src_subset.
  destruct (triangles_in_dst_pixel_grid _ _ g trafo block_id) as [fi fj].
  destruct (bboxes_of_triangles fi fj g) as [[[mi mj] mw] mh].
  eexists. reflexivity.
Qed.

Lemma sentinel_subset_raises_witness :
  ∃ msg,
    inverse_index_of_dst_block_with_src_subset (F := B64.t)
      (map (py_slice 3 (-1)) (py_slice 4 (-1) (assemble test_lon)))
      (map (py_slice 3 (-1)) (py_slice 4 (-1) (assemble test_lat)))
      (lit 35 10, lit 45 10) test_grid identity_trafo (1, 1)
    = Raise (ValueError msg).
Proof.
  exact (sentinel_subset_raises (assemble test_lon) (assemble test_lat)
           (4, 3) (lit 35 10, lit 45 10) test_grid identity_trafo (1, 1)
           eq_refl).
Defined.

Lemma inverse_index_entries_witness :
  ∃ (q : QuadData B64.t) (i_offset j_offset dst_width dst_height : Z),
    (covers_a q dst_width dst_height i_offset j_offset 0 0
     ∧ (lit 5 10, lit 5 10)
       = recorded_a q (lit 5 10, lit 5 10) i_offset j_offset)
    ∨ (covers_b q dst_width dst_height i_offset j_offset 0 0
       ∧ (lit 5 10, lit 5 10)
         = recorded_b q (lit 5 10, lit 5 10) i_offset j_offset).
Proof.
  assert (Hres : inverse_index_of_dst_block_with_src_subset (F := B64.t)
                   [[lit 5 10; lit 15 10]; [lit 5 10; lit 15 10]]
                   [[lit 5 10; lit 5 10]; [lit 15 10; lit 15 10]]
                   (lit 5 10, lit 5 10) aligned_grid identity_trafo (0, 0)
                 = Ok ([[lit 5 10; lit 15 10]; [lit 5 10; lit 15 10]],
                       [[lit 5 10; lit 5 10]; [lit 15 10; lit 15 10]]))
    by (vm_compute; reflexivity).
  destruct (inverse_index_entries _ _ _ _ _ _ _ 0%nat 0%nat (lit 5 10)
              (lit 5 10) Hres eq_refl eq_refl)
    as [[Hx _]|(q & qr & qc & io & jo & dw & dh & _ & _ & _ & Hcase)].
  - vm_compute in Hx. discriminate.
  - exists q, io, jo, dw, dh. exact Hcase.
Defined.

(** ** Covering grid *)

Lemma concat_map2 {A B} (f : A → B) (a : arr2 A) :
  concat (map2 f a) = map f (concat a).
Proof.
  unfold map2. induction a as [|row a IH]; simpl; [done|].
  by rewrite IH, map_app.
Qed.

Lemma concat_map_map {A B} (f : A → B) (l : list (list A)) :
  concat (map (map f) l) = map f (concat l).
Proof. exact (concat_map2 f l). Qed.

(** The least of the minima of non-empty lists is the least element of
    all. *)
Lemma nested_min (ls : list (list Z)) (ms : list Z) :
  ls ≠ [] → Forall2 (λ l m, np_min l = Ok m) ls ms →
  ∃ m, np_min ms = Ok m ∧ is_least (λ i, ∃ l, l ∈ ls ∧ i ∈ l) m.
Proof.
  intros Hne H2.
  assert (Hl : ∀ l m, np_min l = Ok m → m ∈ l ∧ ∀ y, y ∈ l → m ≤ y).
  { intros l m Hm. destruct (np_min_spec l) as (m' & Hm' & Hin & Hle).
    - intros ->. done.
    - rewrite Hm in Hm'. by simplify_eq. }
  destruct (np_min_spec ms) as (m & Hm & Hin & Hle).
  { intros ->. apply Forall2_nil_inv_r in H2. done. }
  exists m. split; [done|]. split.
  - apply list_elem_of_lookup in Hin as [k Hk].
    destruct (Forall2_lookup_r _ _ _ _ _ H2 Hk) as (l & Hlk & Hml).
    exists l. split; [by eapply list_elem_of_lookup_2|]. by apply Hl.
  - intros i (l & Hlin & Hi). apply list_elem_of_lookup in Hlin as [k Hk].
    destruct (Forall2_lookup_l _ _ _ _ _ H2 Hk) as (m' & Hm' & Hml).
    apply Hl in Hml as [_ Hml]. specialize (Hml i Hi).
    specialize (Hle m' (list_elem_of_lookup_2 _ _ _ Hm')). lia.
Qed.

Lemma nested_max (ls : list (list Z)) (ms : list Z) :
  ls ≠ [] → Forall2 (λ l m, np_max l = Ok m) ls ms →
  ∃ m, np_max ms = Ok m ∧ is_greatest (λ i, ∃ l, l ∈ ls ∧ i ∈ l) m.
Proof.
  intros Hne H2.
  assert (Hl : ∀ l m, np_max l = Ok m → m ∈ l ∧ ∀ y, y ∈ l → y ≤ m).
  { intros l m Hm. destruct (np_max_spec l) as (m' & Hm' & Hin & Hle).
    - intros ->. done.
    - rewrite Hm in Hm'. by simplify_eq. }
  destruct (np_max_spec ms) as (m & Hm & Hin & Hle).
  { intros ->. apply Forall2_nil_inv_r in H2. done. }
  exists m. split; [done|]. split.
  - apply list_elem_of_lookup in Hin as [k Hk].
    destruct (Forall2_lookup_r _ _ _ _ _ H2 Hk) as (l & Hlk & Hml).
    exists l. split; [by eapply list_elem_of_lookup_2|]. by apply Hl.
  - intros i (l & Hlin & Hi). apply list_elem_of_lookup in Hlin as [k Hk].
    destruct (Forall2_lookup_l _ _ _ _ _ H2 Hk) as (m' & Hm' & Hml).
    apply Hl in Hml as [_ Hml]. specialize (Hml i Hi).
    specialize (Hle m' (list_elem_of_lookup_2 _ _ _ Hm')). lia.
Qed.

(** The bounding boxes of the blocks of a forward index whose blocks are
    not empty. *)
Lemma block_bboxes_ok (bs : list (arr2 Z * arr2 Z)) :
  Forall (λ b, concat b.1 ≠ [] ∧ concat b.2 ≠ []) bs →
  ∃ bboxes,
    traverse (λ '(bi, bj), dst_bbox_of_src_block bi bj) bs
    = Ok bboxes
    ∧ Forall2 (λ l m, np_min l = Ok m) (map (λ b, concat b.1) bs)
        (map (λ b : Z * Z * Z * Z, b.1.1.1) bboxes)
    ∧ Forall2 (λ l m, np_min l = Ok m) (map (λ b, concat b.2) bs)
        (map (λ b : Z * Z * Z * Z, b.1.1.2) bboxes)
    ∧ Forall2 (λ l m, np_max l = Ok m) (map (λ b, concat b.1) bs)
        (map (λ b : Z * Z * Z * Z, b.1.2) bboxes)
    ∧ Forall2 (λ l m, np_max l = Ok m) (map (λ b, concat b.2) bs)
        (map (λ b : Z * Z * Z * Z, b.2) bboxes).
Proof.
  induction bs as [|[bi bj] bs IH]; intros Hne.
  - exists []. simpl. repeat split; constructor.
  - apply Forall_cons in Hne as [[Hi Hj] Hne]. simpl in Hi, Hj.
    destruct (IH Hne) as (bboxes & Hb & H1 & H2 & H3 & H4).
    destruct (np_min_spec _ Hi) as (m1 & E1 & _).
    destruct (np_min_spec _ Hj) as (m2 & E2 & _).
    destruct (np_max_spec _ Hi) as (m3 & E3 & _).
    destruct (np_max_spec _ Hj) as (m4 & E4 & _).
    exists ((m1, m2, m3, m4) :: bboxes). simpl. rewrite Hb.
    unfold dst_bbox_of_src_block. rewrite E1, E2, E3, E4.
    cbn [mbind res_bind rbind].
    repeat split; by constructor.
Qed.

Lemma zip_concat_fst_snd {A B} (blocks : list (list (A * B))) :
  zip (concat (map (map fst) blocks)) (concat (map (map snd) blocks))
  = concat blocks.
Proof. rewrite !concat_map_map, !map_fmap. apply zip_fst_snd. Qed.

(** X9. On a Rectifier whose forward index was created, with at least one
    block, no empty block and all preliminary indices within [2^61],
    [determine_covering_dst_grid] returns; with [i_min], [i_max], [j_min],
    [j_max] the extrema of the preliminary index over all source pixels,
    the new grid has origin [(i_min * x_res, j_min * y_res)] (computed in
    floating point), width [i_max - i_min + 1 >= 1], height
    [j_max - j_min + 1 >= 1] and the resolution, tile sizes and CRS of the
    old one; the Rectifier refers to the new grid object, and the old grid
    object, to which the forward index still refers, was updated in place
    to the same values, so that the forward index, which is not shifted, is
    recomputed against the new origin. *)
Theorem covering_grid_extent {F : Type} `{FloatOps F}
    (from_crs : Transformer F) (h : store F) (self0 self : Rectifier F)
    (fw : ForwardGraph F) (l : loc) (g : Grid F) (fi fj : chunked Z) :
  create_forward_pixel_index from_crs h self0 = Ok (self, fw) →
  dst_grid self0 = Some l → h !! l = Some g →
  compute_forward h fw = Ok (fi, fj) →
  concat fi ≠ [] →
  Forall (λ blk, concat blk ≠ []) (concat fi) →
  Forall (λ blk, concat blk ≠ []) (concat fj) →
  (∀ i, entry_of fi i → - 2 ^ 61 ≤ i < 2 ^ 61) →
  (∀ j, entry_of fj j → - 2 ^ 61 ≤ j < 2 ^ 61) →
  ∃ h' self' l' g' i_min i_max j_min j_max,
    determine_covering_dst_grid h self = Ok (h', self', l')
    ∧ (is_least (entry_of fi) i_min ∧ is_greatest (entry_of fi) i_max
       ∧ is_least (entry_of fj) j_min ∧ is_greatest (entry_of fj) j_max)
    ∧ (dst_grid self' = Some l' ∧ forward_index self' = Val fw
       ∧ h' !! l' = Some g' ∧ h' !! l = Some g')
    ∧ g' = mkGrid (is_geographic g)
             (fmul (of_int i_min) (x_res g)) (fmul (of_int j_min) (y_res g))
             (x_res g) (y_res g)
             (i_max - i_min + 1) (j_max - j_min + 1)
             (tile_width g) (tile_height g)
    ∧ (1 ≤ width g' ∧ 1 ≤ height g')
    ∧ compute_forward h' fw
      = Ok (map (map fst)
              (zip_with (zip_with (λ lon lat,
                 block_dst_pixels_of_src_block lon lat from_crs g'))
                 (src_lon self0) (src_lat self0)),
            map (map snd)
              (zip_with (zip_with (λ lon lat,
                 block_dst_pixels_of_src_block lon lat from_crs g'))
                 (src_lon self0) (src_lat self0))).
Proof.
  intros Hcreate Hl Hg Hcf Hne Hnei Hnej Hri Hrj.
  unfold create_forward_pixel_index in Hcreate.
  unfold deref in Hcreate. rewrite Hl, Hg in Hcreate.
  cbn [mbind res_bind rbind] in Hcreate. injection Hcreate as <- <-.
  set (fw := {| fw_lon := src_lon self0; fw_lat := src_lat self0;
                fw_trafo := from_crs; fw_grid := Some l |}) in *.
  set (Fg := λ (g : Grid F) (lon lat : arr2 F),
         block_dst_pixels_of_src_block lon lat from_crs g).
  set (blocks := zip_with (zip_with (Fg g)) (src_lon self0) (src_lat self0)).
  assert (Hcfg : ∀ h0 g0, h0 !! l = Some g0 →
            compute_forward h0 fw
            = Ok (map (map fst)
                    (zip_with (zip_with (Fg g0)) (src_lon self0)
                       (src_lat self0)),
                  map (map snd)
                    (zip_with (zip_with (Fg g0)) (src_lon self0)
                       (src_lat self0)))).
  { intros h0 g0 Hg0. unfold compute_forward, deref. subst fw.
    cbn [fw_grid fw_lon fw_lat fw_trafo]. rewrite Hg0. reflexivity. }
  rewrite (Hcfg h g Hg) in Hcf. fold blocks in Hcf.
  injection Hcf as <- <-.
  (* the blocks are not empty *)
  assert (Hcb : Forall (λ b : arr2 Z * arr2 Z,
                          concat b.1 ≠ [] ∧ concat b.2 ≠ []) (concat blocks)).
  { rewrite concat_map_map in Hnei, Hnej.
    rewrite map_fmap, Forall_fmap in Hnei, Hnej.
    rewrite Forall_forall in Hnei, Hnej. apply Forall_forall.
    intros b Hb. split; [by apply Hnei|by apply Hnej]. }
  destruct (block_bboxes_ok (concat blocks) Hcb)
    as (bboxes & Hbb & H1 & H2 & H3 & H4).
  assert (Hls : ∀ (p : arr2 Z * arr2 Z → arr2 Z),
            concat blocks ≠ [] →
            map (λ b, concat (p b)) (concat blocks) ≠ []).
  { intros p Hnb Heq. apply Hnb. by destruct (concat blocks). }
  assert (Hnb : concat blocks ≠ []).
  { intros Heq. apply Hne. by rewrite concat_map_map, Heq. }
  destruct (nested_min _ _ (Hls fst Hnb) H1) as (i_min & Ei_min & Hi_min).
  destruct (nested_min _ _ (Hls snd Hnb) H2) as (j_min & Ej_min & Hj_min).
  destruct (nested_max _ _ (Hls fst Hnb) H3) as (i_max & Ei_max & Hi_max).
  destruct (nested_max _ _ (Hls snd Hnb) H4) as (j_max & Ej_max & Hj_max).
  assert (Hent1 : ∀ i, (∃ l0, l0 ∈ map (λ b : arr2 Z * arr2 Z, concat b.1)
                                       (concat blocks) ∧ i ∈ l0)
                       ↔ entry_of (map (map fst) blocks) i).
  { intros i. unfold entry_of. rewrite concat_map_map. split.
    - intros (l0 & Hl0 & Hi). rewrite map_fmap in Hl0.
      apply list_elem_of_fmap in Hl0 as (b & -> & Hb).
      exists b.1. split; [|done]. rewrite map_fmap.
      by apply list_elem_of_fmap_2.
    - intros (blk & Hblk & Hi). rewrite map_fmap in Hblk.
      apply list_elem_of_fmap in Hblk as (b & -> & Hb).
      exists (concat b.1). split; [|done]. rewrite map_fmap.
      by apply (list_elem_of_fmap_2 (λ b : arr2 Z * arr2 Z, concat b.1)). }
  assert (Hent2 : ∀ i, (∃ l0, l0 ∈ map (λ b : arr2 Z * arr2 Z, concat b.2)
                                       (concat blocks) ∧ i ∈ l0)
                       ↔ entry_of (map (map snd) blocks) i).
  { intros i. unfold entry_of. rewrite concat_map_map. split.
    - intros (l0 & Hl0 & Hi). rewrite map_fmap in Hl0.
      apply list_elem_of_fmap in Hl0 as (b & -> & Hb).
      exists b.2. split; [|done]. rewrite map_fmap.
      by apply list_elem_of_fmap_2.
    - intros (blk & Hblk & Hi). rewrite map_fmap in Hblk.
      apply list_elem_of_fmap in Hblk as (b & -> & Hb).
      exists (concat b.2). split; [|done]. rewrite map_fmap.
      by apply (list_elem_of_fmap_2 (λ b : arr2 Z * arr2 Z, concat b.2)). }
  apply (is_least_ext _ _ _ Hent1) in Hi_min.
  apply (is_greatest_ext _ _ _ Hent1) in Hi_max.
  apply (is_least_ext _ _ _ Hent2) in Hj_min.
  apply (is_greatest_ext _ _ _ Hent2) in Hj_max.
  assert (Hbi : - 2 ^ 61 ≤ i_min ≤ i_max ∧ i_max < 2 ^ 61).
  { destruct Hi_min as [Hm Hle], Hi_max as [Hx Hge].
    pose proof (Hri _ Hm). pose proof (Hri _ Hx). specialize (Hle _ Hx).
    lia. }
  assert (Hbj : - 2 ^ 61 ≤ j_min ≤ j_max ∧ j_max < 2 ^ 61).
  { destruct Hj_min as [Hm Hle], Hj_max as [Hx Hge].
    pose proof (Hrj _ Hm). pose proof (Hrj _ Hx). specialize (Hle _ Hx).
    lia. }
  assert (H63 : 2 ^ 63 = 4 * 2 ^ 61) by reflexivity.
  assert (Hwi : wrap64 (wrap64 (i_max - i_min) + 1) = i_max - i_min + 1).
  { rewrite (wrap64_small (i_max - i_min)) by lia. apply wrap64_small. lia. }
  assert (Hwj : wrap64 (wrap64 (j_max - j_min) + 1) = j_max - j_min + 1).
  { rewrite (wrap64_small (j_max - j_min)) by lia. apply wrap64_small. lia. }
  set (g1 := mkGrid (is_geographic g)
               (fmul (of_int i_min) (x_res g)) (fmul (of_int j_min) (y_res g))
               (x_res g) (y_res g)
               (i_max - i_min + 1) (j_max - j_min + 1)
               (tile_width g) (tile_height g)).
  assert (Hlt : (l < length h)%nat) by (by eapply lookup_lt_Some).
  exists (<[l := g1]> h ++ [g1]),
    {| src_lon := src_lon self0; src_lat := src_lat self0;
       dst_grid := Some (length (<[l := g1]> h)); name := name self0;
       trafo := Val from_crs; forward_index := Val fw;
       inverse_index := inverse_index self0 |},
    (length (<[l := g1]> h)), g1, i_min, i_max, j_min, j_max.
  assert (Hl1 : (<[l := g1]> h ++ [g1]) !! l = Some g1).
  { rewrite lookup_app_l by (by rewrite length_insert).
    by apply list_lookup_insert_eq. }
  split.
  { unfold determine_covering_dst_grid.
    cbn [forward_index getattr mbind res_bind rbind].
    rewrite (Hcfg h g Hg). fold blocks. cbn [mbind res_bind rbind].
    rewrite zip_concat_fst_snd, Hbb. cbn [mbind res_bind rbind].
    rewrite Ei_min, Ej_min, Ei_max, Ej_max. cbn [mbind res_bind rbind].
    unfold deref. cbn [dst_grid]. rewrite Hg.
    cbn [mbind res_bind rbind]. cbn [is_geographic x_res y_res tile_width tile_height].
    rewrite Hwi, Hwj. reflexivity. }
  split; [done|]. split.
  { split; [done|]. split; [done|]. split; [|done].
    apply list_lookup_middle. done. }
  split; [done|]. split; [simpl; lia|].
  by rewrite (Hcfg _ g1 Hl1).
Qed.

Lemma covering_grid_extent_witness :
  let g : Grid B64.t :=
    mkGrid true (of_int 0) (of_int 0) (lit 1 10) (lit (- 1) 10) 0 0 2 2 in
  let self0 : Rectifier B64.t :=
    init [[ [[lit 345 100; lit 355 100]] ]]
         [[ [[lit 5005 100; lit 5005 100]] ]]
         (Some 0%nat) "rectify" in
  ∃ self fw h' self' l' g',
    create_forward_pixel_index identity_trafo [g] self0 = Ok (self, fw)
    ∧ compute_forward [g] fw = Ok ([[ [[34; 35]] ]], [[ [[-501; -501]] ]])
    ∧ determine_covering_dst_grid [g] self = Ok (h', self', l')
    ∧ h' !! l' = Some g' ∧ width g' = 2 ∧ height g' = 1.
Proof.
  intros g self0.
  destruct (covering_grid_extent identity_trafo [g] self0 _ _ 0%nat g
              [[ [[34; 35]] ]] [[ [[-501; -501]] ]]
              eq_refl eq_refl eq_refl)
    as (h' & self' & l' & g' & i_min & i_max & j_min & j_max & Hdet & _
        & (_ & _ & Hg' & _) & _ & _ & _).
  - vm_compute. reflexivity.
  - discriminate.
  - repeat constructor. discriminate.
  - repeat constructor. discriminate.
  - intros i (blk & Hblk & Hi). simpl in Hblk.
    apply list_elem_of_singleton in Hblk as ->. simpl in Hi.
    rewrite !elem_of_cons, elem_of_nil in Hi. lia.
  - intros i (blk & Hblk & Hi). simpl in Hblk.
    apply list_elem_of_singleton in Hblk as ->. simpl in Hi.
    rewrite !elem_of_cons, elem_of_nil in Hi. lia.
  - eexists _, _, h', self', l', g'. split; [reflexivity|].
    split; [vm_compute; reflexivity|]. split; [exact Hdet|].
    vm_compute in Hdet. injection Hdet as <- <- <-.
    vm_compute in Hg'. injection Hg' as <-.
    split; [reflexivity|]. split; reflexivity.
Defined.

(** In binary64 the containment can fail: for a single pixel at longitude
    and latitude 3.4 and resolution 0.1 the preliminary index is 34, the new
    origin [34 * 0.1] is the double above 3.4, and the index recomputed on
    the covering grid is -1, outside [[0, 1)]. *)
Lemma covering_grid_binary64_rounding :
  let g : Grid B64.t :=
    mkGrid true (of_int 0) (of_int 0) (lit 1 10) (lit 1 10) 0 0 2 2 in
  let self0 : Rectifier B64.t :=
    init [[ [[lit 34 10]] ]] [[ [[lit 34 10]] ]] (Some 0%nat) "rectify" in
  ∃ self fw h' self' l' g',
    create_forward_pixel_index identity_trafo [g] self0 = Ok (self, fw)
    ∧ compute_forward [g] fw = Ok ([[ [[34]] ]], [[ [[34]] ]])
    ∧ determine_covering_dst_grid [g] self = Ok (h', self', l')
    ∧ h' !! l' = Some g' ∧ width g' = 1 ∧ height g' = 1
    ∧ compute_forward h' fw = Ok ([[ [[-1]] ]], [[ [[-1]] ]]).
Proof.
  intros g self0. eexists _, _, _, _, _, _.
  split; [reflexivity|]. split; [vm_compute; reflexivity|].
  split; [vm_compute; reflexivity|]. split; [reflexivity|].
  split; [reflexivity|]. split; [reflexivity|]. vm_compute. reflexivity.
Qed.

(** The new origin is [(i_min * x_res, j_min * y_res)] whatever the origin
    of the grid was: on a grid whose origin is not [(0, 0)] the recomputed
    index leaves the covering grid, here without any rounding. *)
Lemma covering_grid_ignores_origin :
  let g : Grid B64.t :=
    mkGrid true (of_int 10) (of_int 10) (of_int 1) (of_int 1) 0 0 2 2 in
  let self0 : Rectifier B64.t :=
    init [[ [[lit 105 10]] ]] [[ [[lit 105 10]] ]] (Some 0%nat) "rectify" in
  ∃ self fw h' self' l' g',
    create_forward_pixel_index identity_trafo [g] self0 = Ok (self, fw)
    ∧ compute_forward [g] fw = Ok ([[ [[0]] ]], [[ [[0]] ]])
    ∧ determine_covering_dst_grid [g] self = Ok (h', self', l')
    ∧ h' !! l' = Some g' ∧ width g' = 1 ∧ height g' = 1
    ∧ compute_forward h' fw = Ok ([[ [[10]] ]], [[ [[10]] ]]).
Proof.
  intros g self0. eexists _, _, _, _, _, _.
  split; [reflexivity|]. split; [vm_compute; reflexivity|].
  split; [vm_compute; reflexivity|]. split; [reflexivity|].
  split; [reflexivity|]. split; [reflexivity|]. vm_compute. reflexivity.
Qed.

(** ** The values the resampler writes *)

Section ResamplerValues.
Context {F : Type} `{FloatOps F}.

(** When every write to a pixel writes the same value, and there is one,
    the pixel holds that value in the end. *)
Lemma foldl_set2_same (l : list ((nat * nat * (Z * Z)) * F)) (d : arr2 F)
    (r c : nat) (w : F) :
  is_Some (at2 d r c) →
  (∀ pv, pv ∈ l → pv.1.1 = (r, c) → to_float32 pv.2 = w) →
  let d' := foldl (λ d (pv : (nat * nat * (Z * Z)) * F),
                     set2 d (Z.of_nat pv.1.1.1) (Z.of_nat pv.1.1.2)
                       (to_float32 pv.2)) d l in
  (at2 d' r c = Some w ∧ ∃ pv, pv ∈ l ∧ pv.1.1 = (r, c))
  ∨ (at2 d' r c = at2 d r c ∧ ∀ pv, pv ∈ l → pv.1.1 ≠ (r, c)).
Proof.
  revert d. induction l as [|pv l IH]; intros d Hs Hw; simpl.
  - right. split; [done|]. intros pv Hpv. by apply elem_of_nil in Hpv.
  - destruct (IH (set2 d (Z.of_nat pv.1.1.1) (Z.of_nat pv.1.1.2)
                    (to_float32 pv.2))) as [[Hv (pv' & Hin & Heq)]|[Hv Hno]].
    { by apply at2_set2_is_Some. }
    { intros pv' Hin. apply Hw. by right. }
    + left. split; [done|]. exists pv'. split; [by right|done].
    + destruct (decide (pv.1.1 = (r, c))) as [Heq|Hne].
      * left. split; [|exists pv; split; [left|done]].
        rewrite Hv. rewrite (Hw pv (list_elem_of_here _ _) Heq).
        destruct pv as [[[r' c'] sh] v]. simpl in *. simplify_eq.
        apply at2_set2_eq; [lia|lia|done].
      * right. split.
        -- rewrite Hv. apply at2_set2_ne. rewrite !Nat2Z.id.
           destruct pv as [[[r' c'] sh] v]. simpl in *. done.
        -- intros pv' [->|Hin]%elem_of_cons; [done|by apply Hno].
Qed.

Lemma gather_band_value (px : list (nat * nat * (Z * Z)))
    (m_band dst_band : arr2 F) (rows cols : Z) (r c : nat) (sj si : Z) :
  rectangular rows cols m_band →
  (∀ p, p ∈ px → 0 ≤ p.2.1 < rows ∧ 0 ≤ p.2.2 < cols) →
  is_Some (at2 dst_band r c) →
  (r, c, (sj, si)) ∈ px →
  (∀ p, p ∈ px → p.1 = (r, c) → p.2 = (sj, si)) →
  ∃ v d', np_index2 m_band sj si = Ok v
          ∧ gather_band px m_band dst_band = Ok d'
          ∧ at2 d' r c = Some (to_float32 v).
Proof.
  intros Hrect Hpx Hs Hin Hsame.
  destruct (Hpx _ Hin) as [Hj Hi]. simpl in Hj, Hi.
  destruct (np_index2_ok m_band rows cols sj si Hrect Hj Hi) as (v & Hv).
  exists v. unfold gather_band.
  destruct (traverse_ok (λ p : nat * nat * (Z * Z),
                           np_index2 m_band p.2.1 p.2.2) px)
    as (values & Hvals & Hlen).
  { intros p Hp. destruct (Hpx p Hp). by eapply np_index2_ok. }
  rewrite Hvals. cbn [mbind res_bind rbind]. eexists. split; [done|].
  split; [done|].
  apply traverse_Forall2 in Hvals.
  assert (Hzip : ∀ pv, pv ∈ zip px values →
            pv.1 ∈ px ∧ np_index2 m_band pv.1.2.1 pv.1.2.2 = Ok pv.2).
  { intros [p v'] Hpv. apply elem_of_lookup_zip_with in Hpv
      as (i & p' & v'' & Heq & Hp' & Hv''). simplify_eq. simpl.
    split; [by eapply list_elem_of_lookup_2|].
    by destruct (Forall2_lookup_lr _ _ _ _ _ _ Hvals Hp' Hv''). }
  destruct (foldl_set2_same (zip px values) dst_band r c (to_float32 v) Hs)
    as [[Hd _]|[_ Hno]].
  - intros pv Hpv Heq. destruct (Hzip pv Hpv) as [Hp Hval].
    rewrite (Hsame _ Hp Heq) in Hval. simpl in Hval.
    rewrite Hv in Hval. by simplify_eq.
  - done.
  - exfalso. apply list_elem_of_lookup in Hin as [i Hi'].
    destruct (Forall2_lookup_l _ _ _ _ _ Hvals Hi') as (v' & Hv' & _).
    apply (Hno ((r, c, (sj, si)), v')); [|done].
    apply elem_of_lookup_zip_with. eauto 10.
Qed.

Lemma gather_value (px : list (nat * nat * (Z * Z))) (rows cols : Z)
    (m dst_data : stack F) (r c : nat) (sj si : Z) :
  length m = length dst_data →
  Forall (rectangular rows cols) m →
  (∀ p, p ∈ px → 0 ≤ p.2.1 < rows ∧ 0 ≤ p.2.2 < cols) →
  (∀ band, band ∈ dst_data → is_Some (at2 band r c)) →
  (r, c, (sj, si)) ∈ px →
  (∀ p, p ∈ px → p.1 = (r, c) → p.2 = (sj, si)) →
  ∃ d', gather px m dst_data = Ok d'
        ∧ length d' = length dst_data
        ∧ ∀ k band, m !! k = Some band →
            ∃ v out, np_index2 band sj si = Ok v
                     ∧ d' !! k = Some out
                     ∧ at2 out r c = Some (to_float32 v).
Proof.
  intros Hlen Hrect Hpx Hs Hin Hsame. revert dst_data Hlen Hs.
  induction m as [|mb m IH]; intros [|db dst] Hlen Hs;
    simpl in Hlen; try discriminate.
  - exists []. split; [done|]. split; [done|]. intros k band Hk.
    by rewrite lookup_nil in Hk.
  - apply Forall_cons in Hrect as [Hmb Hm].
    destruct (gather_band_value px mb db rows cols r c sj si Hmb Hpx)
      as (v & b & Hv & Hb & Hbv); [apply Hs; left|done|done|].
    destruct (IH Hm dst) as (rest & Hrest & Hlr & Hval);
      [lia|intros band Hband; apply Hs; by right|].
    simpl. rewrite Hb. cbn [mbind res_bind rbind]. rewrite Hrest.
    cbn [mbind res_bind rbind].
    exists (b :: rest). split; [done|]. split; [simpl; lia|].
    intros [|k] band Hk; simpl in *.
    + simplify_eq. eauto.
    + by apply Hval.
Qed.

Lemma rectify_tiles_app (block_i block_j : arr2 Z) (ts : Z * Z)
    (num_blocks_i : Z) (dst_data : stack F) (l1 l2 : list (Z * stack F)) :
  rectify_tiles block_i block_j ts num_blocks_i dst_data (l1 ++ l2)
  = d ← rectify_tiles block_i block_j ts num_blocks_i dst_data l1;
    rectify_tiles block_i block_j ts num_blocks_i d l2.
Proof.
  revert dst_data. induction l1 as [|tm l1 IH]; intros dst_data; simpl;
    [done|].
  destruct (rectify_tile _ _ _ _ _ _) as [d|]; simpl; [apply IH|done].
Qed.

Lemma rectify_tiles_single (block_i block_j : arr2 Z) (ts : Z * Z)
    (num_blocks_i : Z) (dst_data : stack F) (tm : Z * stack F) :
  rectify_tiles block_i block_j ts num_blocks_i dst_data [tm]
  = rectify_tile block_i block_j ts num_blocks_i dst_data tm.
Proof. simpl. by destruct (rectify_tile _ _ _ _ _ _). Qed.
End ResamplerValues.

(** A tile number is determined by its tile row and tile column. *)
Lemma tile_of_row_col (t1 t2 n : Z) :
  n ≠ 0 → np_floordiv t1 n = np_floordiv t2 n → np_mod t1 n = np_mod t2 n →
  t1 = t2.
Proof.
  unfold np_floordiv, np_mod. intros Hn.
  destruct (n =? 0) eqn:E; [lia|]. intros Hd Hm.
  rewrite (Z.div_mod t1 n Hn), (Z.div_mod t2 n Hn). congruence.
Qed.

Lemma tile_mask_tile (ts : Z * Z) (tile_j tile_i rows cols bj bi : Z) :
  tile_mask ts tile_j tile_i rows cols bj bi = true →
  np_floordiv bj ts.1 = tile_j ∧ np_floordiv bi ts.2 = tile_i.
Proof. unfold tile_mask. lia. Qed.

(** The loop over the source tiles: the pixel at which the mask of one
    tile holds, and of no other tile of the list, gets the values of that
    tile. *)
Lemma rectify_tiles_value {F : Type} `{FloatOps F}
    (block_i block_j : arr2 Z) (src_tilesize : Z * Z) (num_blocks_i : Z)
    (nb : nat) (tms : list (Z * stack F)) (dst_data : stack F)
    (n : nat) (tile : Z) (m : stack F) (r c : nat) (bj bi : Z) :
  length dst_data = nb →
  (∀ band, band ∈ dst_data → is_Some (at2 band r c)) →
  Forall (λ tm : Z * stack F, well_shaped nb tm.2) tms →
  num_blocks_i ≠ 0 →
  tms !! n = Some (tile, m) →
  (∀ n' tm, tms !! n' = Some tm → tm.1 = tile → n' = n) →
  at2 block_j r c = Some bj → at2 block_i r c = Some bi →
  let tile_j := np_floordiv tile num_blocks_i in
  let tile_i := np_mod tile num_blocks_i in
  tile_mask src_tilesize tile_j tile_i (stack_rows m) (stack_cols m) bj bi
  = true →
  ∃ d,
    rectify_tiles block_i block_j src_tilesize num_blocks_i dst_data tms
    = Ok d
    ∧ length d = nb
    ∧ ∀ k band, m !! k = Some band →
        ∃ v out,
          np_index2 band (bj - tile_j * src_tilesize.1)
            (bi - tile_i * src_tilesize.2) = Ok v
          ∧ d !! k = Some out
          ∧ at2 out r c = Some (to_float32 v).
Proof.
  intros Hlen Hs0 Hzip Hnb Htm Huniq Hbj Hbi tile_j tile_i Hmask.
  (* no other tile writes the pixel *)
  assert (Hother : ∀ n' tm p, tms !! n' = Some tm → n' ≠ n →
            p ∈ masked_pixels block_i block_j src_tilesize
                  (np_floordiv tm.1 num_blocks_i) (np_mod tm.1 num_blocks_i)
                  (stack_rows tm.2) (stack_cols tm.2) →
            p.1 ≠ (r, c)).
  { intros n' [t' m'] p Htm' Hne
      (bj' & bi' & Hj' & Hi' & Hmask' & _)%elem_of_masked_pixels Hp.
    rewrite Hp in Hj', Hi'. simpl in Hj', Hi', Hmask'.
    rewrite Hbj in Hj'. rewrite Hbi in Hi'.
    injection Hj' as <-. injection Hi' as <-.
    apply tile_mask_tile in Hmask as [Hj Hi].
    apply tile_mask_tile in Hmask' as [Hj'' Hi''].
    apply Hne, (Huniq n' (t', m') Htm'). simpl.
    unfold tile_j, tile_i in Hj, Hi.
    apply (tile_of_row_col _ _ num_blocks_i Hnb); congruence. }
  pose proof (take_drop_middle tms n (tile, m) Htm) as Hsplit.
  assert (Hpre : Forall (λ tm : Z * stack F, well_shaped nb tm.2)
                   (take n tms)) by (by apply Forall_take).
  assert (Hpost : Forall (λ tm : Z * stack F, well_shaped nb tm.2)
                    (drop (S n) tms)) by (by apply Forall_drop).
  assert (Hwm : well_shaped nb m).
  { rewrite Forall_forall in Hzip.
    apply (Hzip (tile, m)). by eapply list_elem_of_lookup_2. }
  rewrite <- Hsplit, rectify_tiles_app.
  destruct (rectify_tiles_ok block_i block_j src_tilesize num_blocks_i
              nb (take n tms) dst_data)
    as (d1 & Hd1 & Hl1 & Ho1); [done|done|].
  rewrite Hd1. cbn [mbind res_bind rbind].
  assert (Hs1 : ∀ band, band ∈ d1 → is_Some (at2 band r c)).
  { intros band [k Hk]%list_elem_of_lookup.
    destruct (Ho1 r c) with (k := k) (band := band)
      as (band0 & Hk0 & Heq); [|done|].
    - intros tm p [n' Hn']%list_elem_of_lookup Hp.
      apply lookup_take_Some in Hn' as [Hn' Hlt].
      apply (Hother n' tm p Hn'); [lia|done].
    - rewrite Heq. apply Hs0. by eapply list_elem_of_lookup_2. }
  change ((tile, m) :: drop (S n) tms) with ([(tile, m)] ++ drop (S n) tms).
  rewrite rectify_tiles_app, rectify_tiles_single.
  unfold rectify_tile. fold tile_j tile_i.
  destruct Hwm as [Hlm Hrect].
  destruct (gather_value
              (masked_pixels block_i block_j src_tilesize tile_j tile_i
                 (stack_rows m) (stack_cols m))
              (stack_rows m) (stack_cols m) m d1 r c
              (bj - tile_j * src_tilesize.1) (bi - tile_i * src_tilesize.2))
    as (d2 & Hd2 & Hl2 & Hval); [lia|done| |done| | |].
  { intros p Hp. by eapply masked_pixels_in_range. }
  { apply elem_of_masked_pixels. exists bj, bi. done. }
  { intros p (bj' & bi' & Hj' & Hi' & _ & Hp2)%elem_of_masked_pixels Hp.
    rewrite Hp in Hj', Hi'. simpl in Hj', Hi'.
    rewrite Hbj in Hj'. rewrite Hbi in Hi'.
    injection Hj' as <-. injection Hi' as <-. done. }
  rewrite Hd2. cbn [mbind res_bind rbind].
  destruct (rectify_tiles_ok block_i block_j src_tilesize num_blocks_i
              nb (drop (S n) tms) d2)
    as (d3 & Hd3 & Hl3 & Ho3); [lia|done|].
  rewrite Hd3. exists d3. split; [done|]. split; [done|].
  intros k band Hk. destruct (Hval k band Hk) as (v & out & Hv & Hout & Hat).
  exists v. destruct (lookup_lt_is_Some_2 d3 k) as [out3 Hout3].
  { apply lookup_lt_Some in Hout. lia. }
  exists out3. split; [done|]. split; [done|].
  destruct (Ho3 r c) with (k := k) (band := out3)
    as (band2 & Hk2 & Heq); [|done|].
  - intros tm p [n' Hn']%list_elem_of_lookup Hp.
    rewrite lookup_drop in Hn'.
    apply (Hother _ tm p Hn'); [lia|done].
  - rewrite Heq. by simplify_eq.
Qed.

(** What [rectify_tiles_to_block] starts from: NaN at every pixel of the
    block, in every band. *)
Lemma nan_stack_is_Some {F : Type} `{FloatOps F} (nb : nat)
    (block_j : arr2 Z) (r c : nat) (bj : Z) :
  at2 block_j r c = Some bj →
  ∀ band, band ∈ replicate nb (map2 (λ _ : Z, fnan) block_j) →
          is_Some (at2 band r c).
Proof.
  intros Hbj band [-> _]%elem_of_replicate. rewrite at2_map2, Hbj.
  by eexists.
Qed.

Lemma zip_lookup_unique {A B} (l : list A) (k : list B) (n n' : nat)
    (x : A) (p : A * B) :
  NoDup l → l !! n = Some x → zip l k !! n' = Some p → p.1 = x → n' = n.
Proof.
  intros Hnd Hn Hp Hx.
  apply lookup_zip_with_Some in Hp as (a & b & -> & Ha & _).
  simpl in Hx. subst a. by eapply NoDup_lookup.
Qed.

(** X10. Nearest-neighbour selection. For distinct tile numbers, a
    non-zero number of tile columns and fetched tiles whose bands have the
    shape their stack reports: at a destination pixel with integer inverse
    index [(bi, bj)] at which the mask of the [n]-th tile holds,
    [rectify_tiles_to_block] returns and every band [k] of the result holds
    there the value of band [k] of that tile at the tile-local position
    [(bj - tile_j * tile rows, bi - tile_i * tile columns)], cast to
    float32; no other tile of the list writes that pixel. *)
Theorem resampler_value {F : Type} `{FloatOps F}
    (block_i block_j : arr2 Z) (tx ty : Z) (src_tilesize : Z * Z)
    (num_blocks_i : Z) (tiles : list Z) (measurements : list (stack F))
    (m0 : stack F) (rest : list (stack F)) (n : nat) (tile : Z)
    (m : stack F) (r c : nat) (bj bi : Z) :
  measurements = m0 :: rest →
  Forall (well_shaped (length m0)) measurements →
  num_blocks_i ≠ 0 → NoDup tiles →
  tiles !! n = Some tile → measurements !! n = Some m →
  at2 block_j r c = Some bj → at2 block_i r c = Some bi →
  let tile_j := np_floordiv tile num_blocks_i in
  let tile_i := np_mod tile num_blocks_i in
  tile_mask src_tilesize tile_j tile_i (stack_rows m) (stack_cols m) bj bi
  = true →
  ∃ dst_data,
    rectify_tiles_to_block block_i block_j tx ty src_tilesize num_blocks_i
      tiles measurements = Ok dst_data
    ∧ length dst_data = length m0
    ∧ ∀ k band, m !! k = Some band →
        ∃ v out,
          np_index2 band (bj - tile_j * src_tilesize.1)
            (bi - tile_i * src_tilesize.2) = Ok v
          ∧ dst_data !! k = Some out
          ∧ at2 out r c = Some (to_float32 v).
Proof.
  intros Hms Hws Hnb Hnd Htile Hm Hbj Hbi tile_j tile_i Hmask.
  assert (Htm : zip tiles measurements !! n = Some (tile, m)).
  { apply lookup_zip_with_Some. eauto. }
  assert (Hzip : Forall (λ tm : Z * stack F, well_shaped (length m0) tm.2)
                   (zip tiles measurements)).
  { rewrite Forall_forall in Hws. apply Forall_forall. intros [t' m'] Htm'.
    apply Hws. by apply elem_of_zip_r in Htm'. }
  unfold rectify_tiles_to_block. rewrite Hms. rewrite <- Hms.
  apply (rectify_tiles_value block_i block_j src_tilesize num_blocks_i
           (length m0) (zip tiles measurements) _ n tile m r c bj bi);
    try done.
  - apply length_replicate.
  - by eapply nan_stack_is_Some.
  - intros n' tm Htm' Heq. by eapply zip_lookup_unique.
Qed.

Lemma resampler_value_witness :
  ∃ dst_data,
    rectify_tiles_to_block [[0; 1]] [[0; 0]] 0 0 (1, 1) 2 [0; 1]
      [[[[of_int 7 : B64.t]]]; [[[of_int 8]]]] = Ok dst_data
    ∧ ∃ out, dst_data !! 0%nat = Some out
             ∧ at2 out 0 1 = Some (to_float32 (of_int 8)).
Proof.
  destruct (resampler_value (F := B64.t) [[0; 1]] [[0; 0]] 0 0 (1, 1) 2
              [0; 1] [[[[of_int 7]]]; [[[of_int 8]]]] [[[of_int 7]]]
              [[[[of_int 8]]]] 1 1 [[[of_int 8]]] 0 1 0 1 eq_refl)
    as (d & Hd & _ & Hval).
  - repeat constructor.
  - lia.
  - apply (bool_decide_unpack _). reflexivity.
  - reflexivity.
  - reflexivity.
  - reflexivity.
  - reflexivity.
  - reflexivity.
  - exists d. split; [exact Hd|].
    destruct (Hval 0%nat [[of_int 8]] eq_refl) as (v & out & Hv & Hout & Hat).
    exists out. split; [exact Hout|]. rewrite Hat.
    vm_compute in Hv. injection Hv as <-. reflexivity.
Defined.

(** ** The set of source tiles of a destination block *)

Lemma np_index_py_range (n k : Z) :
  - n ≤ k < n →
  np_index (py_range n) k = Ok (if k <? 0 then k + n else k).
Proof.
  intros Hk. unfold np_index. rewrite length_py_range.
  replace (Z.of_nat (Z.to_nat n)) with n by lia.
  destruct (k <? 0) eqn:E.
  - destruct ((0 <=? k + n) && (k + n <? n)) eqn:E2; [|lia].
    rewrite lookup_py_range by lia. f_equal. lia.
  - destruct ((0 <=? k) && (k <? n)) eqn:E2; [|lia].
    rewrite lookup_py_range by lia. f_equal. lia.
Qed.

Lemma np_index_py_range_error (n k : Z) :
  ¬ (- n ≤ k < n) →
  np_index (py_range n) k = Raise (IndexError "index out of bounds").
Proof.
  intros Hk. unfold np_index. rewrite length_py_range.
  destruct (k <? 0) eqn:E.
  - destruct ((0 <=? k + Z.of_nat (Z.to_nat n))
              && (k + Z.of_nat (Z.to_nat n) <? Z.of_nat (Z.to_nat n))) eqn:E2;
      [|done].
    exfalso. apply andb_true_iff in E2 as [E3 E4].
    apply Z.leb_le in E3. apply Z.ltb_lt in E4. apply Z.ltb_lt in E. lia.
  - destruct ((0 <=? k) && (k <? Z.of_nat (Z.to_nat n))) eqn:E2; [|done].
    exfalso. apply andb_true_iff in E2 as [E3 E4].
    apply Z.leb_le in E3. apply Z.ltb_lt in E4. apply Z.ltb_ge in E. lia.
Qed.

(** The marker array after the fancy-index assignment: position [k] holds
    [k] when [k] is one of the indices, and [-1] otherwise. *)
Lemma tile_array_lookup (values : list Z) (a : list Z) (k : nat) :
  (∀ v, v ∈ values → 0 ≤ v < Z.of_nat (length a)) →
  (k < length a)%nat →
  let a' := foldl (λ a v, <[Z.to_nat v := v]> a) a values in
  length a' = length a
  ∧ ((Z.of_nat k ∈ values ∧ a' !! k = Some (Z.of_nat k))
     ∨ ((Z.of_nat k ∉ values) ∧ a' !! k = a !! k)).
Proof.
  revert a. induction values as [|v values IH]; intros a Hv Hk; simpl.
  - split; [done|]. right. split; [apply not_elem_of_nil|done].
  - destruct (IH (<[Z.to_nat v := v]> a)) as [Hlen Hcase].
    { intros v' Hv'. rewrite length_insert. apply Hv. by right. }
    { by rewrite length_insert. }
    rewrite length_insert in Hlen. split; [done|].
    destruct Hcase as [[Hin Hl]|[Hnin Hl]].
    + left. split; [by right|done].
    + destruct (decide (Z.of_nat k = v)) as [<-|Hne].
      * left. split; [left|]. rewrite Hl, Nat2Z.id.
        by apply list_lookup_insert_eq.
      * right. split.
        -- intros [Heq|Hin]%elem_of_cons; [done|by apply Hnin].
        -- rewrite Hl. apply list_lookup_insert_ne.
           specialize (Hv v (list_elem_of_here _ _)). lia.
Qed.

(** The marked positions of a marker array, in ascending order. *)
Lemma filter_markers_sorted (P : Z → Prop) `{∀ v, Decision (P v)}
    (a : list Z) (off : Z) :
  (∀ v, P v → v ≠ -1) →
  (∀ k v, a !! k = Some v → v = -1 ∨ v = off + Z.of_nat k) →
  StronglySorted Z.lt (filter P a) ∧ Forall (λ v, off ≤ v) (filter P a).
Proof.
  intros HP. revert off. induction a as [|x a IH]; intros off Ha.
  - split; constructor.
  - destruct (IH (off + 1)) as [Hs Hf].
    { intros k v Hk. destruct (Ha (S k) v Hk) as [-> | ->]; [by left|].
      right. lia. }
    rewrite filter_cons. destruct (decide (P x)) as [Hx|Hx]; [|split].
    + destruct (Ha 0%nat x eq_refl) as [-> | ->]; [by destruct (HP _ Hx)|].
      split.
      * constructor; [done|]. eapply Forall_impl; [exact Hf|].
        intros v Hv. simpl in Hv. lia.
      * constructor; [lia|]. eapply Forall_impl; [exact Hf|].
        intros v Hv. simpl in Hv. lia.
    + done.
    + eapply Forall_impl; [exact Hf|]. intros v Hv. simpl in Hv. lia.
Qed.

Lemma np_index_raise {A} (a : list A) (k : Z) (e : exn) :
  np_index a k = Raise e → e = IndexError "index out of bounds".
Proof.
  unfold np_index. destruct (_ && _); [|by intros [= <-]].
  destruct (a !! _); [done|by intros [= <-]].
Qed.

Lemma traverse_raise {A B} (f : A → res B) (l : list A) (e : exn) :
  (∃ x, x ∈ l ∧ f x = Raise e) →
  (∀ x e', x ∈ l → f x = Raise e' → e' = e) →
  traverse f l = Raise e.
Proof.
  induction l as [|a l IH]; intros (x & Hx & Hfx) Hall.
  - by apply elem_of_nil in Hx.
  - simpl. destruct (f a) as [y|e'] eqn:Hfa.
    + rewrite IH; [done| |].
      * apply elem_of_cons in Hx as [->|Hx]; [congruence|eauto].
      * intros x' e'' Hx'. apply Hall. by right.
    + f_equal. apply (Hall a); [left|done].
Qed.

(** The tile numbers that occur, each once and in ascending order. *)
Lemma tile_set_of_ok (block_tile : arr2 Z) (n : Z) :
  0 ≤ n →
  (∀ v, v ∈ concat block_tile → -1 ≤ v ≤ n) →
  ∃ tile_set,
    tile_set_of block_tile n = Ok tile_set
    ∧ (∀ t, t ∈ tile_set ↔ 0 ≤ t < n ∧ t ∈ concat block_tile)
    ∧ StronglySorted Z.lt tile_set.
Proof.
  intros Hn Hrange.
  unfold tile_set_of.
  set (wrap := λ v : Z, if v <? 0 then v + (n + 1) else v).
  assert (Hvals : traverse (np_index (py_range (n + 1))) (concat block_tile)
                  = Ok (map wrap (concat block_tile))).
  { apply traverse_Forall2. rewrite map_fmap. apply Forall2_fmap_r.
    apply Forall_Forall2_diag, Forall_forall. intros v Hv.
    apply np_index_py_range. specialize (Hrange v Hv). lia. }
  rewrite Hvals. cbn [mbind res_bind rbind].
  rewrite np_index_py_range by lia. cbn [mbind res_bind rbind].
  change (-1 <? 0) with true. cbv iota.
  replace (-1 + (n + 1)) with n by lia.
  set (values := map wrap (concat block_tile)).
  set (a := foldl (λ a v, <[Z.to_nat v := v]> a)
              (replicate (Z.to_nat (n + 1)) (-1)) values).
  assert (Hvr : ∀ v, v ∈ values →
            0 ≤ v < Z.of_nat (length (replicate (Z.to_nat (n + 1)) (-1)))).
  { intros v Hv. rewrite length_replicate. unfold values in Hv.
    rewrite map_fmap in Hv. apply list_elem_of_fmap in Hv as (v0 & -> & Hv0).
    specialize (Hrange v0 Hv0). unfold wrap.
    destruct (v0 <? 0) eqn:E; lia. }
  assert (Ha : ∀ k : nat, (k < Z.to_nat (n + 1))%nat →
            length a = Z.to_nat (n + 1)
            ∧ ((Z.of_nat k ∈ values ∧ a !! k = Some (Z.of_nat k))
               ∨ ((Z.of_nat k ∉ values) ∧ a !! k = Some (-1)))).
  { intros k Hk.
    destruct (tile_array_lookup values (replicate (Z.to_nat (n + 1)) (-1)) k
                Hvr) as [Hlen Hcase]; [by rewrite length_replicate|].
    fold a in Hlen, Hcase. rewrite length_replicate in Hlen.
    split; [done|]. destruct Hcase as [?|[Hnin Hl]]; [by left|right].
    split; [done|]. rewrite Hl. apply lookup_replicate_2. lia. }
  assert (Hlen : length a = Z.to_nat (n + 1)) by (apply (Ha 0%nat); lia).
  assert (Hwrap : ∀ t, 0 ≤ t < n → t ∈ values ↔ t ∈ concat block_tile).
  { intros t Ht. unfold values. rewrite map_fmap, list_elem_of_fmap. split.
    - intros (v & Hv & Hin). specialize (Hrange v Hin). unfold wrap in Hv.
      destruct (v <? 0) eqn:E; [lia|]. by subst.
    - intros Hin. exists t. split; [|done]. unfold wrap.
      destruct (t <? 0) eqn:E; [lia|done]. }
  eexists. split; [reflexivity|]. split.
  - intros t. rewrite list_elem_of_filter. split.
    + intros [[Hne1 Hnen] [k Hk]%list_elem_of_lookup].
      apply lookup_lt_Some in Hk as Hlt. rewrite Hlen in Hlt.
      destruct (Ha k Hlt) as [_ [[Hin Hl]|[_ Hl]]];
        rewrite Hl in Hk; simplify_eq.
      assert (0 ≤ Z.of_nat k < n) by lia. split; [done|]. by apply Hwrap.
    + intros [Ht Hin]. split; [lia|].
      apply (list_elem_of_lookup_2 _ (Z.to_nat t)).
      destruct (Ha (Z.to_nat t)) as [_ [[_ Hl]|[Hnin _]]]; [lia| |].
      * rewrite Hl. f_equal. lia.
      * exfalso. apply Hnin. rewrite Z2Nat.id by lia. by apply Hwrap.
  - apply (filter_markers_sorted _ a 0); [by intros v [? _]|].
    intros k v Hk. apply lookup_lt_Some in Hk as Hlt. rewrite Hlen in Hlt.
    destruct (Ha k Hlt) as [_ [[_ Hl]|[_ Hl]]]; rewrite Hl in Hk;
      simplify_eq; [by right|by left].
Qed.

(** X11. The tile set of a destination block. For tile numbers between
    [-1] (no source pixel) and [n] (the extra marker), the fancy-index
    assignment and the slicing of [rectify_nearest_neighbour] return exactly
    the tile numbers below [n] that occur in the block, each once, in
    ascending order. A tile number above [n] (or below [-(n + 1)]) raises
    IndexError. *)
Theorem tile_set_spec (block_tile : arr2 Z) (n : Z) :
  0 ≤ n →
  ((∀ v, v ∈ concat block_tile → -1 ≤ v ≤ n) →
   ∃ tile_set,
     tile_set_of block_tile n = Ok tile_set
     ∧ (∀ t, t ∈ tile_set ↔ 0 ≤ t < n ∧ t ∈ concat block_tile)
     ∧ StronglySorted Z.lt tile_set)
  ∧ ((∃ v, v ∈ concat block_tile ∧ (n < v ∨ v < - (n + 1))) →
     tile_set_of block_tile n = Raise (IndexError "index out of bounds")).
Proof.
  intros Hn. split; [by apply tile_set_of_ok|].
  intros (v & Hv & Hbad). unfold tile_set_of.
  rewrite (traverse_raise _ _ (IndexError "index out of bounds"));
    [done| |].
  - exists v. split; [done|]. apply np_index_py_range_error. lia.
  - intros x e' _ He'. by apply np_index_raise in He'.
Qed.

Lemma tile_set_spec_witness :
  ∃ tile_set,
    tile_set_of [[2; -1]; [0; 2]] 4 = Ok tile_set
    ∧ (2 ∈ tile_set) ∧ StronglySorted Z.lt tile_set.
Proof.
  destruct (tile_set_spec [[2; -1]; [0; 2]] 4) as [Hspec _]; [lia|].
  destruct Hspec as (ts & Hts & Hin & Hs).
  - intros v Hv. simpl in Hv. rewrite !elem_of_cons, elem_of_nil in Hv. lia.
  - exists ts. split; [exact Hts|]. split; [|exact Hs].
    apply Hin. split; [lia|]. simpl. rewrite !elem_of_cons. tauto.
Defined.

(** ** The range of the painter loop *)

Lemma py_range_elem (n k : Z) : 0 ≤ k < n → k ∈ py_range n.
Proof.
  intros Hk. apply (list_elem_of_lookup_2 _ (Z.to_nat k)).
  by apply py_range_lookup_Z.
Qed.



(** The extent of a quad is an int64 difference and wraps around: a source
    pixel projected to [-1e30] gives its quad the least int64 as left
    border, the width [2 - (- 2^63)] wraps to a negative loop bound, the
    loop over the columns is empty and the block stays NaN although the
    pixel centre [(0.5, 0.5)] lies in the quad. *)
Lemma bboxes_width_wraps :
  let lon : arr2 B64.t :=
    [[lit 5 10; of_int (- 10 ^ 30)]; [lit 5 10; lit 15 10]] in
  let lat : arr2 B64.t := [[lit 5 10; lit 5 10]; [lit 15 10; lit 15 10]] in
  let mesh := triangles_in_dst_pixel_grid lon lat aligned_grid
                identity_trafo (0, 0) in
  bboxes_of_triangles mesh.1 mesh.2 aligned_grid
  = ([[- 2 ^ 63]], [[0]], - 9223372036854775806, 2)
  ∧ inverse_index_of_dst_block_with_src_subset lon lat
      (lit 5 10, lit 5 10) aligned_grid identity_trafo (0, 0)
    = Ok ([[fnan; fnan]; [fnan; fnan]], [[fnan; fnan]; [fnan; fnan]]).
Proof. split; vm_compute; reflexivity. Qed.

(** ** Resampling of one destination block *)

Lemma np_index_Some {A} (a : list A) (k : Z) (x : A) :
  0 ≤ k → np_index a k = Ok x ↔ a !! Z.to_nat k = Some x.
Proof.
  intros Hk. unfold np_index. destruct (k <? 0) eqn:E; [lia|].
  destruct ((0 <=? k) && (k <? Z.of_nat (length a))) eqn:E2.
  - destruct (a !! Z.to_nat k) as [y|]; split; intros; by simplify_eq.
  - split; [done|]. intros Hx%lookup_lt_Some. lia.
Qed.

Lemma np_index2_Some {A} (a : arr2 A) (r c : Z) (x : A) :
  0 ≤ r → 0 ≤ c →
  np_index2 a r c = Ok x ↔ at2 a (Z.to_nat r) (Z.to_nat c) = Some x.
Proof.
  intros Hr Hc. unfold np_index2. rewrite at2_rows. split.
  - destruct (np_index a r) as [row|] eqn:E; [|done].
    cbn [mbind res_bind rbind]. intros Hx.
    exists row. split; by apply np_index_Some.
  - intros (row & Hrow & Hx). apply np_index_Some in Hrow; [|done].
    rewrite Hrow. cbn [mbind res_bind rbind]. by apply np_index_Some.
Qed.

Lemma StronglySorted_lt_NoDup (l : list Z) : StronglySorted Z.lt l → NoDup l.
Proof.
  induction 1 as [|x l Hs IH Hx]; constructor; [|done].
  intros Hin. rewrite Forall_forall in Hx. specialize (Hx x Hin). lia.
Qed.

Lemma tile_row_col (tj ti ncol : Z) :
  0 ≤ ti < ncol →
  np_floordiv (tj * ncol + ti) ncol = tj ∧ np_mod (tj * ncol + ti) ncol = ti.
Proof.
  intros Hti. unfold np_floordiv, np_mod. destruct (ncol =? 0) eqn:E; [lia|].
  split.
  - rewrite Z.div_add_l by lia. rewrite Z.div_small by lia. lia.
  - rewrite Z.add_comm, Z.mod_add by lia. apply Z.mod_small. lia.
Qed.

Lemma rectangular_ncols {A} (rows cols : Z) (a : arr2 A) :
  0 < rows → rectangular rows cols a → Z.of_nat (ncols a) = cols.
Proof.
  intros Hr [Hlen Hc]. destruct a as [|row a]; [simpl in Hlen; lia|].
  simpl. by apply Forall_cons in Hc as [? _].
Qed.

Lemma rectangular_at2_is_Some {A} (rows cols : Z) (a : arr2 A) (r c : Z) :
  rectangular rows cols a → 0 ≤ r < rows → 0 ≤ c < cols →
  ∃ x, at2 a (Z.to_nat r) (Z.to_nat c) = Some x.
Proof.
  intros Hrect Hr Hc.
  destruct (np_index2_ok a rows cols r c Hrect Hr Hc) as (x & Hx).
  exists x. apply np_index2_Some; [lia|lia|done].
Qed.

Section ResampleBlock.
Context {F : Type} `{FloatOps F}.

(** The measurement stacks of the tiles of a tile set: for every tile the
    blocks [(tile // columns, tile % columns)] of all measurements. *)
Lemma tile_measurements_ok (tiles : list Z) (measurements : list (chunked F))
    (m0 : chunked F) (rest : list (chunked F))
    (num_tiles_row num_tiles_col : Z) :
  measurements = m0 :: rest →
  0 < num_tiles_row → 0 < num_tiles_col →
  Forall (rectangular num_tiles_row num_tiles_col) measurements →
  (∀ t, t ∈ tiles → 0 ≤ t < num_tiles_row * num_tiles_col) →
  ∃ stacks,
    tile_measurements_of tiles measurements = Ok stacks
    ∧ Forall2 (λ t (s : stack F),
         Forall2 (λ (m : chunked F) band,
                    at2 m (Z.to_nat (t / num_tiles_col))
                          (Z.to_nat (t mod num_tiles_col)) = Some band)
           measurements s) tiles stacks.
Proof.
  intros Hms Hnr Hnc Hrect Ht. unfold tile_measurements_of.
  rewrite Hms. cbn [mbind res_bind rbind]. rewrite <- Hms.
  assert (Hcols : Z.of_nat (ncols m0) = num_tiles_col).
  { apply (rectangular_ncols num_tiles_row); [done|].
    rewrite Forall_forall in Hrect. apply Hrect. rewrite Hms. left. }
  rewrite Hcols. unfold np_mod, np_floordiv.
  destruct (num_tiles_col =? 0) eqn:E; [lia|].
  set (f := λ tile : Z,
         traverse (λ m : chunked F,
                     np_index2 m (tile / num_tiles_col)
                       (tile mod num_tiles_col)) measurements).
  assert (Hf : ∀ t, t ∈ tiles →
            ∃ s, f t = Ok s
                 ∧ Forall2 (λ (m : chunked F) band,
                      at2 m (Z.to_nat (t / num_tiles_col))
                            (Z.to_nat (t mod num_tiles_col)) = Some band)
                     measurements s).
  { intros t Hin. specialize (Ht t Hin).
    assert (Hj : 0 ≤ t / num_tiles_col < num_tiles_row).
    { split; [apply Z.div_pos; lia|].
      apply Z.div_lt_upper_bound; lia. }
    assert (Hi : 0 ≤ t mod num_tiles_col < num_tiles_col)
      by (apply Z.mod_pos_bound; lia).
    destruct (traverse_ok (λ m : chunked F,
                np_index2 m (t / num_tiles_col) (t mod num_tiles_col))
                measurements) as (s & Hs & _).
    { intros m Hm. rewrite Forall_forall in Hrect.
      by eapply np_index2_ok; [apply Hrect|..]. }
    exists s. split; [done|]. apply traverse_Forall2 in Hs.
    eapply Forall2_impl; [exact Hs|]. intros m band Hband.
    apply np_index2_Some in Hband; [done|lia|lia]. }
  destruct (traverse_ok f tiles) as (stacks & Hstacks & _).
  { intros t Hin. destruct (Hf t Hin) as (s & Hs & _). eauto. }
  exists stacks. split; [done|].
  apply traverse_Forall2 in Hstacks.
  apply Forall2_same_length_lookup. split; [by eapply Forall2_length|].
  intros k t s Hk Hsk.
  pose proof (Forall2_lookup_lr _ _ _ _ _ _ Hstacks Hk Hsk) as Hts.
  destruct (Hf t (list_elem_of_lookup_2 _ _ _ Hk)) as (s' & Hs' & Hall).
  assert (Heq : Ok s = Ok s') by (rewrite <- Hts, <- Hs'; reflexivity).
  by simplify_eq.
Qed.
End ResampleBlock.

(** X13. Nearest-neighbour resampling of one destination block, from the
    inverse index to the values. Every measurement is a matrix of
    [num_tiles_row x num_tiles_col] blocks, the blocks of all measurements
    have the shape of the block of the first one, the chunk sizes are
    positive, and every pixel of the inverse-index block is NaN in a
    channel or rounds to a position in a tile of the image. Then for a
    destination pixel whose inverse index [(x, y)] rounds to column [bi] and
    row [bj] inside the block [(bj // chunk rows, bi // chunk columns)], the
    node that [rectify_nearest_neighbour] builds is computed without error
    by [rectify_tiles_to_block], and band [k] of the result holds at the
    pixel the value of measurement [k] at position
    [(bj % chunk rows, bi % chunk columns)] of that block, cast to
    float32. *)
Theorem resample_block_value {F : Type} `{FloatOps F}
    (block : canvas F) (tx ty : Z) (measurements : list (chunked F))
    (m0 : chunked F) (rest : list (chunked F))
    (num_tiles_row num_tiles_col : Z) (r c : nat) (x y : F) (b0 : arr2 F) :
  let cs := chunksize m0 in
  let bi := to_index x in
  let bj := to_index y in
  let tile_j := bj / cs.1 in
  let tile_i := bi / cs.2 in
  measurements = m0 :: rest →
  0 < cs.1 → 0 < cs.2 → 0 < num_tiles_row → 0 < num_tiles_col →
  Forall (rectangular num_tiles_row num_tiles_col) measurements →
  (∀ m tj ti b b', m ∈ measurements →
     at2 m0 tj ti = Some b → at2 m tj ti = Some b' →
     rectangular (Z.of_nat (nrows b)) (Z.of_nat (ncols b)) b') →
  (∀ r c x y, at2 block.1 r c = Some x → at2 block.2 r c = Some y →
     to_index x = -1 ∨ to_index y = -1
     ∨ (0 ≤ to_index y / cs.1 < num_tiles_row
        ∧ 0 ≤ to_index x / cs.2 < num_tiles_col)) →
  at2 block.1 r c = Some x → at2 block.2 r c = Some y →
  bi ≠ -1 → bj ≠ -1 →
  at2 m0 (Z.to_nat tile_j) (Z.to_nat tile_i) = Some b0 →
  bj mod cs.1 < Z.of_nat (nrows b0) → bi mod cs.2 < Z.of_nat (ncols b0) →
  ∃ node dst_data,
    resample_node block tx ty measurements m0 num_tiles_row num_tiles_col
    = Ok node
    ∧ rectify_tiles_to_block (rn_block_i node) (rn_block_j node)
        (rn_tx node) (rn_ty node) (rn_tilesize node) (rn_num_blocks_i node)
        (rn_tiles node) (rn_measurements node) = Ok dst_data
    ∧ length dst_data = length measurements
    ∧ ∀ k m, measurements !! k = Some m →
        ∃ b v out,
          at2 m (Z.to_nat tile_j) (Z.to_nat tile_i) = Some b
          ∧ at2 b (Z.to_nat (bj mod cs.1)) (Z.to_nat (bi mod cs.2)) = Some v
          ∧ dst_data !! k = Some out
          ∧ at2 out r c = Some (to_float32 v).
Proof.
  intros cs bi bj tile_j tile_i Hms Hcs1 Hcs2 Hnr Hnc Hrect Hshape Hin
    Hx Hy Hbi Hbj Hb0 Hlj Hli.
  set (n := num_tiles_row * num_tiles_col).
  set (block_i := map2 to_index block.1).
  set (block_j := map2 to_index block.2).
  set (tile_of := λ bj bi : Z,
         if (bj =? -1) || (bi =? -1) then -1
         else np_floordiv bj cs.1 * num_tiles_col + np_floordiv bi cs.2).
  set (block_tile := zip2 tile_of block_j block_i).
  assert (Hfd : ∀ a b, 0 < b → np_floordiv a b = a / b).
  { intros a b Hb. unfold np_floordiv. destruct (b =? 0) eqn:E; [lia|done]. }
  assert (Hat : ∀ r c v, at2 block_tile r c = Some v →
            ∃ x y, at2 block.1 r c = Some x ∧ at2 block.2 r c = Some y
                   ∧ v = tile_of (to_index y) (to_index x)).
  { intros r' c' v (bj' & bi' & Hj' & Hi' & ->)%at2_zip2_Some.
    unfold block_j in Hj'. unfold block_i in Hi'.
    rewrite at2_map2 in Hj', Hi'.
    destruct (at2 block.2 r' c') as [y'|]; [|done].
    destruct (at2 block.1 r' c') as [x'|]; [|done].
    simpl in Hj', Hi'. simplify_eq. eauto. }
  assert (Hinside : ∀ x y,
            0 ≤ to_index y / cs.1 < num_tiles_row →
            0 ≤ to_index x / cs.2 < num_tiles_col →
            to_index y ≠ -1 → to_index x ≠ -1 →
            tile_of (to_index y) (to_index x)
            = to_index y / cs.1 * num_tiles_col + to_index x / cs.2
            ∧ 0 ≤ to_index y / cs.1 * num_tiles_col + to_index x / cs.2 < n).
  { intros x' y' Hj' Hi' Hny Hnx. unfold tile_of.
    destruct ((to_index y' =? -1) || (to_index x' =? -1)) eqn:E; [lia|].
    rewrite !Hfd by done. split; [done|]. unfold n. nia. }
  assert (Hrange : ∀ v, v ∈ concat block_tile → -1 ≤ v ≤ n).
  { intros v (r' & c' & Hv)%elem_of_concat_at2.
    destruct (Hat r' c' v Hv) as (x' & y' & Hx' & Hy' & ->).
    destruct (decide (to_index y' = -1)) as [Ey|Ey].
    { unfold tile_of. rewrite Ey. simpl. unfold n. nia. }
    destruct (decide (to_index x' = -1)) as [Ex|Ex].
    { unfold tile_of. rewrite Ex, orb_true_r. unfold n. nia. }
    destruct (Hin r' c' x' y' Hx' Hy') as [?|[?|[Hj' Hi']]]; [done|done|].
    destruct (Hinside x' y' Hj' Hi' Ey Ex) as [-> ?]. lia. }
  destruct (tile_set_of_ok block_tile n) as (tile_set & Hts & Hmem & Hsorted);
    [unfold n; nia|done|].
  (* the tile of the pixel *)
  destruct (Hin r c x y Hx Hy) as [?|[?|[Hj Hi]]]; [done|done|].
  fold bi bj in Hj, Hi. fold tile_j in Hj. fold tile_i in Hi.
  destruct (Hinside x y Hj Hi Hbj Hbi) as [Htile Htr].
  fold bi bj tile_j tile_i in Htile, Htr.
  set (t := tile_j * num_tiles_col + tile_i) in *.
  assert (Htin : t ∈ tile_set).
  { apply Hmem. split; [done|]. apply elem_of_concat_at2. exists r, c.
    unfold block_tile. apply at2_zip2_Some. exists bj, bi.
    unfold block_j, block_i. rewrite !at2_map2, Hx, Hy. done. }
  destruct (tile_measurements_ok tile_set measurements m0 rest
              num_tiles_row num_tiles_col Hms Hnr Hnc Hrect)
    as (stacks & Hstacks & Hst).
  { intros t' Ht'. by apply Hmem in Ht' as [? _]. }
  eexists. unfold resample_node. fold cs block_i block_j tile_of block_tile n.
  rewrite Hts. cbn [mbind res_bind rbind]. rewrite Hstacks.
  cbn [mbind res_bind rbind].
  apply list_elem_of_lookup in Htin as [k Hk].
  destruct (Forall2_lookup_l _ _ _ _ _ Hst Hk) as (s & Hs & Hsm).
  destruct (tile_row_col tile_j tile_i num_tiles_col Hi) as [Htj Hti].
  fold t in Htj, Hti.
  (* the stacks have one band per measurement, of the shape of the block
     of the first measurement *)
  assert (Hws : Forall (λ tm : Z * stack F,
                          well_shaped (length measurements) tm.2)
                  (zip tile_set stacks)).
  { apply Forall_forall. intros [t' s'] Hts'.
    apply elem_of_lookup_zip_with in Hts'
      as (k' & t'' & s'' & Heq & Hk' & Hs'). injection Heq as -> ->.
    pose proof (Forall2_lookup_lr _ _ _ _ _ _ Hst Hk' Hs') as Hall.
    cbv beta in Hall. cbn [snd].
    split; [symmetry; exact (Forall2_length _ _ _ Hall)|].
    pose proof Hall as Hall0. rewrite Hms in Hall0.
    apply Forall2_cons_inv_l in Hall0 as (h & s3 & Hh & _ & Heq).
    unfold stack_rows, stack_cols. rewrite Heq. cbn [head default].
    rewrite <- Heq. apply Forall_forall. intros band Hband.
    apply list_elem_of_lookup in Hband as [kb Hkb].
    destruct (Forall2_lookup_r _ _ _ _ _ Hall Hkb) as (m & Hm & Hmb).
    eapply (Hshape m); [by eapply list_elem_of_lookup_2|exact Hh|exact Hmb]. }
  assert (Hsh : stack_rows s = Z.of_nat (nrows b0)
                ∧ stack_cols s = Z.of_nat (ncols b0)).
  { rewrite Hms in Hsm.
    apply Forall2_cons_inv_l in Hsm as (h & s' & Hh & _ & ->).
    rewrite Hfd in Htj by done. unfold np_mod in Hti.
    destruct (num_tiles_col =? 0) eqn:E; [lia|].
    assert (E1 : t / num_tiles_col = tile_j) by lia.
    assert (E2 : t mod num_tiles_col = tile_i) by lia.
    rewrite E1, E2, Hb0 in Hh. by simplify_eq. }
  destruct (stacks) as [|s0 stacks'] eqn:Est.
  { apply Forall2_length in Hst. apply lookup_lt_Some in Hk. simpl in Hst.
    lia. }
  rewrite <- Est in *.
  destruct (rectify_tiles_value block_i block_j cs num_tiles_col
              (length measurements) (zip tile_set stacks)
              (replicate (length s0) (map2 (λ _ : Z, fnan) block_j))
              k t s r c bj bi)
    as (d & Hd & Hlen & Hval).
  - rewrite length_replicate.
    rewrite Forall_forall in Hws.
    assert (Hin0 : (default 0 (head tile_set), s0) ∈ zip tile_set stacks).
    { rewrite Est. destruct tile_set as [|t0 ts]; [done|]. left. }
    by destruct (Hws _ Hin0) as [? _].
  - eapply (nan_stack_is_Some _ block_j r c bj).
    unfold block_j. by rewrite at2_map2, Hy.
  - done.
  - lia.
  - apply lookup_zip_with_Some. eauto.
  - intros n' tm Htm' Heq.
    eapply zip_lookup_unique; [|exact Hk|exact Htm'|exact Heq].
    by apply StronglySorted_lt_NoDup.
  - unfold block_j. by rewrite at2_map2, Hy.
  - unfold block_i. by rewrite at2_map2, Hx.
  - rewrite Htj, Hti. destruct Hsh as [-> ->].
    unfold tile_mask. rewrite !Hfd by done. unfold tile_j, tile_i.
    pose proof (Z.mod_pos_bound bj cs.1 Hcs1).
    pose proof (Z.mod_pos_bound bi cs.2 Hcs2).
    pose proof (Z.div_mod bj cs.1 ltac:(lia)).
    pose proof (Z.div_mod bi cs.2 ltac:(lia)).
    rewrite !andb_true_iff, !Z.eqb_eq, !Z.leb_le, !Z.ltb_lt.
    repeat split; lia.
  - exists d. split; [reflexivity|].
    cbn [rn_block_i rn_block_j rn_tx rn_ty rn_tilesize rn_num_blocks_i
         rn_tiles rn_measurements].
    split.
    { unfold rectify_tiles_to_block. rewrite Est. rewrite <- Est.
      exact Hd. }
    split; [done|].
    intros kb m Hm.
    destruct (Forall2_lookup_l _ _ _ _ _ Hsm Hm) as (band & Hband & Hmb).
    destruct (Hval kb band Hband) as (v & out & Hv & Hout & Hat').
    rewrite Htj, Hti in Hv.
    rewrite Hfd in Htj by done. unfold np_mod in Hti.
    destruct (num_tiles_col =? 0) eqn:E; [lia|].
    assert (E1 : t / num_tiles_col = tile_j) by lia.
    assert (E2 : t mod num_tiles_col = tile_i) by lia.
    rewrite E1, E2 in Hmb.
    exists band, v, out. split; [done|]. split; [|done].
    pose proof (Z.mod_pos_bound bj cs.1 Hcs1).
    pose proof (Z.mod_pos_bound bi cs.2 Hcs2).
    replace (bj - tile_j * cs.1) with (bj mod cs.1) in Hv
      by (unfold tile_j; rewrite Z.mod_eq by lia; lia).
    replace (bi - tile_i * cs.2) with (bi mod cs.2) in Hv
      by (unfold tile_i; rewrite Z.mod_eq by lia; lia).
    apply np_index2_Some in Hv; [done|lia|lia].
Qed.

Lemma resample_block_value_witness :
  ∃ node dst_data,
    resample_node ([[of_int 1]], [[of_int 2]]) 0 0 [test_measurement]
      test_measurement 2 2 = Ok node
    ∧ rectify_tiles_to_block (rn_block_i node) (rn_block_j node)
        (rn_tx node) (rn_ty node) (rn_tilesize node) (rn_num_blocks_i node)
        (rn_tiles node) (rn_measurements node) = Ok dst_data
    ∧ ∃ out, dst_data !! 0%nat = Some out
             ∧ at2 out 0 0 = Some (to_float32 (of_int 8)).
Proof.
  destruct (resample_block_value (F := B64.t) ([[of_int 1]], [[of_int 2]])
              0 0 [test_measurement] test_measurement [] 2 2 0 0
              (of_int 1) (of_int 2) [[of_int 1; of_int 2];
                                     [of_int 4; of_int 5];
                                     [of_int 7; of_int 8]] eq_refl)
    as (node & d & Hnode & Hd & _ & Hval).
  - reflexivity.
  - reflexivity.
  - reflexivity.
  - reflexivity.
  - repeat constructor.
  - intros m tj ti b b' Hm Hb Hb'.
    apply list_elem_of_singleton in Hm as ->.
    rewrite Hb in Hb'. injection Hb' as <-.
    destruct tj as [|[|tj]]; destruct ti as [|[|ti]];
      vm_compute in Hb; try discriminate; injection Hb as <-;
      (split; [reflexivity|repeat constructor]).
  - intros r c x y Hx Hy.
    destruct r as [|r]; [|destruct r; discriminate].
    destruct c as [|c]; [|destruct c; discriminate].
    injection Hx as <-. injection Hy as <-. right. right.
    vm_compute. repeat split; congruence.
  - reflexivity.
  - reflexivity.
  - vm_compute. congruence.
  - vm_compute. congruence.
  - reflexivity.
  - vm_compute. reflexivity.
  - vm_compute. reflexivity.
  - exists node, d. split; [exact Hnode|]. split; [exact Hd|].
    destruct (Hval 0%nat test_measurement eq_refl)
      as (b & v & out & Hb & Hv & Hout & Hat).
    exists out. split; [exact Hout|]. rewrite Hat.
    vm_compute in Hb. injection Hb as <-.
    vm_compute in Hv. injection Hv as <-. reflexivity.
Defined.

(** ** Completeness of the painter loop *)

(** A property that one step of a loop establishes and all steps keep
    holds after the loop. *)
Lemma foldl_eventually {A B} (I P : A → Prop) (f : A → B → A) (l : list B)
    (a : A) (x : B) :
  I a → x ∈ l →
  (∀ a y, y ∈ l → I a → I (f a y)) →
  (∀ a, I a → P (f a x)) →
  (∀ a y, y ∈ l → I a → P a → P (f a y)) →
  P (foldl f a l).
Proof.
  intros Ha Hx HI Hest Hkeep.
  assert (Hgen : ∀ l' a', (∀ y, y ∈ l' → y ∈ l) → I a' →
            (P a' ∨ x ∈ l') → P (foldl f a' l')).
  { induction l' as [|y l' IH]; intros a' Hsub Ha' Hcase; simpl.
    - destruct Hcase as [?|Hin]; [done|by apply elem_of_nil in Hin].
    - apply IH.
      + intros z Hz. apply Hsub. by right.
      + apply HI; [apply Hsub; left|done].
      + destruct Hcase as [HP|[->|Hin]%elem_of_cons].
        * left. apply Hkeep; [apply Hsub; left|done|done].
        * left. by apply Hest.
        * by right. }
  apply Hgen; [done|done|by right].
Qed.

Section PainterComplete.
Context {F : Type} `{FloatOps F}.

Lemma paint_a_step (quads : list (QuadData F)) (src_offset : F * F)
    (dst_width dst_height mw mh : Z) (r c : nat) (i_offset j_offset : Z)
    (res : canvas F) (q : QuadData F) :
  q ∈ quads → 0 ≤ i_offset < mw → 0 ≤ j_offset < mh →
  is_Some (at2 res.1 r c) ∧ is_Some (at2 res.2 r c) →
  let res' := paint_a src_offset dst_width dst_height i_offset j_offset
                res q in
  (is_Some (at2 res'.1 r c) ∧ is_Some (at2 res'.2 r c))
  ∧ (painted_by quads src_offset dst_width dst_height mw mh r c res →
     painted_by quads src_offset dst_width dst_height mw mh r c res')
  ∧ (covers_a q dst_width dst_height i_offset j_offset r c →
     painted_by quads src_offset dst_width dst_height mw mh r c res').
Proof.
  intros Hq Hi Hj [Hs1 Hs2]. simpl. unfold paint_a.
  destruct (is_inside_triangle _ _ _ _ _ _) eqn:Hin.
  - split; [simpl; by rewrite !at2_set2_is_Some|].
    destruct (decide ((Z.to_nat (q_min_j q + j_offset),
                       Z.to_nat (q_min_i q + i_offset)) = (r, c)))
      as [Heq|Hne].
    + assert (Hp : painted_by quads src_offset dst_width dst_height mw mh
                     r c
                     (set2 res.1 (q_min_j q + j_offset) (q_min_i q + i_offset)
                        (fadd (fadd (of_int (q_col q)) src_offset.1)
                           (ua q (q_min_i q + i_offset)
                              (q_min_j q + j_offset))),
                      set2 res.2 (q_min_j q + j_offset) (q_min_i q + i_offset)
                        (fadd (fadd (of_int (q_row q)) src_offset.2)
                           (va q (q_min_i q + i_offset)
                              (q_min_j q + j_offset))))).
      { exists q, i_offset, j_offset. split; [done|]. split; [done|].
        split; [done|]. left. simplify_eq.
        split; [by unfold covers_a|]. simpl. by rewrite !at2_set2_eq. }
      split; intros _; exact Hp.
    + split.
      * intros (q' & io & jo & Hq' & Hio & Hjo & Hcase).
        exists q', io, jo. simpl. rewrite !at2_set2_ne by done. eauto.
      * intros (_ & Hr & Hc). destruct Hne. by rewrite Hr, Hc.
  - split; [done|]. split; [done|].
    intros (Hin' & _). simpl in Hin'. congruence.
Qed.

Lemma paint_b_step (quads : list (QuadData F)) (src_offset : F * F)
    (dst_width dst_height mw mh : Z) (r c : nat) (i_offset j_offset : Z)
    (res : canvas F) (q : QuadData F) :
  q ∈ quads → 0 ≤ i_offset < mw → 0 ≤ j_offset < mh →
  is_Some (at2 res.1 r c) ∧ is_Some (at2 res.2 r c) →
  let res' := paint_b src_offset dst_width dst_height i_offset j_offset
                res q in
  (is_Some (at2 res'.1 r c) ∧ is_Some (at2 res'.2 r c))
  ∧ (painted_by quads src_offset dst_width dst_height mw mh r c res →
     painted_by quads src_offset dst_width dst_height mw mh r c res')
  ∧ (covers_b q dst_width dst_height i_offset j_offset r c →
     painted_by quads src_offset dst_width dst_height mw mh r c res').
Proof.
  intros Hq Hi Hj [Hs1 Hs2]. simpl. unfold paint_b.
  destruct (is_inside_triangle _ _ _ _ _ _) eqn:Hin.
  - split; [simpl; by rewrite !at2_set2_is_Some|].
    destruct (decide ((Z.to_nat (q_min_j q + j_offset),
                       Z.to_nat (q_min_i q + i_offset)) = (r, c)))
      as [Heq|Hne].
    + assert (Hp : painted_by quads src_offset dst_width dst_height mw mh
                     r c
                     (set2 res.1 (q_min_j q + j_offset) (q_min_i q + i_offset)
                        (fsub (fadd (fadd (of_int (q_col q)) src_offset.1)
                                 (of_int 1))
                           (ub q (q_min_i q + i_offset)
                              (q_min_j q + j_offset))),
                      set2 res.2 (q_min_j q + j_offset) (q_min_i q + i_offset)
                        (fsub (fadd (fadd (of_int (q_row q)) src_offset.2)
                                 (of_int 1))
                           (vb q (q_min_i q + i_offset)
                              (q_min_j q + j_offset))))).
      { exists q, i_offset, j_offset. split; [done|]. split; [done|].
        split; [done|]. right. simplify_eq.
        split; [by unfold covers_b|]. simpl. by rewrite !at2_set2_eq. }
      split; intros _; exact Hp.
    + split.
      * intros (q' & io & jo & Hq' & Hio & Hjo & Hcase).
        exists q', io, jo. simpl. rewrite !at2_set2_ne by done. eauto.
      * intros (_ & Hr & Hc). destruct Hne. by rewrite Hr, Hc.
  - split; [done|]. split; [done|].
    intros (Hin' & _). simpl in Hin'. congruence.
Qed.

Lemma paint_offset_step (quads : list (QuadData F)) (src_offset : F * F)
    (dst_width dst_height mw mh : Z) (r c : nat) (i_offset j_offset : Z)
    (res : canvas F) :
  0 ≤ i_offset < mw → 0 ≤ j_offset < mh →
  is_Some (at2 res.1 r c) ∧ is_Some (at2 res.2 r c) →
  let res' := paint_offset quads src_offset dst_width dst_height j_offset
                res i_offset in
  (is_Some (at2 res'.1 r c) ∧ is_Some (at2 res'.2 r c))
  ∧ (painted_by quads src_offset dst_width dst_height mw mh r c res →
     painted_by quads src_offset dst_width dst_height mw mh r c res')
  ∧ (∀ q, q ∈ quads →
       covers_a q dst_width dst_height i_offset j_offset r c
       ∨ covers_b q dst_width dst_height i_offset j_offset r c →
       painted_by quads src_offset dst_width dst_height mw mh r c res').
Proof.
  intros Hi Hj Hs. simpl. unfold paint_offset.
  set (I := λ res : canvas F,
              is_Some (at2 res.1 r c) ∧ is_Some (at2 res.2 r c)).
  set (P := painted_by quads src_offset dst_width dst_height mw mh r c).
  set (fa := paint_a src_offset dst_width dst_height i_offset j_offset).
  set (fb := paint_b src_offset dst_width dst_height i_offset j_offset).
  assert (HIa : ∀ a y, y ∈ quads → I a → I (fa a y)).
  { intros a y Hy Ha.
    apply (paint_a_step quads src_offset dst_width dst_height mw mh r c
             i_offset j_offset a y Hy Hi Hj Ha). }
  assert (HIb : ∀ a y, y ∈ quads → I a → I (fb a y)).
  { intros a y Hy Ha.
    apply (paint_b_step quads src_offset dst_width dst_height mw mh r c
             i_offset j_offset a y Hy Hi Hj Ha). }
  assert (HPa : ∀ a y, y ∈ quads → I a → P a → P (fa a y)).
  { intros a y Hy Ha.
    apply (paint_a_step quads src_offset dst_width dst_height mw mh r c
             i_offset j_offset a y Hy Hi Hj Ha). }
  assert (HPb : ∀ a y, y ∈ quads → I a → P a → P (fb a y)).
  { intros a y Hy Ha.
    apply (paint_b_step quads src_offset dst_width dst_height mw mh r c
             i_offset j_offset a y Hy Hi Hj Ha). }
  assert (HI1 : I (foldl fa res quads)) by by apply foldl_invariant.
  assert (HIP : ∀ (f : canvas F → QuadData F → canvas F) a,
            (∀ a y, y ∈ quads → I a → I (f a y)) →
            (∀ a y, y ∈ quads → I a → P a → P (f a y)) →
            I a → P a → P (foldl f a quads)).
  { intros f a HfI HfP Ha HPa0.
    apply (foldl_invariant (λ a, I a ∧ P a)); [done|].
    intros a' y Hy [? ?]. split; [by apply HfI|by apply HfP]. }
  split; [by apply foldl_invariant|]. split.
  - intros HP. apply HIP; [done|done|done|]. by apply HIP.
  - intros q Hq [Ha|Hb].
    + apply HIP; [done|done|done|].
      apply (foldl_eventually I P fa quads res q); [done|done|done| |done].
      intros a Ha0.
      by apply (paint_a_step quads src_offset dst_width dst_height mw mh r c
                  i_offset j_offset a q Hq Hi Hj Ha0).
    + apply (foldl_eventually I P fb quads _ q); [done|done|done| |done].
      intros a Ha0.
      by apply (paint_b_step quads src_offset dst_width dst_height mw mh r c
                  i_offset j_offset a q Hq Hi Hj Ha0).
Qed.

Lemma paint_complete (quads : list (QuadData F)) (src_offset : F * F)
    (dst_width dst_height mw mh : Z) (result : canvas F) (r c : nat)
    (q : QuadData F) (i_offset j_offset : Z) :
  is_Some (at2 result.1 r c) → is_Some (at2 result.2 r c) →
  q ∈ quads → 0 ≤ i_offset < mw → 0 ≤ j_offset < mh →
  covers_a q dst_width dst_height i_offset j_offset r c
  ∨ covers_b q dst_width dst_height i_offset j_offset r c →
  painted_by quads src_offset dst_width dst_height mw mh r c
    (paint quads src_offset dst_width dst_height mw mh result).
Proof.
  intros Hs1 Hs2 Hq Hi Hj Hcov. unfold paint.
  set (I := λ res : canvas F,
              is_Some (at2 res.1 r c) ∧ is_Some (at2 res.2 r c)).
  set (P := painted_by quads src_offset dst_width dst_height mw mh r c).
  assert (Hrow : ∀ jo a, jo ∈ py_range mh → I a →
            I (foldl (paint_offset quads src_offset dst_width dst_height jo)
                 a (py_range mw))
            ∧ (P a →
               P (foldl (paint_offset quads src_offset dst_width dst_height
                           jo) a (py_range mw)))).
  { intros jo a Hjo%elem_of_py_range Ha. split.
    - apply foldl_invariant; [done|].
      intros a' io Hio%elem_of_py_range Ha'.
      by apply (paint_offset_step quads src_offset dst_width dst_height
                  mw mh r c io jo a').
    - intros HP.
      apply (foldl_invariant (λ a, I a ∧ P a)); [done|].
      intros a' io Hio%elem_of_py_range [Ha' HP']. split.
      + by apply (paint_offset_step quads src_offset dst_width dst_height
                    mw mh r c io jo a').
      + by apply (paint_offset_step quads src_offset dst_width dst_height
                    mw mh r c io jo a'). }
  apply (foldl_eventually I P _ (py_range mh) result j_offset).
  - done.
  - by apply py_range_elem.
  - intros a jo Hjo Ha. by apply Hrow.
  - intros a Ha.
    apply (foldl_eventually I P _ (py_range mw) a i_offset).
    + done.
    + by apply py_range_elem.
    + intros a' io Hio%elem_of_py_range Ha'.
      by apply (paint_offset_step quads src_offset dst_width dst_height
                  mw mh r c io j_offset a').
    + intros a' Ha'.
      pose proof (paint_offset_step quads src_offset dst_width dst_height
                    mw mh r c i_offset j_offset a' Hi Hj Ha')
        as (_ & _ & Hest).
      by apply (Hest q).
    + intros a' io Hio%elem_of_py_range Ha' HP'.
      by apply (paint_offset_step quads src_offset dst_width dst_height
                  mw mh r c io j_offset a').
  - intros a jo Hjo Ha HP. by apply Hrow.
Qed.
End PainterComplete.

Lemma at2_stack4_inv {F : Type} `{FloatOps F} (a : arr2 F) (r c : nat)
    (p : pt4 F) :
  at2 (stack4 a) r c = Some p → at2 a (S r) (S c) = Some (P3 p).
Proof.
  unfold stack4.
  intros (p01 & p23 & _ & H23 & ->)%at2_zip2_Some.
  apply at2_zip2_Some in H23 as (x & y & _ & Hy & ->).
  apply at2_rows in Hy as (row & Hrow & Hy).
  rewrite map_fmap, list_lookup_fmap, lookup_drop in Hrow.
  destruct (a !! (1 + r)%nat) as [row'|] eqn:E; [|done].
  simpl in Hrow. simplify_eq. rewrite lookup_drop in Hy.
  apply at2_rows. exists row'. done.
Qed.

Lemma mesh_position {F : Type} `{FloatOps F} (src_lon src_lat : arr2 F)
    (g : Grid F) (trafo : Transformer F) (block_id : Z * Z) (r c : nat)
    (p : pt4 F) :
  at2 (triangles_in_dst_pixel_grid src_lon src_lat g trafo block_id).1 r c
  = Some p →
  is_Some (at2 src_lon (S r) (S c)).
Proof.
  unfold triangles_in_dst_pixel_grid.
  destruct (is_geographic g); simpl.
  - intros Hp%at2_stack4_inv. rewrite at2_map2 in Hp.
    destruct (at2 src_lon (S r) (S c)); [eauto|done].
  - unfold transform. intros Hp%at2_stack4_inv. rewrite at2_map2 in Hp.
    destruct (at2 (zip2 _ src_lon src_lat) (S r) (S c)) as [z|] eqn:E;
      [|done].
    apply at2_zip2_Some in E as (x & y & Hx & _). eauto.
Qed.

Lemma quads_of_elem {F : Type} (fi fj : arr2 (pt4 F))
    (mi mj idc idr : arr2 Z) (r c : nat) (pi pj : pt4 F)
    (min_i min_j col row : Z) :
  at2 fi r c = Some pi → at2 fj r c = Some pj →
  at2 mi r c = Some min_i → at2 mj r c = Some min_j →
  at2 idc r c = Some col → at2 idr r c = Some row →
  mkQuadData pi pj min_i min_j col row ∈ quads_of fi fj mi mj idc idr.
Proof.
  intros Hfi Hfj Hmi Hmj Hc Hr. unfold quads_of.
  apply elem_of_concat_at2. exists r, c.
  apply at2_zip2_Some.
  exists (pi, pj), (min_i, min_j, (col, row)).
  split; [by apply at2_zip2|]. split; [|done].
  apply at2_zip2; by apply at2_zip2.
Qed.

Lemma at2_tile_cols_Some (n : nat) (m : Z) (r c : nat) :
  (r < n)%nat → Z.of_nat c < m →
  at2 (replicate n (py_range m)) r c = Some (Z.of_nat c).
Proof.
  intros Hr Hc. apply at2_rows. exists (py_range m).
  split; [by apply lookup_replicate_2|].
  rewrite <- (Nat2Z.id c) at 1. apply py_range_lookup_Z. lia.
Qed.

Lemma at2_tile_rows_Some (n : nat) (m : Z) (r c : nat) :
  (c < n)%nat → Z.of_nat r < m →
  at2 (transpose (replicate n (py_range m))) r c = Some (Z.of_nat r).
Proof.
  intros Hc Hr. rewrite transpose_replicate by lia.
  apply at2_rows. exists (replicate n (Z.of_nat r)). split.
  - rewrite map_fmap, list_lookup_fmap.
    rewrite <- (Nat2Z.id r) at 1. rewrite py_range_lookup_Z by lia. done.
  - by apply lookup_replicate_2.
Qed.

(** X15. Completeness of the painter loop: when the membership test of a
    triangle of a quad of the mesh holds at a destination pixel, for offsets
    of the two loops, the inverse index of the destination block holds at
    this pixel what a triangle recorded whose membership test holds there
    (the last one in the order of the loops, not always the given one): the
    pixel does not keep the NaN of the initialisation. The bounds of the
    loops are the int64 values that [bboxes_of_triangles] returns, after the
    wrap-around of the differences. The source subset is a rectangular
    array, [dst_width] and [dst_height] are the extent of the block. *)
Theorem inverse_index_covered {F : Type} `{FloatOps F}
    (src_lon src_lat : arr2 F) (src_offset : F * F) (g : Grid F)
    (trafo : Transformer F) (block_id : Z * Z) (result : canvas F)
    (rows cols : Z) (qr qc : nat) (pi pj : pt4 F)
    (i_offset j_offset dst_width dst_height : Z) (r c : nat) :
  rectangular rows cols src_lon →
  inverse_index_of_dst_block_with_src_subset src_lon src_lat src_offset g
    trafo block_id = Ok result →
  let mesh := triangles_in_dst_pixel_grid src_lon src_lat g trafo block_id in
  let bb := bboxes_of_triangles mesh.1 mesh.2 g in
  at2 mesh.1 qr qc = Some pi → at2 mesh.2 qr qc = Some pj →
  0 ≤ i_offset < bb.1.2 → 0 ≤ j_offset < bb.2 →
  block_extent (width g) (tile_width g) block_id.2 = Ok dst_width →
  block_extent (height g) (tile_height g) block_id.1 = Ok dst_height →
  let q := mkQuadData pi pj (astype_int (floor_int (min4 pi)))
             (astype_int (floor_int (min4 pj))) (Z.of_nat qc) (Z.of_nat qr) in
  covers_a q dst_width dst_height i_offset j_offset r c
  ∨ covers_b q dst_width dst_height i_offset j_offset r c →
  ∃ (q' : QuadData F) (qr' qc' : nat) (i_offset' j_offset' : Z),
    (at2 mesh.1 qr' qc' = Some (q_i q') ∧ at2 mesh.2 qr' qc' = Some (q_j q')
     ∧ q_col q' = Z.of_nat qc' ∧ q_row q' = Z.of_nat qr'
     ∧ q_min_i q' = astype_int (floor_int (min4 (q_i q')))
     ∧ q_min_j q' = astype_int (floor_int (min4 (q_j q'))))
    ∧ (0 ≤ i_offset' < bb.1.2 ∧ 0 ≤ j_offset' < bb.2)
    ∧ ((covers_a q' dst_width dst_height i_offset' j_offset' r c
        ∧ at2 result.1 r c
          = Some (recorded_a q' src_offset i_offset' j_offset').1
        ∧ at2 result.2 r c
          = Some (recorded_a q' src_offset i_offset' j_offset').2)
       ∨ (covers_b q' dst_width dst_height i_offset' j_offset' r c
          ∧ at2 result.1 r c
            = Some (recorded_b q' src_offset i_offset' j_offset').1
          ∧ at2 result.2 r c
            = Some (recorded_b q' src_offset i_offset' j_offset').2)).
Proof.
  intros Hrect Hres mesh bb Hpi Hpj Hio Hjo Hdw Hdh q Hcov.
  destruct (mesh_position _ _ _ _ _ _ _ _ Hpi) as [z Hz].
  subst q bb mesh. revert Hpi Hpj Hio Hjo Hcov.
  unfold inverse_index_of_dst_block_with_src_subset in Hres. revert Hres.
  destruct (triangles_in_dst_pixel_grid src_lon src_lat g trafo block_id)
    as [fi fj].
  cbn [fst snd].
  pose proof (bboxes_of_triangles_min fi fj g) as [Hmi Hmj].
  destruct (bboxes_of_triangles fi fj g) as [[[mi mj] mw] mh].
  simpl in Hmi, Hmj. subst mi mj. cbn [fst snd].
  intros Hres Hpi Hpj Hio Hjo Hcov.
  destruct (np_tile (py_range (Z.of_nat (ncols src_lon) - 1)) _)
    as [idc|] eqn:Eidc;
    cbn [mbind res_bind rbind] in Hres; [|discriminate].
  destruct (np_tile _ _) as [idr|] eqn:Eidr in Hres;
    cbn [mbind res_bind rbind] in Hres; [|discriminate].
  rewrite Hdw, Hdh in Hres. cbn [mbind res_bind rbind] in Hres.
  destruct (nan_array dst_height dst_width) as [nans|] eqn:Enan;
    cbn [mbind res_bind rbind] in Hres; [|discriminate].
  simplify_eq.
  apply nan_array_ok in Enan as (_ & Hnrect & _).
  set (quads := quads_of _ _ _ _ _ _) in *.
  set (q := mkQuadData _ _ _ _ _ _) in *.
  (* the pixel lies in the block *)
  assert (Hsome : is_Some (at2 nans r c)).
  { assert (Hin : (0 ≤ q_min_j q + j_offset < dst_height
                   ∧ 0 ≤ q_min_i q + i_offset < dst_width)
                  ∧ Z.to_nat (q_min_j q + j_offset) = r
                  ∧ Z.to_nat (q_min_i q + i_offset) = c).
    { destruct Hcov as [(Hin & Hr & Hc)|(Hin & Hr & Hc)];
        (split; [|done]); unfold is_inside_triangle in Hin;
        rewrite !andb_true_iff in Hin; lia. }
    destruct Hin as ((Hj & Hi) & <- & <-).
    destruct (rectangular_at2_is_Some _ _ nans _ _ Hnrect Hj Hi) as [x Hx].
    eauto. }
  (* the quad is one of the quads of the loop *)
  assert (Hq : q ∈ quads).
  { apply at2_rows in Hz as (row & Hrow & Hz).
    apply lookup_lt_Some in Hrow as Hlr. apply lookup_lt_Some in Hz as Hlc.
    destruct Hrect as [Hlen Hcols]. rewrite Forall_forall in Hcols.
    pose proof (Hcols row (list_elem_of_lookup_2 _ _ _ Hrow)) as Hlrow.
    assert (Hnc : Z.of_nat (ncols src_lon) = cols).
    { apply (rectangular_ncols rows); [lia|].
      split; [done|by apply Forall_forall]. }
    unfold np_tile in Eidc, Eidr.
    destruct (_ <? 0) in Eidc; [done|].
    destruct (_ <? 0) in Eidr; [done|]. simplify_eq.
    unfold nrows in *.
    apply (quads_of_elem _ _ _ _ _ _ qr qc); [done|done| | | |].
    - by rewrite at2_map2, Hpi.
    - by rewrite at2_map2, Hpj.
    - apply at2_tile_cols_Some; lia.
    - apply at2_tile_rows_Some; lia. }
  destruct (paint_complete quads src_offset dst_width dst_height mw mh
              (nans, nans) r c q i_offset j_offset Hsome Hsome Hq Hio Hjo
              Hcov)
    as (q' & io & jo & Hq' & Hio' & Hjo' & Hcase).
  apply elem_of_quads_of in Hq'
    as (qr' & qc' & Hfi & Hfj & Hmi & Hmj & Hidc & Hidr).
  exists q', qr', qc', io, jo.
  rewrite at2_map2, Hfi in Hmi. rewrite at2_map2, Hfj in Hmj.
  simpl in Hmi, Hmj. simplify_eq.
  unfold np_tile in Eidc, Eidr.
  destruct (_ <? 0) in Eidc; [done|].
  destruct (_ <? 0) in Eidr; [done|]. simplify_eq.
  apply at2_tile_cols in Hidc. apply at2_tile_rows in Hidr.
  done.
Qed.

Lemma inverse_index_covered_witness :
  ∃ (q' : QuadData B64.t) (i_offset' j_offset' : Z),
    (covers_a q' 2 2 i_offset' j_offset' 0 0
     ∧ Some (lit 5 10)
       = Some (recorded_a q' (lit 5 10, lit 5 10) i_offset' j_offset').1)
    ∨ (covers_b q' 2 2 i_offset' j_offset' 0 0
       ∧ Some (lit 5 10)
         = Some (recorded_b q' (lit 5 10, lit 5 10) i_offset' j_offset').1).
Proof.
  assert (Hres : inverse_index_of_dst_block_with_src_subset (F := B64.t)
                   [[lit 5 10; lit 15 10]; [lit 5 10; lit 15 10]]
                   [[lit 5 10; lit 5 10]; [lit 15 10; lit 15 10]]
                   (lit 5 10, lit 5 10) aligned_grid identity_trafo (0, 0)
                 = Ok ([[lit 5 10; lit 15 10]; [lit 5 10; lit 15 10]],
                       [[lit 5 10; lit 5 10]; [lit 15 10; lit 15 10]]))
    by (vm_compute; reflexivity).
  assert (Hrect : rectangular (A := B64.t) 2 2
                    [[lit 5 10; lit 15 10]; [lit 5 10; lit 15 10]])
    by (split; [done|repeat constructor]).
  pose proof (inverse_index_covered _ _ _ _ _ _ _ 2 2 0%nat 0%nat
                (lit 5 10, lit 15 10, lit 5 10, lit 15 10)
                (lit 5 10, lit 5 10, lit 15 10, lit 15 10)
                0 0 2 2 0%nat 0%nat Hrect Hres) as Hthm.
  cbv zeta in Hthm.
  match type of Hthm with
  | ?A → _ => assert (Ha : A) by (vm_compute; reflexivity);
              specialize (Hthm Ha); clear Ha
  end.
  match type of Hthm with
  | ?A → _ => assert (Ha : A) by (vm_compute; reflexivity);
              specialize (Hthm Ha); clear Ha
  end.
  match type of Hthm with
  | ?A → _ => assert (Ha : A)
                by (vm_compute; split; [discriminate|reflexivity]);
              specialize (Hthm Ha); clear Ha
  end.
  match type of Hthm with
  | ?A → _ => assert (Ha : A)
                by (vm_compute; split; [discriminate|reflexivity]);
              specialize (Hthm Ha); clear Ha
  end.
  match type of Hthm with
  | ?A → _ => assert (Ha : A) by (vm_compute; reflexivity);
              specialize (Hthm Ha); clear Ha
  end.
  match type of Hthm with
  | ?A → _ => assert (Ha : A) by (vm_compute; reflexivity);
              specialize (Hthm Ha); clear Ha
  end.
  match type of Hthm with
  | ?A → _ => assert (Ha : A) by (left; vm_compute; repeat split);
              specialize (Hthm Ha); clear Ha
  end.
  destruct Hthm as (q' & qr' & qc' & io & jo & _ & _ & Hcase).
  exists q', io, jo.
  destruct Hcase as [(Hc & H1 & _)|(Hc & H1 & _)]; [left|right];
    (split; [exact Hc|]); rewrite <- H1; reflexivity.
Defined.

(** ** The source subsets of the inverse index *)

(** [a[start:stop]] with bounds that are not negative: element [i] of the
    slice is element [start + i] of the list, for [start + i < stop]. *)
Lemma lookup_py_slice {A} (start stop : Z) (l : list A) (i : nat) (x : A) :
  0 ≤ start → 0 ≤ stop →
  py_slice start stop l !! i = Some x
  ↔ Z.of_nat i < stop - start ∧ l !! (Z.to_nat start + i)%nat = Some x.
Proof.
  intros Ha Hb. unfold py_slice.
  destruct (start <? 0) eqn:E1; [lia|]. destruct (stop <? 0) eqn:E2; [lia|].
  rewrite lookup_take_Some, lookup_drop. split.
  - intros [Hx Hi]. apply lookup_lt_Some in Hx as Hlt.
    assert (Z.to_nat (Z.max 0 (Z.min (Z.of_nat (length l)) start))
            = Z.to_nat start) as Heq by lia.
    rewrite Heq in Hx. split; [lia|done].
  - intros [Hi Hx]. apply lookup_lt_Some in Hx as Hlt.
    assert (Z.to_nat (Z.max 0 (Z.min (Z.of_nat (length l)) start))
            = Z.to_nat start) as Heq by lia.
    rewrite Heq. split; [done|lia].
Qed.

Lemma at2_py_slice {A} (c0 r0 c1 r1 : Z) (a : arr2 A) (r c : nat) (x : A) :
  0 ≤ c0 → 0 ≤ r0 → 0 ≤ c1 → 0 ≤ r1 →
  at2 (map (py_slice c0 c1) (py_slice r0 r1 a)) r c = Some x
  ↔ Z.of_nat r < r1 - r0 ∧ Z.of_nat c < c1 - c0
    ∧ at2 a (Z.to_nat r0 + r) (Z.to_nat c0 + c) = Some x.
Proof.
  intros Hc0 Hr0 Hc1 Hr1. rewrite !at2_rows. split.
  - intros (row & Hrow & Hx).
    rewrite map_fmap, list_lookup_fmap in Hrow.
    destruct (py_slice r0 r1 a !! r) as [row'|] eqn:E; [|done].
    simpl in Hrow. simplify_eq.
    apply lookup_py_slice in E as [Hr E]; [|done|done].
    apply lookup_py_slice in Hx as [Hc Hx]; [|done|done].
    eauto.
  - intros (Hr & Hc & row & Hrow & Hx).
    exists (py_slice c0 c1 row). split.
    + rewrite map_fmap, list_lookup_fmap.
      assert (py_slice r0 r1 a !! r = Some row) as ->
        by (by apply lookup_py_slice).
      done.
    + by apply lookup_py_slice.
Qed.

Lemma traverse_lookup_r {A B} (f : A → res B) (l : list A) (ys : list B)
    (i : nat) (y : B) :
  traverse f l = Ok ys → ys !! i = Some y →
  ∃ x, l !! i = Some x ∧ f x = Ok y.
Proof.
  intros Hall%traverse_Forall2 Hy.
  destruct (Forall2_lookup_r _ _ _ _ _ Hall Hy) as (x & Hx & Hfx). eauto.
Qed.

(** X16. The node that [create_inverse_pixel_index] makes for destination
    block [(tj, ti)] carries this block id and the grid of the object; with
    [(b0, b1, b2, b3)] the box merged for the block, its offset is
    [(b0 + 0.5, b1 + 0.5)] and, when no entry of the box is negative, its
    subset is the source pixels of rows [b1 <= row < b3] and columns
    [b0 <= col < b2] that the image has: pixel [(r, c)] of the subset is
    pixel [(b1 + r, b0 + c)] of the source image, in longitude and in
    latitude. *)
Theorem inverse_node_subset {F : Type} `{FloatOps F} (h : store F)
    (self self' : Rectifier F) (layer : arr2 (InverseNode F)) (tj ti : nat)
    (n : InverseNode F) :
  create_inverse_pixel_index h self = Ok (self', layer) →
  at2 layer tj ti = Some n →
  ∃ (fw : ForwardGraph F) (fi fj : chunked Z) (l : loc) (g : Grid F)
    (raw : chunked box) (merged : arr2 box) (b0 b1 b2 b3 : Z),
    (forward_index self = Val fw ∧ compute_forward h fw = Ok (fi, fj)
     ∧ dst_grid self = Some l ∧ h !! l = Some g)
    ∧ (traverse (traverse (λ b : Z * Z * (arr2 Z * arr2 Z),
                   dst_bboxes_of_src_block b.2.1 b.2.2 g
                     (chunksize (src_lat self)) (shape (src_lat self))
                     (b.1.1, b.1.2)))
         (imap (λ bj brow, imap (λ bi b, (Z.of_nat bj, Z.of_nat bi, b)) brow)
            (zip2 pair fi fj)) = Ok raw
       ∧ bbox_blocks raw (ceil_frac (height g) (tile_height g))
           (ceil_frac (width g) (tile_width g)) = Ok merged
       ∧ box_at merged (Z.of_nat tj) (Z.of_nat ti) = Ok (b0, b1, b2, b3))
    ∧ inv_block_id n = (Z.of_nat tj, Z.of_nat ti)
    ∧ inv_grid n = dst_grid self
    ∧ inv_offset n = (fadd (of_int b0) (lit 5 10), fadd (of_int b1) (lit 5 10))
    ∧ (0 ≤ b0 → 0 ≤ b1 → 0 ≤ b2 → 0 ≤ b3 →
       ∀ r c x,
         (at2 (inv_lon n) r c = Some x
          ↔ Z.of_nat r < b3 - b1 ∧ Z.of_nat c < b2 - b0
            ∧ at2 (assemble (src_lon self)) (Z.to_nat b1 + r)
                (Z.to_nat b0 + c) = Some x)
         ∧ (at2 (inv_lat n) r c = Some x
            ↔ Z.of_nat r < b3 - b1 ∧ Z.of_nat c < b2 - b0
              ∧ at2 (assemble (src_lat self)) (Z.to_nat b1 + r)
                  (Z.to_nat b0 + c) = Some x)).
Proof.
  intros Hcreate Hn. unfold create_inverse_pixel_index in Hcreate.
  destruct (forward_index self) as [| |fw] eqn:Efw;
    cbn [getattr mbind res_bind rbind] in Hcreate; try discriminate.
  destruct (compute_forward h fw) as [[fi fj]|] eqn:Ecf;
    cbn [mbind res_bind rbind] in Hcreate; [|discriminate].
  destruct (dst_grid self) as [l|] eqn:El;
    cbn [deref mbind res_bind rbind] in Hcreate; [|discriminate].
  destruct (h !! l) as [g|] eqn:Eg;
    cbn [mbind res_bind rbind] in Hcreate; [|discriminate].
  destruct (traverse _ (imap _ _)) as [raw|] eqn:Eraw;
    cbn [mbind res_bind rbind] in Hcreate; [|discriminate].
  destruct (ceil_div (height g) (tile_height g)) as [nbj|] eqn:Enj;
    cbn [mbind res_bind rbind] in Hcreate; [|discriminate].
  destruct (ceil_div (width g) (tile_width g)) as [nbi|] eqn:Eni;
    cbn [mbind res_bind rbind] in Hcreate; [|discriminate].
  destruct (bbox_blocks raw nbj nbi) as [merged|] eqn:Em;
    cbn [mbind res_bind rbind] in Hcreate; [|discriminate].
  destruct (traverse _ (py_range nbj)) as [layer'|] eqn:Elayer;
    cbn [mbind res_bind rbind] in Hcreate; [|discriminate].
  injection Hcreate as <- <-.
  assert (Hnj : nbj = ceil_frac (height g) (tile_height g)).
  { unfold ceil_div in Enj. destruct (_ =? 0); by simplify_eq. }
  assert (Hni : nbi = ceil_frac (width g) (tile_width g)).
  { unfold ceil_div in Eni. destruct (_ =? 0); by simplify_eq. }
  apply at2_rows in Hn as (row & Hrow & Hn).
  destruct (traverse_lookup_r _ _ _ _ _ Elayer Hrow) as (j & Hj & Hfj).
  apply lookup_py_range_Some in Hj as [-> _].
  destruct (traverse_lookup_r _ _ _ _ _ Hfj Hn) as (i & Hi & Hfi).
  apply lookup_py_range_Some in Hi as [-> _].
  destruct (box_at merged (Z.of_nat tj) (Z.of_nat ti))
    as [[[[b0 b1] b2] b3]|] eqn:Eb;
    cbn [mbind res_bind rbind] in Hfi; [|discriminate].
  destruct (trafo self) as [| |tr];
    cbn [getattr mbind res_bind rbind] in Hfi; try discriminate.
  injection Hfi as <-.
  exists fw, fi, fj, l, g, raw, merged, b0, b1, b2, b3.
  subst nbj nbi. cbn [inv_block_id inv_grid inv_offset inv_lon inv_lat].
  split; [done|]. split; [done|]. split; [done|]. split; [done|].
  split; [done|].
  intros H0 H1 H2 H3 r c x. split; by apply at2_py_slice.
Qed.

Lemma inverse_node_subset_witness :
  ∃ (n : InverseNode B64.t) (b0 b1 : Z),
    inv_block_id n = (0, 0)
    ∧ inv_offset n
      = (fadd (of_int b0) (lit 5 10), fadd (of_int b1) (lit 5 10)).
Proof.
  pose (self := mkRectifier aligned_lon aligned_lat (Some 0%nat)
                  "rectify" (Val identity_trafo)
                  (Val (mkForwardGraph aligned_lon aligned_lat
                          identity_trafo (Some 0%nat)))
                  Missing).
  assert (E : ∃ self' layer n,
             create_inverse_pixel_index [aligned_grid] self
             = Ok (self', layer)
             ∧ at2 layer 0 0 = Some n).
  { vm_compute. eexists _, _, _. split; reflexivity. }
  destruct E as (self' & layer & n & Hc & Hn).
  destruct (inverse_node_subset _ _ _ _ _ _ _ Hc Hn)
    as (fw & fi & fj & l & g & raw & merged & b0 & b1 & b2 & b3
        & _ & _ & Hid & _ & Hoff & _).
  exists n, b0, b1. split; [exact Hid|exact Hoff].
Defined.
